(** * Voice-agent stream stages: ThinkingFillerTransform and ElevenLabsTTSTransform

    A shallow embedding of the two TransformStream stages of the repository,

    - [packages/webrtc/src/ThinkingFillerTransform.ts]  (module [Filler])
    - [packages/web/src/transforms/ElevenLabsTTSTransform.ts]  (module [ElevenLabs])

    and of the playground agent that wires providers and callbacks together,

    - [playground/src/agent.ts]  (module [Agent])

    together with the properties their specification states about them
    (modules [FillerFacts] and [ElevenLabsFacts]) and further properties of
    the code (modules [FillerStageFacts], [FillerStreamFacts],
    [ConnectionFacts] and [AgentFacts]).  Module [FillerStream] is the
    filler stage once more, with the stream it extends and with an observer
    that calls back into the stage.

    Both stages are event driven: their handler bodies run to completion on
    a single-threaded event loop, one at a time.  Each stage is therefore
    modelled as a record holding its mutable variables and the part of the
    JavaScript runtime it talks to (timer table, sockets, promises, output
    queue, console), and one Rocq function per handler body.  A run of the
    stage is a fold of the handler functions over a list of events chosen by
    the environment. *)

From Stdlib Require Import ZArith NArith Lia PrimFloat.
From stdpp Require Import gmap strings list.

Local Open Scope string_scope.
Local Open Scope list_scope.

#[local] Set Warnings "-register-all".

(** ** ThinkingFillerTransform *)

Module Filler.

(** What a call of the user supplied [onFillerEmitted] observer does: it
    returns, or it throws the given error.  In this module the observer
    does nothing else; one that calls the stage's methods while it runs is
    in module [FillerStream]. *)
Inductive CallbackResult :=
| Returns
| Throws (err : string).

(** A phrase read from [fillerPhrases[i]]; [None] is JavaScript's [undefined],
    the result of an out-of-range index. *)
Definition Phrase := option string.

(** [ThinkingFillerOptions]: every field is optional. *)
Record ThinkingFillerOptions := {
  opt_thresholdMs : option Z;
  opt_fillerPhrases : option (list string);
  opt_enabled : option bool;
  opt_maxFillersPerTurn : option Z;
  opt_fillerIntervalMs : option Z;
  opt_onFillerEmitted : option (Phrase → CallbackResult)
}.

(** The read-only fields of the instance, after the constructor has applied
    the defaults of its destructuring pattern. *)
Record Fields := {
  thresholdMs : Z;
  fillerPhrases : list string;
  enabled : bool;
  maxFillersPerTurn : Z;
  fillerIntervalMs : Z;
  onFillerEmitted : option (Phrase → CallbackResult)
}.

Definition defaultPhrases : list string :=
  [ "Let me see here..."; "Hmm, one moment..."; "Ah, let me think...";
    "Just a second..."; "Mhm, okay..." ].

Definition constructor_fields (o : ThinkingFillerOptions) : Fields :=
  {| thresholdMs := default 1000%Z (opt_thresholdMs o);
     fillerPhrases := default defaultPhrases (opt_fillerPhrases o);
     enabled := default true (opt_enabled o);
     maxFillersPerTurn := default 1%Z (opt_maxFillersPerTurn o);
     fillerIntervalMs := default 2000%Z (opt_fillerIntervalMs o);
     onFillerEmitted := opt_onFillerEmitted o |}.

(** Timer handles.  A handle returned by [setTimeout]/[setInterval] is
    always truthy (an object in Node, a positive integer in a browser), so
    the test [if (self.timeoutId)] is exactly the test "is not null". *)
Definition Handle := positive.

Inductive TimerKind := Timeout | Interval.

(** The closure-captured object [self] of the constructor. *)
Record Self := {
  controller : bool;               (* false: still null *)
  timeoutId : option Handle;
  intervalId : option Handle;
  fillersEmittedThisTurn : Z;
  isProcessing : bool;
  hasReceivedResponse : bool
}.

(** What has been enqueued on the readable side.  The stream itself carries
    plain strings; the tag records which code path enqueued the chunk
    ([transform] or [emitFiller]). *)
Inductive Emitted :=
| RealToken (chunk : string)
| FillerPhrase (phrase : Phrase).

(** The stage together with the runtime it runs on: the table of armed
    timers (kind and delay), the next fresh handle, the output queue, the
    console, and the errors that escaped a timer callback to the event
    loop. *)
Record World := {
  self : Self;
  timers : gmap Handle (TimerKind * Z);
  nextHandle : Handle;
  queue : list Emitted;
  console : list string;
  uncaught : list string
}.

Definition with_self (f : Self → Self) (w : World) : World :=
  {| self := f (self w); timers := timers w; nextHandle := nextHandle w;
     queue := queue w; console := console w; uncaught := uncaught w |}.

Definition set_timeoutId (v : option Handle) (s : Self) : Self :=
  {| controller := controller s; timeoutId := v; intervalId := intervalId s;
     fillersEmittedThisTurn := fillersEmittedThisTurn s;
     isProcessing := isProcessing s;
     hasReceivedResponse := hasReceivedResponse s |}.

Definition set_intervalId (v : option Handle) (s : Self) : Self :=
  {| controller := controller s; timeoutId := timeoutId s; intervalId := v;
     fillersEmittedThisTurn := fillersEmittedThisTurn s;
     isProcessing := isProcessing s;
     hasReceivedResponse := hasReceivedResponse s |}.

Definition set_fillersEmittedThisTurn (v : Z) (s : Self) : Self :=
  {| controller := controller s; timeoutId := timeoutId s;
     intervalId := intervalId s; fillersEmittedThisTurn := v;
     isProcessing := isProcessing s;
     hasReceivedResponse := hasReceivedResponse s |}.

Definition set_isProcessing (v : bool) (s : Self) : Self :=
  {| controller := controller s; timeoutId := timeoutId s;
     intervalId := intervalId s;
     fillersEmittedThisTurn := fillersEmittedThisTurn s;
     isProcessing := v; hasReceivedResponse := hasReceivedResponse s |}.

Definition set_hasReceivedResponse (v : bool) (s : Self) : Self :=
  {| controller := controller s; timeoutId := timeoutId s;
     intervalId := intervalId s;
     fillersEmittedThisTurn := fillersEmittedThisTurn s;
     isProcessing := isProcessing s; hasReceivedResponse := v |}.

(** *** The runtime primitives used by the stage *)

(** [clearTimeout(h)] and [clearInterval(h)]: the timer [h] never fires
    again.  Clearing a handle that is not armed does nothing. *)
Definition clearTimer (h : Handle) (w : World) : World :=
  {| self := self w; timers := delete h (timers w);
     nextHandle := nextHandle w; queue := queue w; console := console w;
     uncaught := uncaught w |}.

(** [setTimeout(cb, delay)] and [setInterval(cb, delay)]: arm a timer and
    return its fresh handle.  The callback itself is fixed by the kind: the
    stage arms only one callback of each kind. *)
Definition armTimer (k : TimerKind) (delay : Z) (w : World) : Handle * World :=
  (nextHandle w,
   {| self := self w; timers := <[nextHandle w := (k, delay)]> (timers w);
      nextHandle := Pos.succ (nextHandle w); queue := queue w;
      console := console w; uncaught := uncaught w |}).

(** [controller.enqueue(x)], on a readable side that is open.  This module
    is the stage while its stream is open; what [enqueue] does once the
    stream has been closed is in module [FillerStream]. *)
Definition enqueue (x : Emitted) (w : World) : World :=
  {| self := self w; timers := timers w; nextHandle := nextHandle w;
     queue := queue w ++ [x]; console := console w; uncaught := uncaught w |}.

Definition console_log (line : string) (w : World) : World :=
  {| self := self w; timers := timers w; nextHandle := nextHandle w;
     queue := queue w; console := console w ++ [line];
     uncaught := uncaught w |}.

(** An error thrown out of a timer callback reaches the event loop. *)
Definition escape (err : string) (w : World) : World :=
  {| self := self w; timers := timers w; nextHandle := nextHandle w;
     queue := queue w; console := console w;
     uncaught := uncaught w ++ [err] |}.

(** *** The stage *)

(** The state right after [new ThinkingFillerTransform(options)]: the
    TransformStream constructor has called [start(controller)]. *)
Definition constructed : World :=
  {| self := {| controller := true; timeoutId := None; intervalId := None;
                fillersEmittedThisTurn := 0; isProcessing := false;
                hasReceivedResponse := false |};
     timers := ∅; nextHandle := 1%positive; queue := []; console := [];
     uncaught := [] |}.

(** The block that [transform], [flush] and [cancelPendingFiller] share:
<<
    if (self.timeoutId) { clearTimeout(self.timeoutId); self.timeoutId = null; }
    if (self.intervalId) { clearInterval(self.intervalId); self.intervalId = null; }
>> *)
Definition clearBoth (w : World) : World :=
  let w1 := match timeoutId (self w) with
            | Some h => with_self (set_timeoutId None) (clearTimer h w)
            | None => w
            end in
  match intervalId (self w1) with
  | Some h => with_self (set_intervalId None) (clearTimer h w1)
  | None => w1
  end.

Definition transform (chunk : string) (w : World) : World :=
  let w1 := clearBoth w in
  let w2 := with_self (set_hasReceivedResponse true) w1 in
  let w3 := with_self (set_isProcessing false) w2 in
  enqueue (RealToken chunk) w3.

Definition flush (w : World) : World := clearBoth w.

Definition cancelPendingFiller (w : World) : World :=
  with_self (set_isProcessing false) (clearBoth w).

Definition phrase_text (p : Phrase) : string := default "undefined" p.

(** [s] between double quotes. *)
Definition quoted (s : string) : string :=
  String (Ascii.ascii_of_nat 34) (s +:+ String (Ascii.ascii_of_nat 34) "").

(** [emitFiller(self)].  [rnd] is the value of
    [Math.floor(Math.random() * this.fillerPhrases.length)] drawn by this
    call.  The second component is the error thrown out of the call, if
    any: here, the error of the observer.  [FillerStream.emitFiller] adds
    the error of [controller.enqueue] on a closed stream and the calls the
    observer makes into the stage. *)
Definition emitFiller (c : Fields) (rnd : nat) (w : World) : World * option string :=
  if negb (controller (self w))
     || hasReceivedResponse (self w)
     || (maxFillersPerTurn c <=? fillersEmittedThisTurn (self w))%Z
  then (w, None)
  else
    let phrase : Phrase := fillerPhrases c !! rnd in
    let w1 := console_log ("[ThinkingFiller] Emitting filler: " +:+ quoted (phrase_text phrase)) w in
    let w2 := enqueue (FillerPhrase phrase) w1 in
    let w3 := with_self (λ s, set_fillersEmittedThisTurn (fillersEmittedThisTurn s + 1)%Z s) w2 in
    match onFillerEmitted c with
    | None => (w3, None)
    | Some cb => match cb phrase with
                 | Returns => (w3, None)
                 | Throws err => (w3, Some err)
                 end
    end.

(** The callback given to [setInterval] in [notifyProcessingStarted]. *)
Definition intervalCallback (c : Fields) (rnd : nat) (w : World) : World :=
  if (fillersEmittedThisTurn (self w) <? maxFillersPerTurn c)%Z
     && negb (hasReceivedResponse (self w))
  then match emitFiller c rnd w with
       | (w1, Some err) => escape err w1
       | (w1, None) => w1
       end
  else match intervalId (self w) with
       | Some h => with_self (set_intervalId None) (clearTimer h w)
       | None => w
       end.

(** The callback given to [setTimeout] in [notifyProcessingStarted]. *)
Definition timeoutCallback (c : Fields) (rnd : nat) (w : World) : World :=
  match emitFiller c rnd w with
  | (w1, Some err) => escape err w1
  | (w1, None) =>
      if (1 <? maxFillersPerTurn c)%Z
      then let '(h, w2) := armTimer Interval (fillerIntervalMs c) w1 in
           with_self (set_intervalId (Some h)) w2
      else w1
  end.

Definition notifyProcessingStarted (c : Fields) (w : World) : World :=
  if negb (enabled c) then w
  else
    let w1 := with_self (set_fillersEmittedThisTurn 0) w in
    let w2 := with_self (set_isProcessing true) w1 in
    let w3 := with_self (set_hasReceivedResponse false) w2 in
    let w4 := match timeoutId (self w3) with
              | Some h => clearTimer h w3
              | None => w3
              end in
    let w5 := match intervalId (self w4) with
              | Some h => clearTimer h w4
              | None => w4
              end in
    let '(h, w6) := armTimer Timeout (thresholdMs c) w5 in
    with_self (set_timeoutId (Some h)) w6.

(** *** Runs *)

(** What the environment can do to the stage.  A timer event is the runtime
    running the callback of the armed timer [h]; it carries the random index
    the callback will draw. *)
Inductive Event :=
| NotifyProcessingStarted
| Transform (chunk : string)
| Flush
| CancelPendingFiller
| TimeoutFires (h : Handle) (rnd : nat)
| IntervalFires (h : Handle) (rnd : nat).

(** A timer callback runs only while its timer is armed, also when the
    timer was already due when it was cleared; a timeout is disarmed by
    firing, an interval stays armed. *)
Definition step (c : Fields) (w : World) (ev : Event) : World :=
  match ev with
  | NotifyProcessingStarted => notifyProcessingStarted c w
  | Transform chunk => transform chunk w
  | Flush => flush w
  | CancelPendingFiller => cancelPendingFiller w
  | TimeoutFires h rnd =>
      match timers w !! h with
      | Some (Timeout, _) => timeoutCallback c rnd (clearTimer h w)
      | _ => w
      end
  | IntervalFires h rnd =>
      match timers w !! h with
      | Some (Interval, _) => intervalCallback c rnd w
      | _ => w
      end
  end.

Definition run (c : Fields) (w : World) (evs : list Event) : World :=
  foldl (step c) w evs.

Definition is_notify (ev : Event) : bool :=
  match ev with NotifyProcessingStarted => true | _ => false end.

(** The events of one turn: anything but the start of the next turn. *)
Definition same_turn (evs : list Event) : Prop :=
  Forall (λ ev, is_notify ev = false) evs.

Definition is_filler (x : Emitted) : bool :=
  match x with FillerPhrase _ => true | RealToken _ => false end.

(** Number of filler phrases in an output queue. *)
Definition fillers (q : list Emitted) : Z :=
  Z.of_nat (length (filter (λ x, is_filler x = true) q)).

(** The chunks a list of events hands to [transform], as they appear in the
    output. *)
Definition tokens_of (evs : list Event) : list Emitted :=
  omap (λ ev, match ev with Transform chunk => Some (RealToken chunk) | _ => None end) evs.

(** Timer discipline: at most one timer is armed, and [self] holds its
    handle. *)
Definition timers_tracked (w : World) : Prop :=
  timers w = ∅
  ∨ (∃ h d, timeoutId (self w) = Some h ∧ timers w = {[ h := (Timeout, d) ]})
  ∨ (∃ h d, intervalId (self w) = Some h ∧ timers w = {[ h := (Interval, d) ]}).

(** The configuration of the playground: one filler per turn after 1200 ms. *)
Definition playground : Fields :=
  {| thresholdMs := 1200;
     fillerPhrases := [ "Let me see here..."; "Hmm, one moment...";
                        "Ah, let me check..."; "Just a second..." ];
     enabled := true; maxFillersPerTurn := 1; fillerIntervalMs := 2000;
     onFillerEmitted := None |}.

(** A configuration with two fillers per turn and the given observer. *)
Definition two_fillers (cb : option (Phrase → CallbackResult)) : Fields :=
  {| thresholdMs := 1200; fillerPhrases := defaultPhrases; enabled := true;
     maxFillersPerTurn := 2; fillerIntervalMs := 2000; onFillerEmitted := cb |}.

(** *** Predicates used in the proofs *)

(** How one handler body may change the output queue and the counter: not
    at all, or by one filler phrase, which needs the flag unset and the
    counter below the maximum. *)
Definition silent (w w' : World) : Prop :=
  queue w' = queue w
  ∧ fillersEmittedThisTurn (self w') = fillersEmittedThisTurn (self w).

Definition emits_one (c : Fields) (w w' : World) : Prop :=
  hasReceivedResponse (self w) = false
  ∧ (fillersEmittedThisTurn (self w) < maxFillersPerTurn c)%Z
  ∧ (∃ p, queue w' = queue w ++ [FillerPhrase p])
  ∧ fillersEmittedThisTurn (self w') = (fillersEmittedThisTurn (self w) + 1)%Z.

(** *** Further predicates *)


(** The chunks of an output queue that [transform] enqueued. *)
Definition real_tokens (q : list Emitted) : list Emitted :=
  filter (λ x, is_filler x = false) q.

(** A filler phrase as [emitFiller] reads it: [fillerPhrases[i]] for some
    index [i]. *)
Definition drawn_from (c : Fields) (x : Emitted) : Prop :=
  match x with
  | FillerPhrase p => ∃ rnd, p = fillerPhrases c !! rnd
  | RealToken _ => True
  end.

(** An observer that returns on every phrase; no observer at all counts. *)
Definition observer_returns (c : Fields) : Prop :=
  ∀ cb p, onFillerEmitted c = Some cb → cb p = Returns.

(** Every armed timer is one of the two the stage arms: the threshold
    timeout, or the repeat interval, which needs more than one filler per
    turn. *)
Definition timers_configured (c : Fields) (w : World) : Prop :=
  ∀ h k d, timers w !! h = Some (k, d) →
    (k = Timeout ∧ d = thresholdMs c ∧ enabled c = true)
    ∨ (k = Interval ∧ d = fillerIntervalMs c ∧ (1 < maxFillersPerTurn c)%Z).

(** The console line of [emitFiller]. *)
Definition line_of (p : Phrase) : string :=
  "[ThinkingFiller] Emitting filler: " +:+ quoted (phrase_text p).

(** The state [emitFiller] leaves when its guard lets it through, and the
    error its call of the observer ends with. *)
Definition emitted (c : Fields) (rnd : nat) (w : World) : World :=
  with_self (λ s, set_fillersEmittedThisTurn (fillersEmittedThisTurn s + 1)%Z s)
    (enqueue (FillerPhrase (fillerPhrases c !! rnd))
       (console_log (line_of (fillerPhrases c !! rnd)) w)).

Definition verdict (c : Fields) (rnd : nat) : option string :=
  match onFillerEmitted c with
  | Some cb => match cb (fillerPhrases c !! rnd) with
               | Returns => None
               | Throws err => Some err
               end
  | None => None
  end.

(** The index a timer event makes [emitFiller] draw. *)
Definition draw_of (ev : Event) : option nat :=
  match ev with
  | TimeoutFires _ rnd | IntervalFires _ rnd => Some rnd
  | _ => None
  end.

(** Every draw is an index of the phrase list, as
    [Math.floor(Math.random() * fillerPhrases.length)] is when the list is
    not empty. *)
Definition draws_in_range (c : Fields) (evs : list Event) : Prop :=
  Forall (λ ev, ∀ rnd, draw_of ev = Some rnd → (rnd < length (fillerPhrases c))%nat) evs.

(** The console lines that go with an output queue: one per filler. *)
Definition lines_of (q : list Emitted) : list string :=
  omap (λ x, match x with FillerPhrase p => Some (line_of p) | RealToken _ => None end) q.

(** A stage that is switched off, and one whose maximum is zero. *)
Definition switched_off : Fields :=
  {| thresholdMs := 1200; fillerPhrases := defaultPhrases; enabled := false;
     maxFillersPerTurn := 1; fillerIntervalMs := 2000; onFillerEmitted := None |}.

Definition no_phrases : Fields :=
  {| thresholdMs := 1200; fillerPhrases := []; enabled := true;
     maxFillersPerTurn := 2; fillerIntervalMs := 2000; onFillerEmitted := None |}.

End Filler.

(** ** ThinkingFillerTransform inside its stream *)

(** Module [Filler] is the stage while its readable side is open and with
    an observer that only returns or throws.  This module lifts both
    restrictions: once the stream has been closed [controller.enqueue]
    throws, and [onFillerEmitted] is the caller's code, which can call the
    public methods of the stage while it runs.  The stream is closed the
    regular way, by closing its writable side, which makes the runtime call
    [flush]; the observer calls the two methods of the stage and leaves the
    stream itself alone. *)

Module FillerStream.
Import Filler.

(** The public methods an observer can call back into. *)
Inductive Call :=
| CallNotifyProcessingStarted
| CallCancelPendingFiller.

(** The stage as configured, and what its observer does besides returning
    or throwing: the calls it makes back into the stage when it is handed a
    phrase, in order, before it ends the way [onFillerEmitted] says. *)
Record Config := {
  fields : Fields;
  reentry : Phrase → list Call
}.

(** The stage and its stream.  [closed]: the stream has run [flush] and
    closed its readable side; from then on it rejects writes. *)
Record State := {
  world : World;
  closed : bool
}.

Definition with_world (f : World → World) (st : State) : State :=
  {| world := f (world st); closed := closed st |}.

Definition constructed : State :=
  {| world := Filler.constructed; closed := false |}.

(** The error of [controller.enqueue] on a closed readable side, as Node
    prints it. *)
Definition enqueue_error : string :=
  "TypeError [ERR_INVALID_STATE]: Invalid state: Unable to enqueue".

Definition call (c : Config) (m : Call) (w : World) : World :=
  match m with
  | CallNotifyProcessingStarted => notifyProcessingStarted (fields c) w
  | CallCancelPendingFiller => cancelPendingFiller w
  end.

(** [this.onFillerEmitted?.(phrase)]: the calls the observer makes run on
    the state [emitFiller] has reached; the second component is the error
    the observer throws, if any. *)
Definition observe (c : Config) (phrase : Phrase) (w : World) : World * option string :=
  match onFillerEmitted (fields c) with
  | None => (w, None)
  | Some cb =>
      (foldl (λ w' m, call c m w') w (reentry c phrase),
       match cb phrase with
       | Returns => None
       | Throws err => Some err
       end)
  end.

(** [emitFiller(self)], as [Filler.emitFiller], with the two error paths:
    [controller.enqueue] throws on a closed readable side, before the
    counter is incremented and the observer is called. *)
Definition emitFiller (c : Config) (rnd : nat) (st : State) : State * option string :=
  let w := world st in
  if negb (controller (self w))
     || hasReceivedResponse (self w)
     || (maxFillersPerTurn (fields c) <=? fillersEmittedThisTurn (self w))%Z
  then (st, None)
  else
    let phrase : Phrase := fillerPhrases (fields c) !! rnd in
    let w1 := console_log ("[ThinkingFiller] Emitting filler: " +:+ quoted (phrase_text phrase)) w in
    if closed st then ({| world := w1; closed := closed st |}, Some enqueue_error)
    else
      let w2 := enqueue (FillerPhrase phrase) w1 in
      let w3 := with_self (λ s, set_fillersEmittedThisTurn (fillersEmittedThisTurn s + 1)%Z s) w2 in
      let '(w4, err) := observe c phrase w3 in
      ({| world := w4; closed := closed st |}, err).

(** The callback given to [setInterval] in [notifyProcessingStarted]. *)
Definition intervalCallback (c : Config) (rnd : nat) (st : State) : State :=
  let w := world st in
  if (fillersEmittedThisTurn (self w) <? maxFillersPerTurn (fields c))%Z
     && negb (hasReceivedResponse (self w))
  then match emitFiller c rnd st with
       | (st1, Some err) => with_world (escape err) st1
       | (st1, None) => st1
       end
  else match intervalId (self w) with
       | Some h => with_world (λ w, with_self (set_intervalId None) (clearTimer h w)) st
       | None => st
       end.

(** The callback given to [setTimeout] in [notifyProcessingStarted]: the
    interval is armed after [emitFiller] has returned, that is after the
    observer has run. *)
Definition timeoutCallback (c : Config) (rnd : nat) (st : State) : State :=
  match emitFiller c rnd st with
  | (st1, Some err) => with_world (escape err) st1
  | (st1, None) =>
      if (1 <? maxFillersPerTurn (fields c))%Z
      then with_world (λ w1, let '(h, w2) := armTimer Interval (fillerIntervalMs (fields c)) w1 in
                             with_self (set_intervalId (Some h)) w2) st1
      else st1
  end.

(** One event.  The stream hands a chunk to [transform] and calls [flush]
    only while it is open, and calls [flush] once; the methods of the stage
    and the timers do not ask. *)
Definition step (c : Config) (st : State) (ev : Event) : State :=
  match ev with
  | NotifyProcessingStarted => with_world (notifyProcessingStarted (fields c)) st
  | Transform chunk => if closed st then st else with_world (transform chunk) st
  | Flush => if closed st then st else {| world := flush (world st); closed := true |}
  | CancelPendingFiller => with_world cancelPendingFiller st
  | TimeoutFires h rnd =>
      match timers (world st) !! h with
      | Some (Timeout, _) => timeoutCallback c rnd (with_world (clearTimer h) st)
      | _ => st
      end
  | IntervalFires h rnd =>
      match timers (world st) !! h with
      | Some (Interval, _) => intervalCallback c rnd st
      | _ => st
      end
  end.

Definition run (c : Config) (st : State) (evs : list Event) : State :=
  foldl (step c) st evs.

(** The guard of [emitFiller] lets the call through. *)
Definition lets_through (c : Config) (w : World) : Prop :=
  controller (self w) = true
  ∧ hasReceivedResponse (self w) = false
  ∧ (fillersEmittedThisTurn (self w) < maxFillersPerTurn (fields c))%Z.

(** An observer that does not call back into the stage. *)
Definition no_reentry (c : Config) : Prop := ∀ p, reentry c p = [].

(** The stage of module [Filler] as a configuration of this one. *)
Definition plain (f : Fields) : Config := {| fields := f; reentry := λ _, [] |}.

(** The chunks the stream hands to [transform]: those written before
    [flush]. *)
Fixpoint written (evs : list Event) : list Emitted :=
  match evs with
  | [] => []
  | Transform chunk :: rest => RealToken chunk :: written rest
  | Flush :: _ => []
  | _ :: rest => written rest
  end.

Definition is_flush (ev : Event) : bool :=
  match ev with Flush => true | _ => false end.

(** Two fillers per turn and an observer that returns after the calls
    [calls]. *)
Definition calling_back (calls : list Call) : Config :=
  {| fields := two_fillers (Some (λ _, Returns)); reentry := λ _, calls |}.

End FillerStream.

(** ** ElevenLabsTTSTransform *)

Module ElevenLabs.

(** The values handed to [JSON.stringify] before [ws.send]. *)
Inductive JsValue :=
| VUndefined
| VBool (b : bool)
| VNumber (x : float)
| VString (s : string)
| VObject (fields : list (string * JsValue)).

(** [ElevenLabsOptions].  [None] is a property that is absent or
    [undefined] at run time; the TypeScript interface marks [apiKey] and
    [voiceId] as required, the constructor does not look at them. *)
Record ElevenLabsOptions := {
  apiKey : option string;
  voiceId : option string;
  modelId : option string;
  stability : option float;
  similarityBoost : option float
}.

(** JavaScript's [a || b] on an optional number and on an optional string:
    [undefined], [0], [-0], [NaN] and the empty string are falsy. *)
Definition truthy_number (x : float) : bool :=
  negb (x =? 0)%float && (x =? x)%float.

Definition number_or (a : option float) (b : float) : float :=
  match a with
  | Some x => if truthy_number x then x else b
  | None => b
  end.

Definition string_or (a : option string) (b : string) : string :=
  match a with
  | Some x => if String.eqb x "" then b else x
  | None => b
  end.

(** A template literal prints [undefined] as the word. *)
Definition interpolate (a : option string) : string := default "undefined" a.

Definition of_optional_string (a : option string) : JsValue :=
  match a with Some x => VString x | None => VUndefined end.

Definition getWebSocketUrl (o : ElevenLabsOptions) : string :=
  let modelId := string_or (modelId o) "eleven_monolingual_v1" in
  "wss://api.elevenlabs.io/v1/text-to-speech/" +:+ interpolate (voiceId o)
  +:+ "/stream-input?model_id=" +:+ modelId +:+ "&output_format=pcm_16000".

(** The three messages the stage sends. *)
Definition bosMessage (o : ElevenLabsOptions) : JsValue :=
  VObject
    [ ("text", VString " ");
      ("voice_settings",
       VObject [ ("stability", VNumber (number_or (stability o) 0.5));
                 ("similarity_boost", VNumber (number_or (similarityBoost o) 0.75)) ]);
      ("xi_api_key", of_optional_string (apiKey o)) ].

Definition payload (token : string) : JsValue :=
  VObject [ ("text", VString token); ("try_trigger_generation", VBool true) ].

Definition eosMessage : JsValue := VObject [ ("text", VString "") ].

(** The literal delay of the [setTimeout] in [flush]. *)
Definition flushTimeoutMs : N := 5000.

(** *** Runtime objects *)

Definition SocketId := nat.
Definition PromiseId := nat.
Definition Buffer := list Byte.byte.

Inductive ReadyState := CONNECTING | OPEN | CLOSING | CLOSED.

(** A [WebSocket] created by [createConnection]: its URL, its ready state,
    and the promise whose [resolve]/[reject] its handlers have captured. *)
Record Socket := {
  url : string;
  readyState : ReadyState;
  attempt : PromiseId
}.

(** How a promise was settled; a promise that is not in the table is
    pending. *)
Inductive Settlement :=
| Fulfilled
| Rejected (err : string).

(** Where an [async] function of the stage is suspended. *)
Inductive Task :=
| AwaitPending (token : string) (p : PromiseId)
    (* [transform], at [await connectionPromise] of a pending attempt *)
| AwaitNew (token : string) (p : PromiseId)
    (* [transform], at [await connectionPromise] of its own attempt *)
| AwaitDrain (final : option PromiseId) (timeout : PromiseId).
    (* [flush], at [await Promise.race([finalPromise, timeoutPromise])] *)

(** The closure variables of the constructor. *)
Record Vars := {
  ws : option SocketId;
  connectionPromise : option PromiseId;
  activeController : bool;
  isShuttingDown : bool;
  finalResolve : option PromiseId;   (* the resolver of that promise *)
  finalPromise : option PromiseId
}.

(** The part of the JavaScript runtime the stage uses: the sockets in
    creation order, the settled promises, what was sent on which socket, the
    console, the clock (milliseconds), the armed [flush] timer with its due
    time, and the calls of [finalResolve()] so far. *)
Record Runtime := {
  sockets : list Socket;
  settled : gmap PromiseId Settlement;
  nextPromise : PromiseId;
  sent : list (SocketId * JsValue);
  console : list string;
  now : N;
  flushTimer : option (N * PromiseId);
  finalCalls : list PromiseId
}.

(** The TransformStream around the stage: chunks written but not yet given
    to [transform], whether the writable side was closed, the suspended
    call, the chunks enqueued on the readable side, and the times at which
    [flush] was called and at which it returned. *)
Record Stream := {
  pending : list string;
  closeRequested : bool;
  running : option Task;
  readable : list Buffer;
  flushStarted : option N;
  flushEnded : option N
}.

Record World := {
  vars : Vars;
  rt : Runtime;
  stream : Stream
}.

Definition with_vars (f : Vars → Vars) (w : World) : World :=
  {| vars := f (vars w); rt := rt w; stream := stream w |}.

Definition with_rt (f : Runtime → Runtime) (w : World) : World :=
  {| vars := vars w; rt := f (rt w); stream := stream w |}.

Definition with_stream (f : Stream → Stream) (w : World) : World :=
  {| vars := vars w; rt := rt w; stream := f (stream w) |}.

Definition set_ws (v : option SocketId) (x : Vars) : Vars :=
  {| ws := v; connectionPromise := connectionPromise x;
     activeController := activeController x;
     isShuttingDown := isShuttingDown x; finalResolve := finalResolve x;
     finalPromise := finalPromise x |}.

Definition set_connectionPromise (v : option PromiseId) (x : Vars) : Vars :=
  {| ws := ws x; connectionPromise := v;
     activeController := activeController x;
     isShuttingDown := isShuttingDown x; finalResolve := finalResolve x;
     finalPromise := finalPromise x |}.

Definition set_isShuttingDown (v : bool) (x : Vars) : Vars :=
  {| ws := ws x; connectionPromise := connectionPromise x;
     activeController := activeController x; isShuttingDown := v;
     finalResolve := finalResolve x; finalPromise := finalPromise x |}.

Definition set_finalResolve (v : option PromiseId) (x : Vars) : Vars :=
  {| ws := ws x; connectionPromise := connectionPromise x;
     activeController := activeController x;
     isShuttingDown := isShuttingDown x; finalResolve := v;
     finalPromise := finalPromise x |}.

Definition set_finalPromise (v : option PromiseId) (x : Vars) : Vars :=
  {| ws := ws x; connectionPromise := connectionPromise x;
     activeController := activeController x;
     isShuttingDown := isShuttingDown x; finalResolve := finalResolve x;
     finalPromise := v |}.

Definition set_sockets (v : list Socket) (x : Runtime) : Runtime :=
  {| sockets := v; settled := settled x; nextPromise := nextPromise x;
     sent := sent x; console := console x; now := now x;
     flushTimer := flushTimer x; finalCalls := finalCalls x |}.

Definition set_settled (v : gmap PromiseId Settlement) (x : Runtime) : Runtime :=
  {| sockets := sockets x; settled := v; nextPromise := nextPromise x;
     sent := sent x; console := console x; now := now x;
     flushTimer := flushTimer x; finalCalls := finalCalls x |}.

Definition set_nextPromise (v : PromiseId) (x : Runtime) : Runtime :=
  {| sockets := sockets x; settled := settled x; nextPromise := v;
     sent := sent x; console := console x; now := now x;
     flushTimer := flushTimer x; finalCalls := finalCalls x |}.

Definition set_sent (v : list (SocketId * JsValue)) (x : Runtime) : Runtime :=
  {| sockets := sockets x; settled := settled x;
     nextPromise := nextPromise x; sent := v; console := console x;
     now := now x; flushTimer := flushTimer x; finalCalls := finalCalls x |}.

Definition set_console (v : list string) (x : Runtime) : Runtime :=
  {| sockets := sockets x; settled := settled x;
     nextPromise := nextPromise x; sent := sent x; console := v;
     now := now x; flushTimer := flushTimer x; finalCalls := finalCalls x |}.

Definition set_now (v : N) (x : Runtime) : Runtime :=
  {| sockets := sockets x; settled := settled x;
     nextPromise := nextPromise x; sent := sent x; console := console x;
     now := v; flushTimer := flushTimer x; finalCalls := finalCalls x |}.

Definition set_flushTimer (v : option (N * PromiseId)) (x : Runtime) : Runtime :=
  {| sockets := sockets x; settled := settled x;
     nextPromise := nextPromise x; sent := sent x; console := console x;
     now := now x; flushTimer := v; finalCalls := finalCalls x |}.

Definition set_finalCalls (v : list PromiseId) (x : Runtime) : Runtime :=
  {| sockets := sockets x; settled := settled x;
     nextPromise := nextPromise x; sent := sent x; console := console x;
     now := now x; flushTimer := flushTimer x; finalCalls := v |}.

Definition set_pending (v : list string) (x : Stream) : Stream :=
  {| pending := v; closeRequested := closeRequested x; running := running x;
     readable := readable x; flushStarted := flushStarted x;
     flushEnded := flushEnded x |}.

Definition set_closeRequested (v : bool) (x : Stream) : Stream :=
  {| pending := pending x; closeRequested := v; running := running x;
     readable := readable x; flushStarted := flushStarted x;
     flushEnded := flushEnded x |}.

Definition set_running (v : option Task) (x : Stream) : Stream :=
  {| pending := pending x; closeRequested := closeRequested x; running := v;
     readable := readable x; flushStarted := flushStarted x;
     flushEnded := flushEnded x |}.

Definition set_readable (v : list Buffer) (x : Stream) : Stream :=
  {| pending := pending x; closeRequested := closeRequested x;
     running := running x; readable := v; flushStarted := flushStarted x;
     flushEnded := flushEnded x |}.

Definition set_flushStarted (v : option N) (x : Stream) : Stream :=
  {| pending := pending x; closeRequested := closeRequested x;
     running := running x; readable := readable x; flushStarted := v;
     flushEnded := flushEnded x |}.

Definition set_flushEnded (v : option N) (x : Stream) : Stream :=
  {| pending := pending x; closeRequested := closeRequested x;
     running := running x; readable := readable x;
     flushStarted := flushStarted x; flushEnded := v |}.

(** *** Runtime primitives *)

Definition console_log (line : string) (w : World) : World :=
  with_rt (λ r, set_console (console r ++ [line]) r) w.

Definition ws_send (s : SocketId) (v : JsValue) (w : World) : World :=
  with_rt (λ r, set_sent (sent r ++ [(s, v)]) r) w.

(** [new Promise(...)]: a fresh, pending promise. *)
Definition newPromise (w : World) : PromiseId * World :=
  (nextPromise (rt w), with_rt (λ r, set_nextPromise (S (nextPromise r)) r) w).

Definition is_settled (w : World) (p : PromiseId) : bool :=
  bool_decide (is_Some (settled (rt w) !! p)).

(** Calling the [resolve] or [reject] function of a promise settles it if it
    is still pending and does nothing otherwise. *)
Definition settle (p : PromiseId) (how : Settlement) (w : World) : World :=
  match settled (rt w) !! p with
  | Some _ => w
  | None => with_rt (λ r, set_settled (<[p := how]> (settled r)) r) w
  end.

Definition set_readyState (st : ReadyState) (sk : Socket) : Socket :=
  {| url := url sk; readyState := st; attempt := attempt sk |}.

(** [ws && ws.readyState === WebSocket.OPEN] *)
Definition ws_open (w : World) : option SocketId :=
  match ws (vars w) with
  | Some s => match sockets (rt w) !! s with
              | Some sk => match readyState sk with OPEN => Some s | _ => None end
              | None => None
              end
  | None => None
  end.

(** [ws === newWs] *)
Definition ws_is (s : SocketId) (w : World) : bool :=
  bool_decide (ws (vars w) = Some s).

(** *** The stage *)

(** The state after [new ElevenLabsTTSTransform(options)]: the closure
    variables hold their initial values and [start(controller)] has run. *)
Definition constructed : World :=
  {| vars := {| ws := None; connectionPromise := None; activeController := true;
                isShuttingDown := false; finalResolve := None;
                finalPromise := None |};
     rt := {| sockets := []; settled := ∅; nextPromise := 0; sent := [];
              console := []; now := 0; flushTimer := None; finalCalls := [] |};
     stream := {| pending := []; closeRequested := false; running := None;
                  readable := []; flushStarted := None; flushEnded := None |} |}.

(** The result of evaluating a [new] expression. *)
Inductive Construction :=
| Constructed (w : World)
| ConstructorThrew (err : string).

(** The constructor declares its variables and closures and calls [super];
    it never reads [options]. *)
Definition constructor (o : ElevenLabsOptions) : Construction :=
  Constructed constructed.

Definition resetFinalPromise (w : World) : World :=
  let '(p, w1) := newPromise w in
  with_vars (λ x, set_finalResolve (Some p) (set_finalPromise (Some p) x)) w1.

(** [createConnection()], up to the point where it returns its promise; the
    four handlers it registers on [newWs] are [on_open], [on_message],
    [on_error] and [on_close] below. *)
Definition createConnection (o : ElevenLabsOptions) (w : World) : PromiseId * World :=
  let w1 := resetFinalPromise w in
  let '(p, w2) := newPromise w1 in
  let w3 := console_log "ElevenLabs: Connecting..." w2 in
  let newWs := {| url := getWebSocketUrl o; readyState := CONNECTING; attempt := p |} in
  (p, with_rt (λ r, set_sockets (sockets r ++ [newWs]) r) w3).

Definition suspend (t : Task) (w : World) : World :=
  with_stream (set_running (Some t)) w.

(** [transform], after [await ensureConnection()] has returned. *)
Definition transform_send (token : string) (w : World) : World :=
  match ws_open w with
  | Some s => ws_send s (payload token) w
  | None => console_log ("ElevenLabs: WebSocket not open, dropping token: " +:+ token) w
  end.

(** [transform], in its [catch] clause. *)
Definition transform_catch (err : string) (w : World) : World :=
  console_log ("ElevenLabs: Error in transform: " +:+ err) w.

(** [ensureConnection], at [await connectionPromise] after
    [connectionPromise = createConnection()]. *)
Definition await_new (token : string) (p : PromiseId) (w : World) : World :=
  match settled (rt w) !! p with
  | None => suspend (AwaitNew token p) w
  | Some Fulfilled => transform_send token w
  | Some (Rejected err) => transform_catch err w
  end.

Definition ensureConnection_new (o : ElevenLabsOptions) (token : string) (w : World) : World :=
  let '(p, w1) := createConnection o w in
  await_new token p (with_vars (set_connectionPromise (Some p)) w1).

(** [ensureConnection], at [await connectionPromise] of an attempt that was
    already there. *)
Definition await_pending (o : ElevenLabsOptions) (token : string) (p : PromiseId) (w : World) : World :=
  match settled (rt w) !! p with
  | None => suspend (AwaitPending token p) w
  | Some Fulfilled =>
      match ws_open w with
      | Some _ => transform_send token w
      | None => ensureConnection_new o token w
      end
  | Some (Rejected err) => transform_catch err w
  end.

Definition ensureConnection (o : ElevenLabsOptions) (token : string) (w : World) : World :=
  match ws_open w with
  | Some _ => transform_send token w
  | None =>
      match connectionPromise (vars w) with
      | Some p => await_pending o token p w
      | None => ensureConnection_new o token w
      end
  end.

Definition transform (o : ElevenLabsOptions) (token : string) (w : World) : World :=
  if isShuttingDown (vars w) then w else ensureConnection o token w.

(** [ws.close()]: an open socket starts its closing handshake. *)
Definition ws_close (s : SocketId) (w : World) : World :=
  match sockets (rt w) !! s with
  | Some sk =>
      match readyState sk with
      | CLOSED => w
      | _ => with_rt (λ r, set_sockets (<[s := set_readyState CLOSING sk]> (sockets r)) r) w
      end
  | None => w
  end.

(** [flush] returns: the stream closes its readable side. *)
Definition flush_return (w : World) : World :=
  let w1 := with_vars (set_connectionPromise None) w in
  with_stream (set_flushEnded (Some (now (rt w1)))) w1.

(** [flush], after the race has settled: [try { ws.close() } catch {}]
    (with [ws] null the call throws and the error is ignored), [ws = null]. *)
Definition flush_close (w : World) : World :=
  let w1 := match ws (vars w) with
            | Some s => ws_close s w
            | None => w
            end in
  flush_return (with_vars (set_ws None) w1).

(** [Promise.race([finalPromise, timeoutPromise])] is settled as soon as one
    of the two is; a null first component counts as settled. *)
Definition race_settled (w : World) (final : option PromiseId) (timeout : PromiseId) : bool :=
  match final with
  | Some p => is_settled w p
  | None => true
  end || is_settled w timeout.

Definition await_drain (final : option PromiseId) (timeout : PromiseId) (w : World) : World :=
  if race_settled w final timeout then flush_close w
  else suspend (AwaitDrain final timeout) w.

Definition flush (w : World) : World :=
  let w0 := with_stream (set_flushStarted (Some (now (rt w)))) w in
  let w1 := console_log "ElevenLabs: Flushing stream..." w0 in
  let w2 := with_vars (set_isShuttingDown true) w1 in
  match ws_open w2 with
  | Some s =>
      let w3 := ws_send s eosMessage w2 in
      let '(tp, w4) := newPromise w3 in
      let w5 := with_rt (λ r, set_flushTimer (Some (now r + flushTimeoutMs, tp)%N) r) w4 in
      await_drain (finalPromise (vars w5)) tp w5
  | None => flush_return w2
  end.

(** The callback of the [setTimeout] in [flush]. *)
Definition timer_callback (tp : PromiseId) (w : World) : World :=
  let w1 := with_rt (set_flushTimer None) w in
  let w2 := console_log "ElevenLabs: Flush timeout reached" w1 in
  settle tp Fulfilled w2.

(** *** Socket handlers *)

(** What the message handler can see of an inbound message.  [Malformed]:
    [JSON.parse] throws, or the parsed value is [null] and reading a
    property of it throws.  Otherwise: whether [response.audio] is falsy,
    decodes to a chunk, or makes [Buffer.from] throw; whether
    [response.isFinal] is truthy; and the truthy [response.error], if any. *)
Inductive AudioField :=
| NoAudio
| Audio (chunk : Buffer)
| BadAudio (err : string).

Inductive Inbound :=
| Malformed (err : string)
| Response (audio : AudioField) (isFinal : bool) (error : option string).

Definition parse_error (err : string) (w : World) : World :=
  console_log ("ElevenLabs: Error parsing message: " +:+ err) w.

(** [finalResolve(); finalResolve = null;] under [if (finalResolve)] *)
Definition resolve_final (w : World) : World :=
  match finalResolve (vars w) with
  | Some p =>
      let w1 := with_rt (λ r, set_finalCalls (finalCalls r ++ [p]) r) w in
      with_vars (set_finalResolve None) (settle p Fulfilled w1)
  | None => w
  end.

Definition on_message_rest (isFinal : bool) (error : option string) (w : World) : World :=
  let w1 := if isFinal then resolve_final w else w in
  match error with
  | Some e => console_log ("ElevenLabs: Server returned error: " +:+ e) w1
  | None => w1
  end.

(** The error of [controller.enqueue] on a closed readable side, as Node
    prints it. *)
Definition enqueue_error : string :=
  "TypeError [ERR_INVALID_STATE]: Invalid state: Unable to enqueue".

(** The ["message"] handler.  [activeController.enqueue] throws once the
    readable side is closed, which is after [flush] has returned. *)
Definition on_message (m : Inbound) (w : World) : World :=
  match m with
  | Malformed err => parse_error err w
  | Response NoAudio isFinal error => on_message_rest isFinal error w
  | Response (BadAudio err) _ _ => parse_error err w
  | Response (Audio chunk) isFinal error =>
      if activeController (vars w) then
        match flushEnded (stream w) with
        | Some _ => parse_error enqueue_error w
        | None =>
            on_message_rest isFinal error
              (with_stream (λ x, set_readable (readable x ++ [chunk]) x) w)
        end
      else on_message_rest isFinal error w
  end.

(** The ["open"] handler of socket [s]. *)
Definition on_open (o : ElevenLabsOptions) (s : SocketId) (p : PromiseId) (w : World) : World :=
  let w1 := console_log "ElevenLabs: WebSocket connected" w in
  let w2 := ws_send s (bosMessage o) w1 in
  let w3 := with_vars (set_ws (Some s)) w2 in
  settle p Fulfilled w3.

(** [if (ws === newWs) { ws = null; connectionPromise = null; }] *)
Definition forget_if_current (s : SocketId) (w : World) : World :=
  if ws_is s w
  then with_vars (λ x, set_connectionPromise None (set_ws None x)) w
  else w.

(** The ["error"] handler of socket [s]. *)
Definition on_error (s : SocketId) (p : PromiseId) (err : string) (w : World) : World :=
  let w1 := console_log ("ElevenLabs WS Error: " +:+ err) w in
  let w2 := forget_if_current s w1 in
  settle p (Rejected err) w2.

(** The ["close"] handler of socket [s]. *)
Definition on_close (s : SocketId) (code reason : string) (w : World) : World :=
  let w1 := console_log ("ElevenLabs: WebSocket closed (code: " +:+ code
                         +:+ ", reason: " +:+ reason +:+ ")") w in
  let w2 := forget_if_current s w1 in
  resolve_final w2.

(** *** The stream driving the stage *)

(** Hand queued chunks to [transform], one call at a time, until a call
    suspends. *)
Fixpoint pump_chunks (o : ElevenLabsOptions) (chunks : list string) (w : World) : World :=
  match chunks with
  | [] => with_stream (set_pending []) w
  | token :: rest =>
      let w1 := transform o token w in
      match running (stream w1) with
      | Some _ => with_stream (set_pending rest) w1
      | None => pump_chunks o rest w1
      end
  end.

(** With no call in progress: process the queued chunks, then call [flush]
    once if the writable side has been closed. *)
Definition pump (o : ElevenLabsOptions) (w : World) : World :=
  let w1 := pump_chunks o (pending (stream w)) w in
  match running (stream w1), flushStarted (stream w1) with
  | None, None => if closeRequested (stream w1) then flush w1 else w1
  | _, _ => w1
  end.

(** Continue the suspended call if the promise it awaits is settled. *)
Definition resume (o : ElevenLabsOptions) (t : Task) (w : World) : World :=
  match t with
  | AwaitPending token p => await_pending o token p w
  | AwaitNew token p => await_new token p w
  | AwaitDrain final timeout => await_drain final timeout w
  end.

(** The microtasks that follow a handler: the suspended call continues, and
    when it returns the stream goes on with its queue. *)
Definition drive (o : ElevenLabsOptions) (w : World) : World :=
  match running (stream w) with
  | None => w
  | Some t =>
      let w1 := resume o t (with_stream (set_running None) w) in
      match running (stream w1) with
      | Some _ => w1
      | None => pump o w1
      end
  end.

(** *** Runs *)

(** What the environment can do: write a chunk to the stream, close its
    writable side, deliver a socket event, let time pass, run the due
    [flush] timer, or have the remote end start the closing handshake.
    [SockCloseFrame s]: the close frame of the remote end arrives on socket
    [s]; the socket library answers it and moves the socket to [CLOSING]
    without calling a handler of the stage, and emits ["close"] only when
    the connection is gone. *)
Inductive Event :=
| WriteChunk (token : string)
| CloseWritable
| SockOpen (s : SocketId)
| SockMessage (s : SocketId) (m : Inbound)
| SockError (s : SocketId) (err : string)
| SockClose (s : SocketId) (code reason : string)
| Tick (dt : N)
| TimerFires
| SockCloseFrame (s : SocketId).

Definition set_socket_state (s : SocketId) (st : ReadyState) (w : World) : World :=
  with_rt (λ r, set_sockets (alter (set_readyState st) s (sockets r)) r) w.

Definition advance_to (t : N) (w : World) : World :=
  with_rt (set_now t) w.

(** One event.  A socket emits ["open"] only while connecting, ["message"]
    only while open or closing, and ["error"] and ["close"] only before it
    is closed; the socket library sets the ready state before it calls the
    handler, and a close frame of the remote end moves an open socket to
    [CLOSING] with no handler called.  A timer runs at or after its due
    time; [slack] bounds how late the runtime may run it.  The readable side
    of the stream is read as fast as it fills (the stage is piped into its
    consumer), so the stream holds a chunk back only while a call is in
    progress: a chunk written with no call in progress is handed to
    [transform] in the same step. *)
Definition step (o : ElevenLabsOptions) (slack : N) (w : World) (ev : Event) : World :=
  match ev with
  | WriteChunk token =>
      if closeRequested (stream w) then w
      else
        let w1 := with_stream (λ x, set_pending (pending x ++ [token]) x) w in
        match running (stream w1) with
        | Some _ => w1
        | None => pump o w1
        end
  | CloseWritable =>
      if closeRequested (stream w) then w
      else
        let w1 := with_stream (set_closeRequested true) w in
        match running (stream w1) with
        | Some _ => w1
        | None => pump o w1
        end
  | SockOpen s =>
      match sockets (rt w) !! s with
      | Some {| readyState := CONNECTING; attempt := p |} =>
          drive o (on_open o s p (set_socket_state s OPEN w))
      | _ => w
      end
  | SockMessage s m =>
      match readyState <$> sockets (rt w) !! s with
      | Some OPEN | Some CLOSING => drive o (on_message m w)
      | _ => w
      end
  | SockError s err =>
      match sockets (rt w) !! s with
      | Some sk =>
          match readyState sk with
          | CLOSED => w
          | _ => drive o (on_error s (attempt sk) err (set_socket_state s CLOSING w))
          end
      | None => w
      end
  | SockClose s code reason =>
      match readyState <$> sockets (rt w) !! s with
      | Some CLOSED | None => w
      | Some _ => drive o (on_close s code reason (set_socket_state s CLOSED w))
      end
  | Tick dt =>
      let t := (now (rt w) + dt)%N in
      match flushTimer (rt w) with
      | Some (due, tp) =>
          if (due + slack <? t)%N
          then advance_to t
                 (drive o (timer_callback tp
                             (advance_to (N.max (now (rt w)) (due + slack)) w)))
          else advance_to t w
      | None => advance_to t w
      end
  | TimerFires =>
      match flushTimer (rt w) with
      | Some (due, tp) =>
          if (due <=? now (rt w))%N then drive o (timer_callback tp w) else w
      | None => w
      end
  | SockCloseFrame s =>
      match readyState <$> sockets (rt w) !! s with
      | Some OPEN => set_socket_state s CLOSING w
      | _ => w
      end
  end.

Definition run (o : ElevenLabsOptions) (slack : N) (w : World) (evs : list Event) : World :=
  foldl (step o slack) w evs.

(** The payload the specification words for a token: the hint under the key
    [trigger_generation]. *)
Definition spec_payload (token : string) : JsValue :=
  VObject [ ("text", VString token); ("trigger_generation", VBool true) ].

(** A message with nothing but the final signal. *)
Definition final_signal : Inbound := Response NoAudio true None.

(** The messages whose [isFinal] the handler gets to: it is truthy, and
    the audio field, if any, decodes. *)
Definition signals_final (m : Inbound) : bool :=
  match m with
  | Response NoAudio isFinal _ | Response (Audio _) isFinal _ => isFinal
  | _ => false
  end.

(** Options with everything missing, and options that set both tuning
    parameters to zero. *)
Definition no_options : ElevenLabsOptions :=
  {| apiKey := None; voiceId := None; modelId := None; stability := None;
     similarityBoost := None |}.

Definition zero_tuning : ElevenLabsOptions :=
  {| apiKey := Some "key"; voiceId := Some "voice"; modelId := None;
     stability := Some 0%float; similarityBoost := Some 0%float |}.

(** The adapter after a connection attempt has failed: no socket is
    current, and [connectionPromise] still holds the rejected attempt. *)
Definition stuck (err : string) (w : World) : Prop :=
  isShuttingDown (vars w) = false
  ∧ ws (vars w) = None
  ∧ (∃ p, connectionPromise (vars w) = Some p
          ∧ settled (rt w) !! p = Some (Rejected err))
  ∧ running (stream w) = None
  ∧ pending (stream w) = []
  ∧ closeRequested (stream w) = false
  ∧ flushStarted (stream w) = None.

(** *** Predicates used in the proofs *)

Definition is_write (ev : Event) : bool :=
  match ev with WriteChunk _ => true | _ => false end.

(** The stage as long as nothing was written: no socket, no suspended call,
    no timer. *)
Definition untouched (w : World) : Prop :=
  sockets (rt w) = []
  ∧ sent (rt w) = []
  ∧ ws (vars w) = None
  ∧ running (stream w) = None
  ∧ pending (stream w) = []
  ∧ flushTimer (rt w) = None.

(** The messages the stage sends: begin, end, or the payload of a token. *)
Definition known_message (o : ElevenLabsOptions) (m : SocketId * JsValue) : Prop :=
  m.2 = bosMessage o ∨ m.2 = eosMessage ∨ ∃ token, m.2 = payload token.

(** The waiter slot against the calls of [finalResolve()] so far: no waiter
    was called twice, every waiter called is an allocated promise, and the
    waiter in the slot is allocated and has not been called. *)
Definition waiter_ok (waiter : option PromiseId) (calls : list PromiseId) (next : PromiseId) : Prop :=
  NoDup calls
  ∧ (∀ p, p ∈ calls → p < next)
  ∧ (∀ p, waiter = Some p → p < next ∧ p ∉ calls).

Definition Safe (o : ElevenLabsOptions) (w : World) : Prop :=
  Forall (known_message o) (sent (rt w))
  ∧ waiter_ok (finalResolve (vars w)) (finalCalls (rt w)) (nextPromise (rt w)).

(** The slot and the promise of the latest connection go together: a
    waiter in the slot resolves [finalPromise], and while [finalPromise] is
    pending its waiter is in the slot. *)
Definition Slot (w : World) : Prop :=
  (∀ p, finalResolve (vars w) = Some p → finalPromise (vars w) = Some p)
  ∧ (∀ p, finalPromise (vars w) = Some p → settled (rt w) !! p = None →
       finalResolve (vars w) = Some p).

(** The part of the world [Safe] and [Slot] depend on. *)
Definition core (w : World) :=
  (sent (rt w), settled (rt w), nextPromise (rt w), finalCalls (rt w),
   finalResolve (vars w), finalPromise (vars w)).

(** A suspended call that is not [flush]. *)
Definition transform_task (t : option Task) : Prop :=
  match t with Some (AwaitDrain _ _) => False | _ => True end.

(** Before [flush] is called no timer is armed; while it waits, the timer
    it armed is the one its race awaits and is not overdue; after it has
    returned, it returned in time. *)
Definition FlushInv (slack : N) (w : World) : Prop :=
  match flushStarted (stream w), flushEnded (stream w) with
  | None, None =>
      flushTimer (rt w) = None ∧ transform_task (running (stream w))
  | Some t0, None =>
      closeRequested (stream w) = true
      ∧ pending (stream w) = []
      ∧ (t0 ≤ now (rt w) ≤ t0 + flushTimeoutMs + slack)%N
      ∧ ∃ final tp, running (stream w) = Some (AwaitDrain final tp)
                    ∧ flushTimer (rt w) = Some ((t0 + flushTimeoutMs)%N, tp)
  | Some t0, Some t1 =>
      closeRequested (stream w) = true
      ∧ pending (stream w) = []
      ∧ running (stream w) = None
      ∧ (t0 ≤ t1 ≤ t0 + flushTimeoutMs + slack)%N
  | None, Some _ => False
  end.

(** The part of the world [FlushInv] depends on, and the same without the
    queue and the suspended call. *)
Definition flush_view (w : World) :=
  (flushStarted (stream w), flushEnded (stream w), closeRequested (stream w),
   pending (stream w), running (stream w), flushTimer (rt w), now (rt w)).

Definition clock_view (w : World) :=
  (flushStarted (stream w), flushEnded (stream w), closeRequested (stream w),
   flushTimer (rt w), now (rt w)).

(** The calls made on behalf of [transform] leave clock, timer and flush
    times alone, do not touch the queue, and suspend only at a connection
    attempt. *)
Definition transform_like (w w' : World) : Prop :=
  clock_view w' = clock_view w
  ∧ pending (stream w') = pending (stream w)
  ∧ (running (stream w) = None → transform_task (running (stream w'))).

(** While [flush] is suspended, the first promise of its race is
    [finalPromise], and the race is not settled. *)
Definition Waiting (w : World) : Prop :=
  ∀ final tp, running (stream w) = Some (AwaitDrain final tp) →
    final = finalPromise (vars w) ∧ race_settled w final tp = false.

(** The suspended call and [finalPromise]: the socket handlers and the
    timer callback leave both as they are. *)
Definition wait_view (w : World) := (running (stream w), finalPromise (vars w)).

(** *** Sockets, the suspended call and the wire *)


(** The ready state and the attempt of socket [s], if it exists. *)
Definition state_of (w : World) (s : SocketId) : option ReadyState :=
  readyState <$> sockets (rt w) !! s.

Definition attempt_of (w : World) (s : SocketId) : option PromiseId :=
  attempt <$> sockets (rt w) !! s.

(** How the sockets, the closure variables and the suspended call go
    together.  The current socket is open, or closing at the request of the
    remote end, and an open socket is the current one.  A connecting socket
    is the only one; while it connects no open socket is current, [flush]
    has not been called, and the suspended call is the [transform] that
    awaits its attempt, which is pending.  The attempt of a socket that has
    left the connecting state by opening or failing is settled.  A pending
    [connectionPromise] is awaited by the suspended call, which never waits
    at the [await] of somebody else's attempt.  Promises are allocated
    before they are used.  [flush] waits only after it has set
    [isShuttingDown], which nothing else sets, and once it has returned no
    open socket is current and no attempt is kept. *)
Definition Link (w : World) : Prop :=
  (∀ s, ws (vars w) = Some s →
       state_of w s = Some OPEN ∨ state_of w s = Some CLOSING)
  ∧ (∀ s, state_of w s = Some OPEN → ws (vars w) = Some s)
  ∧ (∀ s, state_of w s = Some CONNECTING →
       ws_open w = None ∧ isShuttingDown (vars w) = false
       ∧ ∃ p token, attempt_of w s = Some p ∧ settled (rt w) !! p = None
                    ∧ running (stream w) = Some (AwaitNew token p))
  ∧ (∀ s s', state_of w s = Some CONNECTING → state_of w s' = Some CONNECTING → s = s')
  ∧ (∀ s, state_of w s = Some OPEN ∨ state_of w s = Some CLOSING →
       ∃ p, attempt_of w s = Some p ∧ is_Some (settled (rt w) !! p))
  ∧ (∀ p, connectionPromise (vars w) = Some p → settled (rt w) !! p = None →
       ∃ token, running (stream w) = Some (AwaitNew token p))
  ∧ (∀ token p, running (stream w) ≠ Some (AwaitPending token p))
  ∧ (∀ token p, running (stream w) = Some (AwaitNew token p) →
       finalResolve (vars w) ≠ Some p)
  ∧ (∀ d tp, flushTimer (rt w) = Some (d, tp) →
       isShuttingDown (vars w) = true ∧ tp < nextPromise (rt w))
  ∧ (∀ p, is_Some (settled (rt w) !! p) → p < nextPromise (rt w))
  ∧ (∀ s p, attempt_of w s = Some p → p < nextPromise (rt w))
  ∧ (∀ p, finalResolve (vars w) = Some p → p < nextPromise (rt w))
  ∧ (∀ final tp, running (stream w) = Some (AwaitDrain final tp) →
       isShuttingDown (vars w) = true)
  ∧ (flushEnded (stream w) ≠ None →
       isShuttingDown (vars w) = true ∧ ws_open w = None
       ∧ connectionPromise (vars w) = None)
  ∧ (isShuttingDown (vars w) = true → flushStarted (stream w) ≠ None).

(** The part of the world [Link] depends on. *)
Definition link_view (w : World) :=
  (sockets (rt w), settled (rt w), nextPromise (rt w), flushTimer (rt w),
   ws (vars w), connectionPromise (vars w), isShuttingDown (vars w),
   finalResolve (vars w), running (stream w), flushEnded (stream w),
   flushStarted (stream w)).

(** What identifies a socket: its URL and its attempt. *)
Definition ident (sk : Socket) : string * PromiseId := (url sk, attempt sk).

(** What a call made on behalf of the stream, and a socket handler other
    than the ["message"] handler, leaves as it is: the readable side, the
    controller, and whether the writable side was closed.  Such a call
    never takes back [isShuttingDown] or the fact that [flush] was called or
    has returned, never removes a socket and never changes the URL or the
    attempt of one, and a socket it creates has the URL of
    [getWebSocketUrl]. *)
Definition Frame (o : ElevenLabsOptions) (w w' : World) : Prop :=
  readable (stream w') = readable (stream w)
  ∧ activeController (vars w') = activeController (vars w)
  ∧ closeRequested (stream w') = closeRequested (stream w)
  ∧ (isShuttingDown (vars w) = true → isShuttingDown (vars w') = true)
  ∧ (flushStarted (stream w) ≠ None → flushStarted (stream w') ≠ None)
  ∧ (flushEnded (stream w) ≠ None → flushEnded (stream w') ≠ None)
  ∧ ∃ new, ident <$> sockets (rt w') = (ident <$> sockets (rt w)) ++ new
           ∧ Forall (λ x, x.1 = getWebSocketUrl o) new.

Definition frame_view (w : World) :=
  (readable (stream w), activeController (vars w), closeRequested (stream w),
   isShuttingDown (vars w), flushStarted (stream w), flushEnded (stream w),
   sockets (rt w)).

(** The chunk an event puts on the readable side: the decoded audio of a
    message that arrives on a socket that is open or closing, while the
    readable side is open. *)
Definition delivered (w : World) (ev : Event) : list Buffer :=
  match ev with
  | SockMessage s (Response (Audio chunk) _ _) =>
      match state_of w s, flushEnded (stream w) with
      | Some OPEN, None | Some CLOSING, None => [chunk]
      | _, _ => []
      end
  | _ => []
  end.

(** The decoded audio of the messages in a list of events. *)
Definition audio_of (evs : list Event) : list Buffer :=
  omap (λ ev, match ev with
              | SockMessage _ (Response (Audio chunk) _ _) => Some chunk
              | _ => None
              end) evs.

(** What went over the wire: the messages sent and the number of sockets
    created. *)
Definition wire (w : World) := (sent (rt w), length (sockets (rt w))).

(** The payloads of a list of tokens, on socket [s]. *)
Definition payloads (s : SocketId) (tokens : list string) : list (SocketId * JsValue) :=
  (λ token, (s, payload token)) <$> tokens.

(** The stage with socket [s] current and open, and nothing in progress. *)
Definition connected (s : SocketId) (w : World) : Prop :=
  ws_open w = Some s
  ∧ isShuttingDown (vars w) = false
  ∧ running (stream w) = None
  ∧ pending (stream w) = []
  ∧ closeRequested (stream w) = false.

(** A socket is live while it is connecting or open. *)
Definition live (st : ReadyState) : bool :=
  match st with CONNECTING | OPEN => true | _ => false end.

(** *** Where the tokens go *)








(** The token of the suspended call of [transform]. *)
Definition inflight (w : World) : list string :=
  match running (stream w) with
  | Some (AwaitPending token _) | Some (AwaitNew token _) => [token]
  | _ => []
  end.








(** Before [flush] is called the suspended call is one of [transform];
    from then on no token is queued or in flight. *)
Definition Quiet (w : World) : Prop :=
  match flushStarted (stream w) with
  | None => transform_task (running (stream w))
  | Some _ => pending (stream w) = [] ∧ inflight w = []
  end.

(** *** The conversation on a socket *)

(** The messages sent on socket [s], in the order of sending. *)
Definition on_socket (s : SocketId) (w : World) : list JsValue :=
  omap (λ m : SocketId * JsValue, if decide (m.1 = s) then Some m.2 else None)
       (sent (rt w)).

(** What the server expects on a connection: the begin message, then the
    payloads of tokens, and then the end message if the conversation has
    [ended]. *)
Definition conversation (o : ElevenLabsOptions) (tokens : list string) (ended : bool) : list JsValue :=
  bosMessage o :: (payload <$> tokens) ++ (if ended then [eosMessage] else []).

(** A socket that has not been opened: it is connecting or does not exist. *)
Definition unopened (w : World) (s : SocketId) : Prop :=
  state_of w s = Some CONNECTING ∨ state_of w s = None.

(** Nothing was sent on a socket, or a conversation that has ended only if
    [flush] has set [isShuttingDown]; nothing was sent on an unopened
    socket, and the conversation on the current socket has begun. *)
Definition Proto (o : ElevenLabsOptions) (w : World) : Prop :=
  (∀ s, on_socket s w = []
        ∨ ∃ tokens ended, on_socket s w = conversation o tokens ended
                          ∧ (ended = true → isShuttingDown (vars w) = true))
  ∧ (∀ s, unopened w s → on_socket s w = [])
  ∧ (∀ s, ws (vars w) = Some s → on_socket s w ≠ []).

(** The part of the world [Proto] depends on. *)
Definition proto_view (w : World) :=
  (sent (rt w), sockets (rt w), ws (vars w), isShuttingDown (vars w)).

(** The stage with no connection and no attempt, and nothing in progress. *)
Definition disconnected (w : World) : Prop :=
  ws (vars w) = None
  ∧ connectionPromise (vars w) = None
  ∧ isShuttingDown (vars w) = false
  ∧ running (stream w) = None
  ∧ pending (stream w) = []
  ∧ closeRequested (stream w) = false.

(** The current socket goes down: it closes, or it reports an error. *)
Definition drops (s : SocketId) (ev : Event) : Prop :=
  (∃ code reason, ev = SockClose s code reason) ∨ (∃ err, ev = SockError s err).

End ElevenLabs.

(** ** The playground agent *)

(** [playground/src/agent.ts]: which speech providers the environment
    allows, the two provider factories, and the hang-up hand-over between
    the agent's [onHangUp] callback and the [onAudioComplete] callback of
    its text-to-speech provider.  The provider classes and
    [createVoiceAgent] come from other packages: a provider is modelled by
    the options object it is constructed with, and the library by the
    calls it makes to the callbacks it was given. *)
Module Agent.

(** [process.env]: the variables that are set. *)
Definition Env := gmap string string.

(** JavaScript truthiness of a string that may be [undefined] (or [null]). *)
Definition truthy (v : option string) : bool :=
  match v with
  | None | Some EmptyString => false
  | Some _ => true
  end.

(** How a call ends. *)
Inductive Outcome (A : Type) :=
| Returned (a : A)
| Threw (err : string).
Arguments Returned {A} a.
Arguments Threw {A} err.

(** The options a speech-to-text provider is constructed with.  [C] is the
    type of the [onSpeechStart] callback. *)
Inductive STT (C : Type) :=
| AssemblyAISpeechToText (apiKey : option string) (sampleRate : Z) (onSpeechStart : option C)
| OpenAISpeechToText (apiKey : option string) (onSpeechStart : option C).
Arguments AssemblyAISpeechToText {C} apiKey sampleRate onSpeechStart.
Arguments OpenAISpeechToText {C} apiKey onSpeechStart.

(** The options a text-to-speech provider is constructed with.  [D] is the
    type of the [onAudioComplete] callback. *)
Inductive TTS (D : Type) :=
| ElevenLabsTextToSpeech (apiKey voiceId : option string) (onAudioComplete : option D)
| HumeTextToSpeech (apiKey : option string) (onAudioComplete : option D)
| OpenAITextToSpeech (apiKey : option string) (onAudioComplete : option D).
Arguments ElevenLabsTextToSpeech {D} apiKey voiceId onAudioComplete.
Arguments HumeTextToSpeech {D} apiKey onAudioComplete.
Arguments OpenAITextToSpeech {D} apiKey onAudioComplete.

(** The provider id is a string at run time; the [default] branch of the
    [switch] is reached by any other value. *)
Definition createSTTProvider {C} (env : Env) (provider : string)
    (onSpeechStart : option C) : Outcome (STT C) :=
  if String.eqb provider "assemblyai"
  then Returned (AssemblyAISpeechToText (env !! "ASSEMBLYAI_API_KEY") 16000 onSpeechStart)
  else if String.eqb provider "openai"
  then Returned (OpenAISpeechToText (env !! "OPENAI_API_KEY") onSpeechStart)
  else Threw ("Unknown STT provider: " +:+ provider).

Definition createTTSProvider {D} (env : Env) (provider : string)
    (onAudioComplete : option D) : Outcome (TTS D) :=
  if String.eqb provider "elevenlabs"
  then Returned (ElevenLabsTextToSpeech (env !! "ELEVENLABS_API_KEY")
                   (env !! "ELEVENLABS_VOICE_ID") onAudioComplete)
  else if String.eqb provider "hume"
  then Returned (HumeTextToSpeech (env !! "HUME_API_KEY") onAudioComplete)
  else if String.eqb provider "openai"
  then Returned (OpenAITextToSpeech (env !! "OPENAI_API_KEY") onAudioComplete)
  else Threw ("Unknown TTS provider: " +:+ provider).

Record ProviderInfo := {
  id : string;
  name : string;
  available : bool
}.

Record AvailableProviders := {
  stt : list ProviderInfo;
  tts : list ProviderInfo
}.

Definition getAvailableProviders (env : Env) : AvailableProviders :=
  {| stt := [ {| id := "assemblyai"; name := "AssemblyAI";
                 available := truthy (env !! "ASSEMBLYAI_API_KEY") |};
              {| id := "openai"; name := "OpenAI Whisper";
                 available := truthy (env !! "OPENAI_API_KEY") |} ];
     tts := [ {| id := "elevenlabs"; name := "ElevenLabs";
                 available := truthy (env !! "ELEVENLABS_API_KEY")
                              && truthy (env !! "ELEVENLABS_VOICE_ID") |};
              {| id := "hume"; name := "Hume AI";
                 available := truthy (env !! "HUME_API_KEY") |};
              {| id := "openai"; name := "OpenAI TTS";
                 available := truthy (env !! "OPENAI_API_KEY") |} ] |}.

(** The credentials in a provider's options are all present and not empty. *)
Definition stt_credentials {C} (p : STT C) : bool :=
  match p with
  | AssemblyAISpeechToText k _ _ | OpenAISpeechToText k _ => truthy k
  end.

Definition tts_credentials {D} (p : TTS D) : bool :=
  match p with
  | ElevenLabsTextToSpeech k v _ => truthy k && truthy v
  | HumeTextToSpeech k _ | OpenAITextToSpeech k _ => truthy k
  end.

Definition stt_callback {C} (p : STT C) : option C :=
  match p with
  | AssemblyAISpeechToText _ _ cb | OpenAISpeechToText _ cb => cb
  end.

Definition tts_callback {D} (p : TTS D) : option D :=
  match p with
  | ElevenLabsTextToSpeech _ _ cb | HumeTextToSpeech _ cb | OpenAITextToSpeech _ cb => cb
  end.

(** *** createSandwichShopVoiceAgent *)

Record ProviderConfig := {
  sttProvider : string;
  ttsProvider : string
}.

(** [CreateVoiceAgentParams].  What a call of [closeConnection] does is up
    to the caller: it returns, or it throws. *)
Record CreateVoiceAgentParams (C : Type) := {
  closeConnection : option (string → Outcome unit);
  onSpeechStart : option C;
  providers : option ProviderConfig
}.
Arguments closeConnection {C} _.
Arguments onSpeechStart {C} _.
Arguments providers {C} _.

(** An agent handed to [createVoiceAgent]: the parameters its two closures
    captured and the providers built for it.  The [onAudioComplete] closure
    is always given, so the text-to-speech options carry [Some tt]. *)
Record Agent (C : Type) := {
  params : CreateVoiceAgentParams C;
  agent_stt : STT C;
  agent_tts : TTS unit
}.
Arguments params {C} _.
Arguments agent_stt {C} _.
Arguments agent_tts {C} _.

(** The module: its variable [pendingHangUp], shared by every agent the
    module creates, the agents created so far, and what the outside sees,
    the calls of [closeConnection] (agent and reason), the console, and the
    errors thrown into the library out of a callback. *)
Record World (C : Type) := {
  pendingHangUp : option string;
  agents : list (Agent C);
  closed : list (nat * string);
  console : list string;
  thrown : list string
}.
Arguments pendingHangUp {C} _.
Arguments agents {C} _.
Arguments closed {C} _.
Arguments console {C} _.
Arguments thrown {C} _.

Definition loaded {C} : World C :=
  {| pendingHangUp := None; agents := []; closed := []; console := [];
     thrown := [] |}.

Definition console_log {C} (line : string) (w : World C) : World C :=
  {| pendingHangUp := pendingHangUp w; agents := agents w; closed := closed w;
     console := console w ++ [line]; thrown := thrown w |}.

Definition defaultProviders : ProviderConfig :=
  {| sttProvider := "assemblyai"; ttsProvider := "elevenlabs" |}.

Definition createSandwichShopVoiceAgent {C} (env : Env)
    (p : CreateVoiceAgentParams C) (w : World C) : World C * Outcome nat :=
  let pr := default defaultProviders (providers p) in
  let w1 := console_log ("Creating voice agent with STT: " +:+ sttProvider pr
                         +:+ ", TTS: " +:+ ttsProvider pr) w in
  match createSTTProvider env (sttProvider pr) (onSpeechStart p) with
  | Threw err => (w1, Threw err)
  | Returned s =>
      match createTTSProvider env (ttsProvider pr) (Some tt) with
      | Threw err => (w1, Threw err)
      | Returned t =>
          ({| pendingHangUp := pendingHangUp w1;
              agents := agents w1 ++ [ {| params := p; agent_stt := s; agent_tts := t |} ];
              closed := closed w1; console := console w1; thrown := thrown w1 |},
           Returned (length (agents w1)))
      end
  end.

(** The [onHangUp] callback of any agent. *)
Definition onHangUp {C} (reason : string) (w : World C) : World C :=
  let w1 := console_log ("[VoiceAgent] Hang up requested: " +:+ reason) w in
  {| pendingHangUp := Some reason; agents := agents w1; closed := closed w1;
     console := console w1; thrown := thrown w1 |}.

(** The [onAudioComplete] closure of agent [i]. *)
Definition onAudioComplete {C} (i : nat) (a : Agent C) (w : World C) : World C :=
  match pendingHangUp w, closeConnection (params a) with
  | Some reason, Some close =>
      if truthy (Some reason)
      then
        let called := closed w ++ [(i, reason)] in
        match close reason with
        | Returned _ =>
            {| pendingHangUp := None; agents := agents w; closed := called;
               console := console w; thrown := thrown w |}
        | Threw err =>
            {| pendingHangUp := pendingHangUp w; agents := agents w;
               closed := called; console := console w;
               thrown := thrown w ++ [err] |}
        end
      else w
  | _, _ => w
  end.

(** What happens to the module: the application creates an agent, or the
    library calls a callback of agent [i]. *)
Inductive Event (C : Type) :=
| Create (p : CreateVoiceAgentParams C)
| HangUp (i : nat) (reason : string)
| AudioComplete (i : nat).
Arguments Create {C} p.
Arguments HangUp {C} i reason.
Arguments AudioComplete {C} i.

Definition step {C} (env : Env) (w : World C) (ev : Event C) : World C :=
  match ev with
  | Create p => fst (createSandwichShopVoiceAgent env p w)
  | HangUp i reason =>
      match agents w !! i with
      | Some _ => onHangUp reason w
      | None => w
      end
  | AudioComplete i =>
      match agents w !! i with
      | Some a => onAudioComplete i a w
      | None => w
      end
  end.

Definition run {C} (env : Env) (w : World C) (evs : list (Event C)) : World C :=
  foldl (step env) w evs.

(** The reasons of the hang-up requests in a list of events, and the
    reasons [closeConnection] was called with. *)
Definition requested {C} (evs : list (Event C)) : list string :=
  omap (λ ev, match ev with HangUp _ reason => Some reason | _ => None end) evs.

Definition closed_with {C} (w : World C) : list string := snd <$> closed w.

(** Every [closeConnection] given to the module returns. *)
Definition closes_return {C} (evs : list (Event C)) : Prop :=
  Forall (λ ev, match ev with
                | Create p => ∀ close reason,
                    closeConnection p = Some close → close reason = Returned tt
                | _ => True
                end) evs.

(** Two callers: one passes a [closeConnection] that returns and leaves the
    providers to their defaults, the other passes none and picks its
    providers. *)
Definition caller_with_close : CreateVoiceAgentParams unit :=
  {| closeConnection := Some (λ _, Returned tt); onSpeechStart := None;
     providers := None |}.


(** An agent whose [closeConnection], if it has one, returns. *)
Definition close_returns {C} (a : Agent C) : Prop :=
  ∀ close reason, closeConnection (params a) = Some close → close reason = Returned tt.

(** The requests served and the one pending are, in this order, among the
    requests made, and no served reason is the empty string. *)
Definition served_in_order {C} (w : World C) (evs : list (Event C)) : Prop :=
  (closed_with w ++ option_list (pendingHangUp w)) `sublist_of` requested evs
  ∧ Forall (λ reason, reason ≠ EmptyString) (closed_with w).

End Agent.

Module FillerFacts.
Import Filler.

Lemma fillers_snoc_filler q p : fillers (q ++ [FillerPhrase p]) = (fillers q + 1)%Z.
Proof. unfold fillers. rewrite filter_app, length_app. simpl. lia. Qed.

Lemma fillers_snoc_token q t : fillers (q ++ [RealToken t]) = fillers q.
Proof. unfold fillers. rewrite filter_app, length_app. simpl. lia. Qed.

Section Stage.
Context (c : Fields).

(** [clearBoth] touches only the timer table and the two handles. *)
Lemma clearBoth_frame w :
  queue (clearBoth w) = queue w
  ∧ uncaught (clearBoth w) = uncaught w
  ∧ fillersEmittedThisTurn (self (clearBoth w)) = fillersEmittedThisTurn (self w)
  ∧ hasReceivedResponse (self (clearBoth w)) = hasReceivedResponse (self w)
  ∧ controller (self (clearBoth w)) = controller (self w).
Proof.
  unfold clearBoth.
  destruct (timeoutId (self w)) as [h|]; simpl;
    destruct (intervalId (self w)) as [h'|]; simpl; auto.
Qed.

Lemma clearBoth_handles w :
  timeoutId (self (clearBoth w)) = None ∧ intervalId (self (clearBoth w)) = None.
Proof.
  unfold clearBoth.
  destruct (timeoutId (self w)) as [h|] eqn:Ht; simpl;
    destruct (intervalId (self w)) as [h'|] eqn:Hi; simpl; auto.
Qed.

Lemma clearBoth_timers w :
  timers (clearBoth w) =
  from_option delete id (intervalId (self w))
    (from_option delete id (timeoutId (self w)) (timers w)).
Proof.
  unfold clearBoth.
  destruct (timeoutId (self w)) as [h|]; simpl;
    destruct (intervalId (self w)) as [h'|]; simpl; auto.
Qed.

Lemma clearBoth_disarms w : timers_tracked w → timers (clearBoth w) = ∅.
Proof.
  intros Hw. rewrite clearBoth_timers.
  destruct Hw as [E | [(h & d & Hid & E) | (h & d & Hid & E)]]; rewrite E.
  - destruct (timeoutId (self w)), (intervalId (self w)); simpl;
      rewrite ?delete_empty; done.
  - rewrite Hid. simpl. rewrite delete_singleton_eq.
    destruct (intervalId (self w)); simpl; rewrite ?delete_empty; done.
  - rewrite Hid. simpl.
    destruct (timeoutId (self w)) as [h'|]; simpl.
    + destruct (decide (h' = h)) as [->|Hne].
      * rewrite delete_singleton_eq, delete_empty. done.
      * rewrite delete_singleton_ne by done. apply delete_singleton_eq.
    + apply delete_singleton_eq.
Qed.

Lemma clearBoth_keeps_empty w : timers w = ∅ → timers (clearBoth w) = ∅.
Proof. intros E. apply clearBoth_disarms. left. done. Qed.

(** [emitFiller] either does nothing, or enqueues one phrase and counts it. *)
Lemma emitFiller_spec rnd w :
  let '(w', _) := emitFiller c rnd w in
  (w' = w
   ∨ (controller (self w) = true
      ∧ hasReceivedResponse (self w) = false
      ∧ (fillersEmittedThisTurn (self w) < maxFillersPerTurn c)%Z
      ∧ queue w' = queue w ++ [FillerPhrase (fillerPhrases c !! rnd)]
      ∧ fillersEmittedThisTurn (self w') = (fillersEmittedThisTurn (self w) + 1)%Z))
  ∧ timers w' = timers w
  ∧ timeoutId (self w') = timeoutId (self w)
  ∧ intervalId (self w') = intervalId (self w)
  ∧ hasReceivedResponse (self w') = hasReceivedResponse (self w)
  ∧ controller (self w') = controller (self w).
Proof.
  unfold emitFiller.
  destruct (controller (self w)) eqn:Hc; simpl; [|by auto 10].
  destruct (hasReceivedResponse (self w)) eqn:Hr; simpl; [by auto 10|].
  destruct (Z.leb_spec (maxFillersPerTurn c) (fillersEmittedThisTurn (self w)));
    simpl; [by auto 10|].
  destruct (onFillerEmitted c) as [cb|]; [destruct (cb _)|]; simpl;
    (split; [right|]; auto 10).
Qed.


Lemma emits_of_emitFiller w w' rnd :
  (w' = w
   ∨ (controller (self w) = true
      ∧ hasReceivedResponse (self w) = false
      ∧ (fillersEmittedThisTurn (self w) < maxFillersPerTurn c)%Z
      ∧ queue w' = queue w ++ [FillerPhrase (fillerPhrases c !! rnd)]
      ∧ fillersEmittedThisTurn (self w') = (fillersEmittedThisTurn (self w) + 1)%Z)) →
  silent w w' ∨ emits_one c w w'.
Proof.
  intros [->|(_ & ? & ? & ? & ?)]; [left|right]; unfold silent, emits_one; eauto 10.
Qed.

Lemma timeoutCallback_spec rnd w :
  let w' := timeoutCallback c rnd w in
  (silent w w' ∨ emits_one c w w')
  ∧ hasReceivedResponse (self w') = hasReceivedResponse (self w)
  ∧ (timers w' = timers w
     ∨ (∃ h d, timers w' = <[h := (Interval, d)]> (timers w)
               ∧ intervalId (self w') = Some h)).
Proof.
  unfold timeoutCallback.
  pose proof (emitFiller_spec rnd w) as H.
  destruct (emitFiller c rnd w) as [w1 [err|]];
    destruct H as (Hq & Ht & Hti & Hii & Hr & Hc).
  - simpl. apply emits_of_emitFiller in Hq. auto.
  - apply emits_of_emitFiller in Hq.
    destruct (1 <? maxFillersPerTurn c)%Z; simpl; [|by auto].
    split; [done|]. split; [done|].
    right. exists (nextHandle w1), (fillerIntervalMs c). by rewrite Ht.
Qed.

Lemma intervalCallback_spec rnd w :
  let w' := intervalCallback c rnd w in
  (silent w w' ∨ emits_one c w w')
  ∧ hasReceivedResponse (self w') = hasReceivedResponse (self w)
  ∧ ((timers w' = timers w ∧ intervalId (self w') = intervalId (self w))
     ∨ (∃ h, intervalId (self w) = Some h ∧ timers w' = delete h (timers w))).
Proof.
  unfold intervalCallback.
  destruct (_ && _).
  - pose proof (emitFiller_spec rnd w) as H.
    destruct (emitFiller c rnd w) as [w1 [err|]];
      destruct H as (Hq & Ht & Hti & Hii & Hr & Hc);
      apply emits_of_emitFiller in Hq; simpl; auto 10.
  - destruct (intervalId (self w)) as [h|] eqn:Hi; simpl.
    + split; [by left|]. split; [done|]. right. by exists h.
    + split; [by left|]. auto.
Qed.

(** The effect of one event of the current turn on the output: the chunk of
    a [Transform], one filler from a timer callback, or nothing. *)
Lemma step_output w ev :
  is_notify ev = false →
  let w' := step c w ev in
  (queue w' = queue w ++ tokens_of [ev]
   ∧ fillersEmittedThisTurn (self w') = fillersEmittedThisTurn (self w))
  ∨ (tokens_of [ev] = [] ∧ emits_one c w w').
Proof.
  intros Hn. destruct ev as [|chunk| | |h rnd|h rnd]; simpl in *; try done.
  - left. unfold transform. simpl.
    destruct (clearBoth_frame w) as (-> & _ & -> & _). done.
  - left. unfold flush. destruct (clearBoth_frame w) as (-> & _ & -> & _).
    by rewrite app_nil_r.
  - left. unfold cancelPendingFiller. simpl.
    destruct (clearBoth_frame w) as (-> & _ & -> & _). by rewrite app_nil_r.
  - destruct (timers w !! h) as [[[] d]|]; try (left; by rewrite app_nil_r).
    destruct (timeoutCallback_spec rnd (clearTimer h w)) as ([[Hq Hc]|He] & _).
    + left. rewrite Hq, Hc. by rewrite app_nil_r.
    + right. done.
  - destruct (timers w !! h) as [[[] d]|]; try (left; by rewrite app_nil_r).
    destruct (intervalCallback_spec rnd w) as ([[Hq Hc]|He] & _).
    + left. rewrite Hq, Hc. by rewrite app_nil_r.
    + right. done.
Qed.

Lemma step_flag w ev :
  is_notify ev = false →
  hasReceivedResponse (self w) = true →
  hasReceivedResponse (self (step c w ev)) = true.
Proof.
  intros Hn Hr. destruct ev as [|chunk| | |h rnd|h rnd]; simpl in *; try done.
  - unfold flush. by destruct (clearBoth_frame w) as (_ & _ & _ & -> & _).
  - unfold cancelPendingFiller. simpl.
    by destruct (clearBoth_frame w) as (_ & _ & _ & -> & _).
  - destruct (timers w !! h) as [[[] d]|]; try done.
    by destruct (timeoutCallback_spec rnd (clearTimer h w)) as (_ & -> & _).
  - destruct (timers w !! h) as [[[] d]|]; try done.
    by destruct (intervalCallback_spec rnd w) as (_ & -> & _).
Qed.

Lemma tokens_of_app evs evs' : tokens_of (evs ++ evs') = tokens_of evs ++ tokens_of evs'.
Proof. unfold tokens_of. apply omap_app. Qed.

Lemma filler_run_snoc w evs ev : run c w (evs ++ [ev]) = step c (run c w evs) ev.
Proof. unfold run. by rewrite foldl_app. Qed.

(** Once the response flag is set, the rest of the turn enqueues exactly
    the chunks handed to [transform]. *)
Lemma run_after_response w evs :
  same_turn evs →
  hasReceivedResponse (self w) = true →
  hasReceivedResponse (self (run c w evs)) = true
  ∧ queue (run c w evs) = queue w ++ tokens_of evs.
Proof.
  induction evs as [|ev evs IH] using rev_ind; intros Hturn Hr.
  - simpl. by rewrite app_nil_r.
  - apply Forall_app in Hturn as [Hevs Hev]. rewrite Forall_singleton in Hev.
    destruct (IH Hevs Hr) as [Hr' Hq]. rewrite filler_run_snoc. split.
    + by apply step_flag.
    + rewrite tokens_of_app, app_assoc, <- Hq.
      destruct (step_output (run c w evs) ev Hev) as [[Hs _]|[_ (Hf & _)]].
      * exact Hs.
      * congruence.
Qed.


(** *** Timer discipline: at most one timer is armed, and [self] holds its
    handle *)

Lemma notify_timers w :
  enabled c = true →
  timers_tracked w →
  ∃ h, timeoutId (self (notifyProcessingStarted c w)) = Some h
       ∧ timers (notifyProcessingStarted c w) = {[ h := (Timeout, thresholdMs c) ]}.
Proof.
  intros He Hw. unfold notifyProcessingStarted. rewrite He. simpl.
  exists (nextHandle w).
  assert (from_option delete id (intervalId (self w))
            (from_option delete id (timeoutId (self w)) (timers w)) = ∅) as E.
  { rewrite <- clearBoth_timers. by apply clearBoth_disarms. }
  destruct (timeoutId (self w)) as [h|]; simpl in *;
    destruct (intervalId (self w)) as [h'|]; simpl in *;
    rewrite E, insert_empty; done.
Qed.

Lemma step_tracked w ev : timers_tracked w → timers_tracked (step c w ev).
Proof.
  intros Hw. destruct ev as [|chunk| | |h rnd|h rnd]; simpl.
  - destruct (enabled c) eqn:He.
    + destruct (notify_timers w He Hw) as (h & Hid & E). right. left. eauto.
    + unfold notifyProcessingStarted. by rewrite He.
  - left. unfold transform. simpl. by apply clearBoth_disarms.
  - left. by apply clearBoth_disarms.
  - left. unfold cancelPendingFiller. simpl. by apply clearBoth_disarms.
  - destruct (timers w !! h) as [[[] d]|] eqn:Hl; try done.
    assert (timers (clearTimer h w) = ∅) as E.
    { simpl. destruct Hw as [E | [(h0 & d0 & _ & E) | (h0 & d0 & _ & E)]];
        rewrite E in *.
      - by rewrite lookup_empty in Hl.
      - apply lookup_singleton_Some in Hl as [-> _]. apply delete_singleton_eq.
      - apply lookup_singleton_Some in Hl as [_ ?]. done. }
    destruct (timeoutCallback_spec rnd (clearTimer h w)) as (_ & _ & [Ht|(h' & d' & Ht & Hi)]).
    + left. by rewrite Ht.
    + right. right. exists h', d'. split; [done|]. by rewrite Ht, E, insert_empty.
  - destruct (timers w !! h) as [[[] d]|] eqn:Hl; try done.
    destruct Hw as [E | [(h0 & d0 & Hid & E) | (h0 & d0 & Hid & E)]].
    + rewrite E in Hl. by rewrite lookup_empty in Hl.
    + rewrite E in Hl. apply lookup_singleton_Some in Hl as [_ ?]. done.
    + destruct (intervalCallback_spec rnd w) as (_ & _ & [[Ht Hi]|(h' & Hi & Ht)]).
      * right. right. exists h0, d0. by rewrite Ht, Hi.
      * left. rewrite Ht, E. rewrite Hid in Hi. injection Hi as ->.
        apply delete_singleton_eq.
Qed.

Lemma constructed_tracked : timers_tracked constructed.
Proof. by left. Qed.

Lemma run_tracked w evs : timers_tracked w → timers_tracked (run c w evs).
Proof.
  induction evs as [|ev evs IH] using rev_ind; intros Hw; [done|].
  rewrite filler_run_snoc. by apply step_tracked, IH.
Qed.

(** With no timer armed, the rest of the turn arms none and enqueues exactly
    the chunks handed to [transform]. *)
Lemma step_quiet w ev :
  is_notify ev = false →
  timers w = ∅ →
  timers (step c w ev) = ∅
  ∧ queue (step c w ev) = queue w ++ tokens_of [ev]
  ∧ fillersEmittedThisTurn (self (step c w ev)) = fillersEmittedThisTurn (self w).
Proof.
  intros Hn E. destruct ev as [|chunk| | |h rnd|h rnd]; simpl in *; try done.
  - unfold transform. simpl. split; [by apply clearBoth_keeps_empty|].
    by destruct (clearBoth_frame w) as (-> & _ & -> & _).
  - unfold flush. split; [by apply clearBoth_keeps_empty|].
    destruct (clearBoth_frame w) as (-> & _ & -> & _). by rewrite app_nil_r.
  - unfold cancelPendingFiller. simpl. split; [by apply clearBoth_keeps_empty|].
    destruct (clearBoth_frame w) as (-> & _ & -> & _). by rewrite app_nil_r.
  - rewrite E, lookup_empty, app_nil_r. done.
  - rewrite E, lookup_empty, app_nil_r. done.
Qed.

Lemma run_quiet w evs :
  same_turn evs →
  timers w = ∅ →
  timers (run c w evs) = ∅
  ∧ queue (run c w evs) = queue w ++ tokens_of evs
  ∧ fillersEmittedThisTurn (self (run c w evs)) = fillersEmittedThisTurn (self w).
Proof.
  induction evs as [|ev evs IH] using rev_ind; intros Hturn E.
  - simpl. by rewrite app_nil_r.
  - apply Forall_app in Hturn as [Hevs Hev]. rewrite Forall_singleton in Hev.
    destruct (IH Hevs E) as (E' & Hq & Hc). rewrite filler_run_snoc.
    destruct (step_quiet (run c w evs) ev Hev E') as (-> & -> & ->).
    by rewrite tokens_of_app, app_assoc, Hq, Hc.
Qed.

(** *** The per-turn counter *)

Lemma step_counter_le w ev :
  (0 ≤ maxFillersPerTurn c)%Z →
  (fillersEmittedThisTurn (self w) ≤ maxFillersPerTurn c)%Z →
  (fillersEmittedThisTurn (self (step c w ev)) ≤ maxFillersPerTurn c)%Z.
Proof.
  intros Hmax Hle. destruct (is_notify ev) eqn:Hn.
  - destruct ev; try done. simpl. unfold notifyProcessingStarted.
    destruct (enabled c); simpl; [|done].
    destruct (timeoutId (self w)); simpl;
      destruct (intervalId (self w)); simpl; lia.
  - destruct (step_output w ev Hn) as [[_ ->]|[_ (_ & ? & _ & ->)]]; lia.
Qed.

Lemma step_counter_tracks w ev :
  is_notify ev = false →
  (fillers (queue (step c w ev)) - fillersEmittedThisTurn (self (step c w ev))
   = fillers (queue w) - fillersEmittedThisTurn (self w))%Z.
Proof.
  intros Hn.
  destruct (step_output w ev Hn) as [[-> ->]|[_ (_ & _ & [p ->] & ->)]].
  - destruct ev; simpl; rewrite ?app_nil_r; try done.
    by rewrite fillers_snoc_token.
  - rewrite fillers_snoc_filler. lia.
Qed.

Lemma run_counter w evs :
  (0 ≤ maxFillersPerTurn c)%Z →
  same_turn evs →
  (fillersEmittedThisTurn (self w) ≤ maxFillersPerTurn c)%Z →
  (fillersEmittedThisTurn (self (run c w evs)) ≤ maxFillersPerTurn c)%Z
  ∧ (fillers (queue (run c w evs)) - fillersEmittedThisTurn (self (run c w evs))
     = fillers (queue w) - fillersEmittedThisTurn (self w))%Z.
Proof.
  intros Hmax.
  induction evs as [|ev evs IH] using rev_ind; intros Hturn Hle; [done|].
  apply Forall_app in Hturn as [Hevs Hev]. rewrite Forall_singleton in Hev.
  destruct (IH Hevs Hle) as [Hle' Heq]. rewrite filler_run_snoc. split.
  - by apply step_counter_le.
  - by rewrite step_counter_tracks.
Qed.

(** A disabled stage never arms a timer. *)
Lemma run_disabled evs :
  enabled c = false →
  timers (run c constructed evs) = ∅
  ∧ fillers (queue (run c constructed evs)) = 0%Z
  ∧ fillersEmittedThisTurn (self (run c constructed evs)) = 0%Z.
Proof.
  intros He. induction evs as [|ev evs IH] using rev_ind; [done|].
  destruct IH as (E & Hq & Hc). rewrite filler_run_snoc.
  destruct (is_notify ev) eqn:Hn.
  - destruct ev; try done. simpl. unfold notifyProcessingStarted. by rewrite He.
  - destruct (step_quiet (run c constructed evs) ev Hn E) as (-> & -> & ->).
    split; [done|]. split; [|done].
    destruct ev; simpl; rewrite ?app_nil_r; try done.
    by rewrite fillers_snoc_token.
Qed.

End Stage.


(** *** The stage at work *)

(** No token arrives: the threshold timer enqueues one phrase, and with one
    filler per turn no interval is armed. *)
Example silence_gets_one_filler :
  let w := run playground constructed
             [NotifyProcessingStarted; TimeoutFires 1%positive 2;
              TimeoutFires 1%positive 0; IntervalFires 2%positive 1] in
  queue w = [FillerPhrase (Some "Ah, let me check...")]
  ∧ timers w = ∅
  ∧ fillersEmittedThisTurn (self w) = 1%Z.
Proof. by vm_compute. Qed.

(** The token arrives before the threshold timer runs: the timer is cleared
    and the output is the token alone. *)
Example early_token_gets_no_filler :
  let w := run playground constructed
             [NotifyProcessingStarted; Transform "Sure";
              TimeoutFires 1%positive 0] in
  queue w = [RealToken "Sure"]
  ∧ timers w = ∅
  ∧ hasReceivedResponse (self w) = true.
Proof. by vm_compute. Qed.

(** Two fillers per turn: the threshold callback arms the interval, the
    interval emits the second phrase, and disarms itself on its next run. *)
Example interval_repeats_up_to_the_maximum :
  let w := run (two_fillers None) constructed
             [NotifyProcessingStarted; TimeoutFires 1%positive 0;
              IntervalFires 2%positive 1; IntervalFires 2%positive 3] in
  queue w = [FillerPhrase (Some "Let me see here...");
             FillerPhrase (Some "Hmm, one moment...")]
  ∧ timers w = ∅
  ∧ intervalId (self w) = None.
Proof. by vm_compute. Qed.

(** *** The claims about ThinkingFillerTransform *)

(** C3.  Once [transform] has run for the first real token of a turn the
    "response received" flag is set, and from then on the turn enqueues
    nothing but the chunks handed to [transform]: no filler phrase, whatever
    timer events, cancellations and flushes follow.  The flag is re-checked
    by the callbacks themselves: run in any state in which the flag is set
    (as a callback scheduled before the token would be), [emitFiller] and
    both timer callbacks enqueue nothing. *)
Theorem no_filler_after_first_token
    (c : Fields) (w : World) (chunk : string) (rest : list Event) :
  same_turn rest →
  hasReceivedResponse (self (transform chunk w)) = true
  ∧ queue (run c (transform chunk w) rest)
    = queue w ++ RealToken chunk :: tokens_of rest
  ∧ (∀ rnd w', hasReceivedResponse (self w') = true →
       emitFiller c rnd w' = (w', None)
       ∧ queue (timeoutCallback c rnd w') = queue w'
       ∧ queue (intervalCallback c rnd w') = queue w').
Proof.
  intros Hturn. split; [done|]. split.
  - destruct (run_after_response c (transform chunk w) rest Hturn eq_refl) as [_ ->].
    unfold transform. simpl. destruct (clearBoth_frame w) as (-> & _).
    by rewrite <- app_assoc.
  - intros rnd w' Hr.
    assert (emitFiller c rnd w' = (w', None)) as He.
    { unfold emitFiller. rewrite Hr. by rewrite orb_true_r. }
    split; [done|]. split.
    + unfold timeoutCallback. rewrite He.
      by destruct (1 <? maxFillersPerTurn c)%Z.
    + unfold intervalCallback. rewrite Hr, andb_false_r.
      by destruct (intervalId (self w')).
Qed.

Lemma no_filler_after_first_token_witness :
  let c := two_fillers None in
  let w := run c constructed [NotifyProcessingStarted] in
  let rest := [TimeoutFires 1%positive 0; IntervalFires 2%positive 1; CancelPendingFiller;
               Transform "there"; Flush] in
  same_turn rest
  ∧ hasReceivedResponse (self (transform "Hi" w)) = true
  ∧ queue (run c (transform "Hi" w) rest)
    = queue w ++ RealToken "Hi" :: tokens_of rest
  ∧ (∀ rnd w', hasReceivedResponse (self w') = true →
       emitFiller c rnd w' = (w', None)
       ∧ queue (timeoutCallback c rnd w') = queue w'
       ∧ queue (intervalCallback c rnd w') = queue w').
Proof.
  assert (same_turn [TimeoutFires 1%positive 0; IntervalFires 2%positive 1; CancelPendingFiller;
                     Transform "there"; Flush]) as Hturn
    by (repeat constructor).
  split; [exact Hturn|].
  exact (no_filler_after_first_token (two_fillers None)
           (run (two_fillers None) constructed [NotifyProcessingStarted])
           "Hi" _ Hturn).
Defined.

(** C5.  In every turn, under every interleaving of timer firings, tokens,
    cancellations and flushes, the number of filler phrases enqueued since
    the turn started equals the per-turn counter and never exceeds
    [maxFillersPerTurn].  The turn starts at a [notifyProcessingStarted],
    where the counter is zero. *)
Theorem fillers_per_turn_bounded (c : Fields) (earlier turn : list Event) :
  (0 ≤ maxFillersPerTurn c)%Z →
  same_turn turn →
  let start := run c constructed (earlier ++ [NotifyProcessingStarted]) in
  let w := run c start turn in
  fillersEmittedThisTurn (self start) = 0%Z
  ∧ (fillers (queue w) - fillers (queue start))%Z = fillersEmittedThisTurn (self w)
  ∧ (fillersEmittedThisTurn (self w) ≤ maxFillersPerTurn c)%Z
  ∧ (fillers (queue w) - fillers (queue start) ≤ maxFillersPerTurn c)%Z.
Proof.
  intros Hmax Hturn start w.
  assert (fillersEmittedThisTurn (self start) = 0%Z) as H0.
  { destruct (enabled c) eqn:He.
    - subst start. rewrite filler_run_snoc. simpl. unfold notifyProcessingStarted.
      rewrite He. simpl.
      destruct (timeoutId (self (run c constructed earlier))); simpl;
        by destruct (intervalId (self (run c constructed earlier))).
    - by destruct (run_disabled c (earlier ++ [NotifyProcessingStarted]) He)
        as (_ & _ & ?). }
  destruct (run_counter c start turn Hmax Hturn) as [Hle Heq]; [lia|].
  fold w in Hle, Heq. repeat split; try done; lia.
Qed.

Lemma fillers_per_turn_bounded_witness :
  let c := two_fillers None in
  let earlier := [NotifyProcessingStarted; TimeoutFires 1%positive 0; Transform "Hello"] in
  let turn := [TimeoutFires 3%positive 3; IntervalFires 4%positive 1;
               IntervalFires 4%positive 0; IntervalFires 4%positive 2] in
  let start := run c constructed (earlier ++ [NotifyProcessingStarted]) in
  let w := run c start turn in
  (0 ≤ maxFillersPerTurn c)%Z
  ∧ same_turn turn
  ∧ fillersEmittedThisTurn (self start) = 0%Z
  ∧ (fillers (queue w) - fillers (queue start))%Z = fillersEmittedThisTurn (self w)
  ∧ (fillersEmittedThisTurn (self w) ≤ maxFillersPerTurn c)%Z
  ∧ (fillers (queue w) - fillers (queue start) ≤ maxFillersPerTurn c)%Z.
Proof.
  assert (0 ≤ maxFillersPerTurn (two_fillers None))%Z as Hmax by (simpl; lia).
  assert (same_turn [TimeoutFires 3%positive 3; IntervalFires 4%positive 1;
                     IntervalFires 4%positive 0; IntervalFires 4%positive 2])
    as Hturn by (repeat constructor).
  split; [exact Hmax|]. split; [exact Hturn|].
  exact (fillers_per_turn_bounded (two_fillers None)
           [NotifyProcessingStarted; TimeoutFires 1%positive 0; Transform "Hello"]
           _ Hmax Hturn).
Defined.

(** C4, the claim as stated fails.  With two fillers per turn and an
    observer that throws, the threshold callback enqueues its phrase and
    then the error leaves the callback: it reaches the event loop, nothing
    about it is logged, and the repeat interval is never armed, so the
    second filler of the turn is lost.  With an observer that returns, the
    same events give two fillers. *)
Lemma throwing_observer_escapes :
  let failing := two_fillers (Some (λ _, Throws "observer failed")) in
  let returning := two_fillers (Some (λ _, Returns)) in
  let events := [NotifyProcessingStarted; TimeoutFires 1%positive 0; IntervalFires 2%positive 1] in
  uncaught (run failing constructed events) = ["observer failed"]
  ∧ console (run failing constructed events)
    = ["[ThinkingFiller] Emitting filler: " +:+ quoted "Let me see here..."]
  ∧ timers (run failing constructed events) = ∅
  ∧ queue (run failing constructed events)
    = [FillerPhrase (Some "Let me see here...")]
  ∧ queue (run returning constructed events)
    = [FillerPhrase (Some "Let me see here...");
       FillerPhrase (Some "Hmm, one moment...")].
Proof. vm_compute. repeat split. Qed.

(** C4, amended.  When [onFillerEmitted] throws, [emitFiller] has already
    enqueued and counted the phrase and lets the error through; the timer
    callback that called it lets it through as well and skips the rest of
    its body, so a throw in the threshold callback arms no repeat interval.
    The stage stays usable: a chunk handed to [transform] afterwards is
    forwarded. *)
Theorem throwing_observer_propagates
    (c : Fields) (cb : Phrase → CallbackResult) (err : string) (rnd : nat) (w : World) :
  onFillerEmitted c = Some cb →
  cb (fillerPhrases c !! rnd) = Throws err →
  controller (self w) = true →
  hasReceivedResponse (self w) = false →
  (fillersEmittedThisTurn (self w) < maxFillersPerTurn c)%Z →
  ∃ w',
    emitFiller c rnd w = (w', Some err)
    ∧ queue w' = queue w ++ [FillerPhrase (fillerPhrases c !! rnd)]
    ∧ fillersEmittedThisTurn (self w') = (fillersEmittedThisTurn (self w) + 1)%Z
    ∧ timers w' = timers w
    ∧ timeoutCallback c rnd w = escape err w'
    ∧ intervalCallback c rnd w = escape err w'
    ∧ (∀ chunk, queue (transform chunk (escape err w')) = queue w' ++ [RealToken chunk]).
Proof.
  intros Hcb Hthrow Hc Hr Hlt.
  assert (∃ w', emitFiller c rnd w = (w', Some err)
                ∧ queue w' = queue w ++ [FillerPhrase (fillerPhrases c !! rnd)]
                ∧ fillersEmittedThisTurn (self w') = (fillersEmittedThisTurn (self w) + 1)%Z
                ∧ timers w' = timers w) as (w' & He & Hq & Hn & Ht).
  { unfold emitFiller. rewrite Hc, Hr, Hcb, Hthrow. simpl.
    destruct (Z.leb_spec (maxFillersPerTurn c) (fillersEmittedThisTurn (self w)));
      [lia|]. eexists. split; [reflexivity|]. done. }
  exists w'. repeat split; try done.
  - unfold timeoutCallback. by rewrite He.
  - unfold intervalCallback. rewrite Hr, He. simpl.
    by destruct (Z.ltb_spec (fillersEmittedThisTurn (self w)) (maxFillersPerTurn c));
      [|lia].
  - intros chunk. unfold transform. simpl.
    by destruct (clearBoth_frame (escape err w')) as (-> & _).
Qed.

Lemma throwing_observer_propagates_witness :
  let c := two_fillers (Some (λ _, Throws "observer failed")) in
  let w := run c constructed [NotifyProcessingStarted] in
  ∃ w',
    emitFiller c 0 w = (w', Some "observer failed")
    ∧ queue w' = queue w ++ [FillerPhrase (fillerPhrases c !! 0)]
    ∧ fillersEmittedThisTurn (self w') = (fillersEmittedThisTurn (self w) + 1)%Z
    ∧ timers w' = timers w
    ∧ timeoutCallback c 0 w = escape "observer failed" w'
    ∧ intervalCallback c 0 w = escape "observer failed" w'
    ∧ (∀ chunk, queue (transform chunk (escape "observer failed" w')) = queue w' ++ [RealToken chunk]).
Proof.
  apply (throwing_observer_propagates
           (two_fillers (Some (λ _, Throws "observer failed")))
           (λ _, Throws "observer failed") "observer failed" 0);
    [reflexivity | reflexivity | reflexivity | reflexivity | vm_compute; reflexivity].
Defined.

End FillerFacts.

Module ElevenLabsFacts.
Import ElevenLabs.

(** *** Messages and the flush waiter: invariants of every run *)

Lemma waiter_ok_alloc waiter calls next :
  waiter_ok waiter calls next → waiter_ok waiter calls (S next).
Proof.
  intros (Hnd & Hlt & Hw). split; [done|]. split.
  - intros p Hp. specialize (Hlt p Hp). lia.
  - intros p Hp. destruct (Hw p Hp). split; [lia|done].
Qed.

Lemma waiter_ok_reset waiter calls next :
  waiter_ok waiter calls next → waiter_ok (Some next) calls (S next).
Proof.
  intros (Hnd & Hlt & Hw). split; [done|]. split.
  - intros p Hp. specialize (Hlt p Hp). lia.
  - intros p [= <-]. split; [lia|]. intros Hin. specialize (Hlt _ Hin). lia.
Qed.

Lemma waiter_ok_call p calls next :
  waiter_ok (Some p) calls next → waiter_ok None (calls ++ [p]) next.
Proof.
  intros (Hnd & Hlt & Hw). destruct (Hw p eq_refl) as [Hp Hnin].
  split; [|split].
  - apply NoDup_app. split; [done|]. split; [|apply NoDup_singleton].
    intros x Hx ->%list_elem_of_singleton. done.
  - intros x [Hx| ->%list_elem_of_singleton]%elem_of_app; auto.
  - done.
Qed.

Lemma settle_rt p how w :
  vars (settle p how w) = vars w
  ∧ stream (settle p how w) = stream w
  ∧ sockets (rt (settle p how w)) = sockets (rt w)
  ∧ nextPromise (rt (settle p how w)) = nextPromise (rt w)
  ∧ sent (rt (settle p how w)) = sent (rt w)
  ∧ console (rt (settle p how w)) = console (rt w)
  ∧ now (rt (settle p how w)) = now (rt w)
  ∧ flushTimer (rt (settle p how w)) = flushTimer (rt w)
  ∧ finalCalls (rt (settle p how w)) = finalCalls (rt w).
Proof. unfold settle. destruct (settled (rt w) !! p); simpl; auto 10. Qed.

(** Settling only adds to the table of settled promises. *)
Lemma settle_lookup p how w q :
  settled (rt (settle p how w)) !! q = None → settled (rt w) !! q = None.
Proof.
  unfold settle. destruct (settled (rt w) !! p) eqn:Hp; simpl; [done|].
  destruct (decide (p = q)) as [->|Hne].
  - by rewrite lookup_insert_eq.
  - by rewrite lookup_insert_ne.
Qed.

Lemma settle_settles p how w : is_settled (settle p how w) p = true.
Proof.
  unfold is_settled, settle. destruct (settled (rt w) !! p) as [x|] eqn:Hp; simpl.
  - rewrite Hp. by apply bool_decide_eq_true.
  - rewrite lookup_insert_eq. by apply bool_decide_eq_true.
Qed.

Lemma known_bos o s : known_message o (s, bosMessage o).
Proof. by left. Qed.

Lemma known_eos o s : known_message o (s, eosMessage).
Proof. right. by left. Qed.

Lemma known_payload o s token : known_message o (s, payload token).
Proof. right. right. by exists token. Qed.

Lemma adapter_run_snoc o slack w evs ev :
  run o slack w (evs ++ [ev]) = step o slack (run o slack w evs) ev.
Proof. unfold run. by rewrite foldl_app. Qed.

Lemma adapter_run_app o slack w evs evs' :
  run o slack w (evs ++ evs') = run o slack (run o slack w evs) evs'.
Proof. unfold run. by rewrite foldl_app. Qed.

(** *** Invariants kept by every call

    A property of the messages sent, the promises and the waiter slot that
    the primitive operations keep is kept by every handler, and so holds in
    every run. *)

Section Compositional.
Context (o : ElevenLabsOptions) (P : World → Prop).
Hypothesis P_core : ∀ w w', core w' = core w → P w → P w'.
Hypothesis P_send : ∀ s v w, known_message o (s, v) → P w → P (ws_send s v w).
Hypothesis P_newPromise : ∀ w, P w → P (newPromise w).2.
Hypothesis P_reset : ∀ w, P w → P (resetFinalPromise w).
Hypothesis P_settle : ∀ p how w, P w → P (settle p how w).
Hypothesis P_resolve_final : ∀ w, P w → P (resolve_final w).

Lemma kept_by_createConnection w : P w → P (createConnection o w).2.
Proof.
  intros H. apply (P_core (newPromise (resetFinalPromise w)).2); [done|].
  by apply P_newPromise, P_reset.
Qed.

Lemma kept_by_transform_send token w : P w → P (transform_send token w).
Proof.
  intros H. unfold transform_send. destruct (ws_open w).
  - apply P_send; [apply known_payload|done].
  - revert H. by apply P_core.
Qed.

Lemma kept_by_transform_catch err w : P w → P (transform_catch err w).
Proof. by apply P_core. Qed.

Lemma kept_by_await_new token p w : P w → P (await_new token p w).
Proof.
  intros H. unfold await_new. destruct (settled (rt w) !! p) as [[]|].
  - by apply kept_by_transform_send.
  - by apply kept_by_transform_catch.
  - revert H. by apply P_core.
Qed.

Lemma kept_by_ensureConnection_new token w : P w → P (ensureConnection_new o token w).
Proof.
  intros H. unfold ensureConnection_new.
  pose proof (kept_by_createConnection w H) as H'.
  destruct (createConnection o w) as [p w1]. apply kept_by_await_new.
  revert H'. by apply P_core.
Qed.

Lemma kept_by_await_pending token p w : P w → P (await_pending o token p w).
Proof.
  intros H. unfold await_pending. destruct (settled (rt w) !! p) as [[]|].
  - destruct (ws_open w);
      [by apply kept_by_transform_send|by apply kept_by_ensureConnection_new].
  - by apply kept_by_transform_catch.
  - revert H. by apply P_core.
Qed.

Lemma kept_by_transform token w : P w → P (transform o token w).
Proof.
  intros H. unfold transform. destruct (isShuttingDown (vars w)); [done|].
  unfold ensureConnection. destruct (ws_open w).
  { by apply kept_by_transform_send. }
  destruct (connectionPromise (vars w)) as [p|];
    [by apply kept_by_await_pending|by apply kept_by_ensureConnection_new].
Qed.

Lemma kept_by_pump_chunks chunks w : P w → P (pump_chunks o chunks w).
Proof.
  revert w. induction chunks as [|token rest IH]; intros w H; simpl.
  { revert H. by apply P_core. }
  pose proof (kept_by_transform token w H) as H'.
  destruct (running (stream (transform o token w))); [|by apply IH].
  revert H'. by apply P_core.
Qed.

Lemma kept_by_flush_close w : P w → P (flush_close w).
Proof.
  apply P_core. unfold flush_close, ws_close.
  destruct (ws (vars w)) as [s|]; [|done].
  destruct (sockets (rt w) !! s) as [sk|]; [|done]. by destruct (readyState sk).
Qed.

Lemma kept_by_await_drain final timeout w : P w → P (await_drain final timeout w).
Proof.
  intros H. unfold await_drain. destruct (race_settled w final timeout).
  - by apply kept_by_flush_close.
  - revert H. by apply P_core.
Qed.

Lemma kept_by_flush w : P w → P (flush w).
Proof.
  intros H. unfold flush.
  set (w2 := with_vars (set_isShuttingDown true)
               (console_log "ElevenLabs: Flushing stream..."
                  (with_stream (set_flushStarted (Some (now (rt w)))) w))).
  assert (P w2) as H2 by (revert H; by apply P_core).
  destruct (ws_open w2) as [s|].
  - simpl. apply kept_by_await_drain.
    apply (P_core (newPromise (ws_send s eosMessage w2)).2); [done|].
    apply P_newPromise, P_send; [apply known_eos|done].
  - revert H2. by apply P_core.
Qed.

Lemma kept_by_pump w : P w → P (pump o w).
Proof.
  intros H. unfold pump.
  pose proof (kept_by_pump_chunks (pending (stream w)) w H) as H'.
  destruct (running (stream (pump_chunks o _ w))); [done|].
  destruct (flushStarted (stream (pump_chunks o _ w))); [done|].
  destruct (closeRequested (stream (pump_chunks o _ w))); [|done].
  by apply kept_by_flush.
Qed.

Lemma kept_by_resume t w : P w → P (resume o t w).
Proof.
  intros H. destruct t as [token p|token p|final timeout]; simpl.
  - by apply kept_by_await_pending.
  - by apply kept_by_await_new.
  - by apply kept_by_await_drain.
Qed.

Lemma kept_by_drive w : P w → P (drive o w).
Proof.
  intros H. unfold drive. destruct (running (stream w)) as [t|] eqn:Ht; [|done].
  assert (P (resume o t (with_stream (set_running None) w))) as H'.
  { apply kept_by_resume. revert H. by apply P_core. }
  destruct (running (stream (resume o t _))); [done|]. by apply kept_by_pump.
Qed.

Lemma kept_by_on_message m w : P w → P (on_message m w).
Proof.
  assert (∀ isFinal error w, P w → P (on_message_rest isFinal error w)) as Hrest.
  { intros isFinal error w' H. unfold on_message_rest.
    assert (P (if isFinal then resolve_final w' else w')) as H'
      by (destruct isFinal; [by apply P_resolve_final|done]).
    destruct error; [|done]. revert H'. by apply P_core. }
  intros H. destruct m as [err|[|chunk|err] isFinal error]; simpl.
  - revert H. by apply P_core.
  - by apply Hrest.
  - destruct (activeController (vars w)); [|by apply Hrest].
    destruct (flushEnded (stream w)).
    + revert H. by apply P_core.
    + apply Hrest. revert H. by apply P_core.
  - revert H. by apply P_core.
Qed.

Lemma kept_by_forget s w : P w → P (forget_if_current s w).
Proof. apply P_core. unfold forget_if_current. by destruct (ws_is s w). Qed.

Lemma kept_by_on_open s p w : P w → P (on_open o s p w).
Proof.
  intros H. apply P_settle.
  assert (P (ws_send s (bosMessage o) (console_log "ElevenLabs: WebSocket connected" w)))
    as H'.
  { apply P_send; [apply known_bos|]. revert H. by apply P_core. }
  revert H'. by apply P_core.
Qed.

Lemma kept_by_on_error s p err w : P w → P (on_error s p err w).
Proof.
  intros H. apply P_settle, kept_by_forget. revert H. by apply P_core.
Qed.

Lemma kept_by_on_close s code reason w : P w → P (on_close s code reason w).
Proof.
  intros H. apply P_resolve_final, kept_by_forget. revert H. by apply P_core.
Qed.

Lemma kept_by_timer_callback tp w : P w → P (timer_callback tp w).
Proof. intros H. apply P_settle. revert H. by apply P_core. Qed.

Lemma kept_by_step slack w ev : P w → P (step o slack w ev).
Proof.
  intros H. destruct ev as [token| |s|s m|s err|s code reason|dt| |s]; simpl.
  - destruct (closeRequested (stream w)); [done|].
    assert (P (with_stream (λ x, set_pending (pending x ++ [token]) x) w)) as H'
      by (revert H; by apply P_core).
    destruct (running (stream w)); [done|]. by apply kept_by_pump.
  - destruct (closeRequested (stream w)); [done|].
    assert (P (with_stream (set_closeRequested true) w)) as H'
      by (revert H; by apply P_core).
    destruct (running (stream w)); [done|]. by apply kept_by_pump.
  - destruct (sockets (rt w) !! s) as [[u [] p]|]; try done.
    apply kept_by_drive, kept_by_on_open. revert H. by apply P_core.
  - destruct (sockets (rt w) !! s) as [[u [] p]|]; simpl; try done;
      by apply kept_by_drive, kept_by_on_message.
  - destruct (sockets (rt w) !! s) as [[u [] p]|]; simpl; try done;
      apply kept_by_drive, kept_by_on_error; revert H; by apply P_core.
  - destruct (sockets (rt w) !! s) as [[u [] p]|]; simpl; try done;
      apply kept_by_drive, kept_by_on_close; revert H; by apply P_core.
  - destruct (flushTimer (rt w)) as [[due tp]|];
      [destruct (due + slack <? now (rt w) + dt)%N|]; try (revert H; by apply P_core).
    assert (P (drive o (timer_callback tp
              (advance_to (N.max (now (rt w)) (due + slack)) w)))) as H'.
    { apply kept_by_drive, kept_by_timer_callback. revert H. by apply P_core. }
    revert H'. by apply P_core.
  - destruct (flushTimer (rt w)) as [[due tp]|]; [|done].
    destruct (due <=? now (rt w))%N; [|done].
    by apply kept_by_drive, kept_by_timer_callback.
  - destruct (sockets (rt w) !! s) as [[u [] p]|]; simpl; try done.
    revert H. by apply P_core.
Qed.

Lemma kept_by_run slack evs : P constructed → P (run o slack constructed evs).
Proof.
  intros H0. induction evs as [|ev evs IH] using rev_ind; [done|].
  rewrite adapter_run_snoc. by apply kept_by_step.
Qed.

End Compositional.

Lemma Safe_run o slack evs : Safe o (run o slack constructed evs).
Proof.
  apply kept_by_run.
  - unfold core, Safe. by intros w w' [= -> _ -> -> -> _].
  - intros s v w Hv [Hs Hw]. split; [|done]. simpl.
    apply Forall_app. split; [done|]. by apply Forall_singleton.
  - intros w [Hs Hw]. split; [done|]. by apply waiter_ok_alloc.
  - intros w [Hs Hw]. split; [done|]. by apply waiter_ok_reset in Hw.
  - intros p how w. unfold Safe.
    by destruct (settle_rt p how w) as (-> & _ & _ & -> & -> & _ & _ & _ & ->).
  - intros w H. unfold resolve_final.
    destruct (finalResolve (vars w)) as [p|] eqn:Hp; [|done].
    destruct H as [Hs Hw]. rewrite Hp in Hw. split; simpl.
    + by destruct (settle_rt p Fulfilled
           (with_rt (λ r, set_finalCalls (finalCalls r ++ [p]) r) w))
        as (_ & _ & _ & _ & -> & _).
    + destruct (settle_rt p Fulfilled
           (with_rt (λ r, set_finalCalls (finalCalls r ++ [p]) r) w))
        as (_ & _ & _ & -> & _ & _ & _ & _ & ->).
      simpl. by apply waiter_ok_call.
  - split; simpl; [done|]. split; [apply NoDup_nil_2|].
    split; [by intros p ?%elem_of_nil|done].
Qed.

Lemma Slot_run o slack evs : Slot (run o slack constructed evs).
Proof.
  apply (kept_by_run o).
  - unfold core, Slot. by intros w w' [= _ -> _ _ -> ->].
  - by intros s v w _ H.
  - by intros w H.
  - intros w _. by split.
  - intros p how w [H1 H2]. unfold Slot.
    destruct (settle_rt p how w) as (-> & _). split; [done|].
    intros q Hq Hnone. apply H2; [done|]. by apply (settle_lookup p how).
  - intros w H. unfold resolve_final.
    destruct (finalResolve (vars w)) as [p|] eqn:Hp; [|done].
    destruct H as [H1 H2]. split; simpl; [done|].
    destruct (settle_rt p Fulfilled
         (with_rt (λ r, set_finalCalls (finalCalls r ++ [p]) r) w)) as (-> & _).
    simpl. intros q Hq Hnone. rewrite (H1 p Hp) in Hq. injection Hq as <-.
    pose proof (settle_settles p Fulfilled
         (with_rt (λ r, set_finalCalls (finalCalls r ++ [p]) r) w)) as Hs.
    unfold is_settled in Hs. rewrite Hnone in Hs.
    apply bool_decide_eq_true in Hs. by destruct Hs.
  - by split.
Qed.

Section Adapter.
Context (o : ElevenLabsOptions).

(** *** The timing of [flush] *)

Lemma FlushInv_view slack w w' :
  flush_view w' = flush_view w → FlushInv slack w → FlushInv slack w'.
Proof. unfold flush_view, FlushInv. intros [= -> -> -> -> -> -> ->]. done. Qed.

Lemma flush_view_settle p how w : flush_view (settle p how w) = flush_view w.
Proof.
  unfold flush_view.
  by destruct (settle_rt p how w) as (_ & -> & _ & _ & _ & _ & -> & -> & _).
Qed.

Lemma flush_view_resolve_final w : flush_view (resolve_final w) = flush_view w.
Proof.
  unfold resolve_final. destruct (finalResolve (vars w)) as [p|]; [|done].
  unfold flush_view. simpl.
  by destruct (settle_rt p Fulfilled
       (with_rt (λ r, set_finalCalls (finalCalls r ++ [p]) r) w))
    as (_ & -> & _ & _ & _ & _ & -> & -> & _).
Qed.

Lemma flush_view_forget s w : flush_view (forget_if_current s w) = flush_view w.
Proof. unfold forget_if_current. by destruct (ws_is s w). Qed.

Lemma flush_view_on_open s p w : flush_view (on_open o s p w) = flush_view w.
Proof. unfold on_open. by rewrite flush_view_settle. Qed.

Lemma flush_view_on_error s p err w : flush_view (on_error s p err w) = flush_view w.
Proof. unfold on_error. by rewrite flush_view_settle, flush_view_forget. Qed.

Lemma flush_view_on_close s code reason w :
  flush_view (on_close s code reason w) = flush_view w.
Proof. unfold on_close. by rewrite flush_view_resolve_final, flush_view_forget. Qed.

Lemma flush_view_on_message m w : flush_view (on_message m w) = flush_view w.
Proof.
  assert (∀ isFinal error w, flush_view (on_message_rest isFinal error w) = flush_view w)
    as Hrest.
  { intros isFinal error w'. unfold on_message_rest.
    destruct error; destruct isFinal; try done;
      by rewrite <- (flush_view_resolve_final w'). }
  destruct m as [err|[|chunk|err] isFinal error]; simpl; try done.
  destruct (activeController (vars w)); [|done].
  destruct (flushEnded (stream w)); [done|]. by rewrite Hrest.
Qed.

Lemma transform_like_send token w : transform_like w (transform_send token w).
Proof.
  unfold transform_send. destruct (ws_open w); repeat split; simpl; try done;
    by intros ->.
Qed.

Lemma transform_like_catch err w : transform_like w (transform_catch err w).
Proof. repeat split; simpl; try done; by intros ->. Qed.

Lemma transform_like_await_new token p w : transform_like w (await_new token p w).
Proof.
  unfold await_new. destruct (settled (rt w) !! p) as [[]|].
  - apply transform_like_send.
  - apply transform_like_catch.
  - by repeat split.
Qed.

Lemma transform_like_new token w : transform_like w (ensureConnection_new o token w).
Proof.
  unfold ensureConnection_new, createConnection. simpl.
  match goal with |- transform_like _ (await_new _ _ ?w1) =>
    destruct (transform_like_await_new token (S (nextPromise (rt w))) w1) as (Hc & Hp & Hr)
  end.
  split; [by rewrite Hc|]. split; [by rewrite Hp|]. intros Hn. by apply Hr.
Qed.

Lemma transform_like_await_pending token p w : transform_like w (await_pending o token p w).
Proof.
  unfold await_pending. destruct (settled (rt w) !! p) as [[]|].
  - destruct (ws_open w); [apply transform_like_send|apply transform_like_new].
  - apply transform_like_catch.
  - by repeat split.
Qed.

Lemma transform_like_transform token w : transform_like w (transform o token w).
Proof.
  unfold transform. destruct (isShuttingDown (vars w)).
  { repeat split; try done. by intros ->. }
  unfold ensureConnection. destruct (ws_open w); [apply transform_like_send|].
  destruct (connectionPromise (vars w));
    [apply transform_like_await_pending|apply transform_like_new].
Qed.

Lemma pump_chunks_flush chunks w :
  running (stream w) = None →
  clock_view (pump_chunks o chunks w) = clock_view w
  ∧ transform_task (running (stream (pump_chunks o chunks w)))
  ∧ (running (stream (pump_chunks o chunks w)) = None →
     pending (stream (pump_chunks o chunks w)) = []).
Proof.
  revert w. induction chunks as [|token rest IH]; intros w Hr; simpl.
  { rewrite Hr. done. }
  destruct (transform_like_transform token w) as (Hc & Hp & Ht).
  destruct (running (stream (transform o token w))) as [t|] eqn:Hrun.
  - split; [exact Hc|]. simpl. rewrite Hrun. split; [by apply Ht|done].
  - destruct (IH _ Hrun) as (Hc' & Ht' & Hp'). by rewrite Hc'.
Qed.

Lemma flush_close_view w :
  flushStarted (stream (flush_close w)) = flushStarted (stream w)
  ∧ flushEnded (stream (flush_close w)) = Some (now (rt w))
  ∧ closeRequested (stream (flush_close w)) = closeRequested (stream w)
  ∧ pending (stream (flush_close w)) = pending (stream w)
  ∧ running (stream (flush_close w)) = running (stream w).
Proof.
  unfold flush_close, ws_close. destruct (ws (vars w)) as [s|]; [|done].
  destruct (sockets (rt w) !! s) as [sk|]; [|done]. by destruct (readyState sk).
Qed.

(** A flush that has started, with the race of its [await] settled,
    returns at once. *)
Lemma await_drain_settled slack final tp t0 w :
  flushStarted (stream w) = Some t0 →
  closeRequested (stream w) = true →
  pending (stream w) = [] →
  running (stream w) = None →
  (t0 ≤ now (rt w) ≤ t0 + flushTimeoutMs + slack)%N →
  race_settled w final tp = true →
  FlushInv slack (await_drain final tp w)
  ∧ flushEnded (stream (await_drain final tp w)) = Some (now (rt w)).
Proof.
  intros Hs Hc Hp Hr Hnow Hrace. unfold await_drain. rewrite Hrace.
  destruct (flush_close_view w) as (Hv1 & Hv2 & Hv3 & Hp' & Hr').
  unfold FlushInv. rewrite Hv1, Hv2, Hs, Hv3, Hp', Hr'. split; [|done].
  repeat split; try done; lia.
Qed.

Lemma flush_inv slack w :
  flushEnded (stream w) = None →
  closeRequested (stream w) = true →
  pending (stream w) = [] →
  running (stream w) = None →
  FlushInv slack (flush w).
Proof.
  intros He Hc Hp Hr. unfold flush.
  match goal with |- context [ws_open ?w2] => destruct (ws_open w2) as [s|] end.
  - simpl.
    match goal with |- FlushInv _ (await_drain ?f ?tp ?w5) =>
      destruct (race_settled w5 f tp) eqn:Hrace;
      [ apply (await_drain_settled slack f tp (now (rt w)) w5); simpl; try done; lia
      | unfold await_drain; rewrite Hrace ]
    end.
    unfold FlushInv. simpl. rewrite He, Hc, Hp.
    repeat split; try done; try lia. eauto.
  - unfold FlushInv. simpl. rewrite Hc, Hp, Hr. repeat split; try done; lia.
Qed.

Lemma pump_inv slack w :
  FlushInv slack w → running (stream w) = None → FlushInv slack (pump o w).
Proof.
  intros Hinv Hr. unfold pump.
  destruct (pump_chunks_flush (pending (stream w)) w Hr) as (Hc & Ht & Hp).
  unfold clock_view in Hc. injection Hc as Hc1 Hc2 Hc3 Hc4 Hc5.
  unfold FlushInv in Hinv.
  destruct (flushStarted (stream w)) as [t0|] eqn:Hs;
    destruct (flushEnded (stream w)) as [t1|] eqn:He; try done.
  - (* flush has returned: the queue is empty and stays so *)
    destruct Hinv as (Hcl & Hq & _ & Hle). rewrite Hq in *. simpl in *.
    rewrite Hr, Hs. unfold FlushInv. simpl. by rewrite Hs, He, Hcl, Hr.
  - destruct Hinv as (_ & _ & _ & final & tp & Hrun & _). congruence.
  - destruct Hinv as [Htimer _].
    destruct (running (stream (pump_chunks o _ w))) as [t|] eqn:Hrun.
    + unfold FlushInv. by rewrite Hc1, Hc2, Hc4, Hrun.
    + rewrite Hc1. destruct (closeRequested (stream (pump_chunks o _ w))) eqn:Hcl.
      * apply flush_inv; auto.
      * unfold FlushInv. by rewrite Hc1, Hc2, Hc4, Hrun.
Qed.

Lemma resume_transform_like t w :
  transform_task (Some t) → transform_like w (resume o t w).
Proof.
  destruct t as [token p|token p|final tp]; simpl; intros Ht; try done.
  - apply transform_like_await_pending.
  - apply transform_like_await_new.
Qed.

(** While [flush] waits, a settled race makes it return now. *)
Lemma drive_settled slack final tp t0 w :
  flushStarted (stream w) = Some t0 →
  closeRequested (stream w) = true →
  pending (stream w) = [] →
  running (stream w) = Some (AwaitDrain final tp) →
  (t0 ≤ now (rt w) ≤ t0 + flushTimeoutMs + slack)%N →
  race_settled w final tp = true →
  FlushInv slack (drive o w) ∧ flushEnded (stream (drive o w)) = Some (now (rt w)).
Proof.
  intros Hs Hc Hp Hr Hnow Hrace. unfold drive. rewrite Hr. simpl.
  destruct (await_drain_settled slack final tp t0
              (with_stream (set_running None) w)) as [Hinv He]; try done.
  pose proof Hinv as Hinv'. unfold FlushInv in Hinv'. rewrite He in Hinv'.
  destruct (flushStarted (stream (await_drain final tp _))) as [t0'|] eqn:Hs'; [|done].
  destruct Hinv' as (Hcl & Hq & Hrun & Hle). rewrite Hrun.
  unfold pump. rewrite Hq. simpl. rewrite Hrun, Hs'.
  split; [|done]. revert Hinv. apply FlushInv_view. unfold flush_view. simpl.
  by rewrite Hq.
Qed.

Lemma drive_inv slack w : FlushInv slack w → FlushInv slack (drive o w).
Proof.
  intros Hinv. unfold drive.
  destruct (running (stream w)) as [t|] eqn:Hr; [|done].
  assert (transform_task (Some t) ∨ ∃ final tp, t = AwaitDrain final tp)
    as [Ht|(final & tp & ->)] by (destruct t; simpl; eauto).
  - (* a suspended [transform]: flush has not been called *)
    assert (flushStarted (stream w) = None ∧ flushEnded (stream w) = None
            ∧ flushTimer (rt w) = None) as (Hs & He & Htimer).
    { unfold FlushInv in Hinv. rewrite Hr in Hinv.
      destruct (flushStarted (stream w)), (flushEnded (stream w)); try done.
      - by destruct Hinv as (_ & _ & ? & _).
      - destruct Hinv as (_ & _ & _ & final & tp & [= ->] & _). done.
      - by destruct Hinv. }
    destruct (resume_transform_like t (with_stream (set_running None) w) Ht)
      as (Hc & Hp & Hrun).
    unfold clock_view in Hc. simpl in Hc. injection Hc as Hc1 Hc2 Hc3 Hc4 Hc5.
    assert (FlushInv slack (resume o t (with_stream (set_running None) w))) as Hinv'.
    { unfold FlushInv. rewrite Hc1, Hc2, Hc4, Hs, He. split; [done|]. by apply Hrun. }
    destruct (running (stream (resume o t _))) eqn:Hrun'; [done|].
    by apply pump_inv.
  - unfold FlushInv in Hinv. rewrite Hr in Hinv.
    destruct (flushStarted (stream w)) as [t0|] eqn:Hs;
      destruct (flushEnded (stream w)) as [t1|] eqn:He; try done.
    + by destruct Hinv as (_ & _ & ? & _).
    + destruct Hinv as (Hcl & Hq & Hnow & final' & tp' & [= <- <-] & Htimer).
      destruct (race_settled w final tp) eqn:Hrace.
      * pose proof (drive_settled slack final tp t0 w Hs Hcl Hq Hr Hnow Hrace) as [H _].
        unfold drive in H. by rewrite Hr in H.
      * simpl. unfold await_drain.
        assert (race_settled (with_stream (set_running None) w) final tp = false) as ->
          by done.
        simpl. unfold FlushInv. simpl. rewrite Hs, He, Hcl, Hq. eauto 10.
    + by destruct Hinv.
Qed.

(** Before [close], the invariant does not depend on the queue. *)
Lemma FlushInv_open slack w w' :
  closeRequested (stream w) = false →
  clock_view w' = (flushStarted (stream w), flushEnded (stream w),
                   closeRequested (stream w'), flushTimer (rt w), now (rt w)) →
  running (stream w') = running (stream w) →
  FlushInv slack w → FlushInv slack w'.
Proof.
  intros Hcl Hc Hr. unfold clock_view in Hc. injection Hc as Hc1 Hc2 Hc4 Hc5.
  unfold FlushInv. rewrite Hc1, Hc2, Hc4, Hr.
  destruct (flushStarted (stream w)), (flushEnded (stream w)); try done.
  - intros (? & _). congruence.
  - intros (? & _). congruence.
Qed.

(** Once [flush] has returned, clock and timer no longer matter. *)
Lemma FlushInv_after slack w w' t1 :
  flushEnded (stream w) = Some t1 →
  stream w' = stream w →
  FlushInv slack w → FlushInv slack w'.
Proof.
  intros He Hst. unfold FlushInv. rewrite Hst, He.
  by destruct (flushStarted (stream w)).
Qed.

Lemma drive_idle w : running (stream w) = None → drive o w = w.
Proof. intros Hr. unfold drive. by rewrite Hr. Qed.

Lemma timer_callback_view tp w :
  stream (timer_callback tp w) = stream w
  ∧ now (rt (timer_callback tp w)) = now (rt w)
  ∧ is_settled (timer_callback tp w) tp = true.
Proof.
  unfold timer_callback, settle. simpl.
  destruct (settled (rt w) !! tp) as [how|] eqn:Hl; simpl.
  - repeat split. unfold is_settled. simpl. rewrite Hl. by apply bool_decide_eq_true.
  - repeat split. unfold is_settled. simpl. rewrite lookup_insert_eq.
    by apply bool_decide_eq_true.
Qed.

(** The timer callback ends a waiting [flush]. *)
Lemma timer_ends_flush slack w t0 tp t :
  FlushInv slack w →
  flushStarted (stream w) = Some t0 →
  flushEnded (stream w) = None →
  flushTimer (rt w) = Some ((t0 + flushTimeoutMs)%N, tp) →
  (now (rt w) ≤ t ≤ t0 + flushTimeoutMs + slack)%N →
  let w' := drive o (timer_callback tp (advance_to t w)) in
  FlushInv slack w' ∧ flushEnded (stream w') = Some t.
Proof.
  intros Hinv Hs He Htimer Ht. unfold FlushInv in Hinv. rewrite Hs, He in Hinv.
  destruct Hinv as (Hcl & Hq & Hnow & final & tp' & Hr & Htimer').
  rewrite Htimer in Htimer'. injection Htimer' as <-.
  destruct (timer_callback_view tp (advance_to t w)) as (Hst & Hn & Hset).
  assert (now (rt (timer_callback tp (advance_to t w))) = t) as Hn' by done.
  pose proof (drive_settled slack final tp t0 (timer_callback tp (advance_to t w))) as H.
  rewrite Hn', Hst in H. apply H; try done; [lia|].
  unfold race_settled. rewrite Hset. by destruct final; rewrite ?orb_true_r.
Qed.

Lemma step_flush_inv slack w ev : FlushInv slack w → FlushInv slack (step o slack w ev).
Proof.
  intros Hinv. destruct ev as [token| |s|s m|s err|s code reason|dt| |s]; simpl.
  - destruct (closeRequested (stream w)) eqn:Hcl; [done|].
    assert (FlushInv slack (with_stream (λ x, set_pending (pending x ++ [token]) x) w))
      as Hinv1 by (revert Hinv; by apply FlushInv_open).
    destruct (running (stream w)) eqn:Hr; [done|]. by apply pump_inv.
  - destruct (closeRequested (stream w)) eqn:Hcl; [done|].
    assert (FlushInv slack (with_stream (set_closeRequested true) w))
      as Hinv1 by (revert Hinv; by apply FlushInv_open).
    destruct (running (stream w)) eqn:Hr; [done|]. by apply pump_inv.
  - destruct (sockets (rt w) !! s) as [[u [] p]|]; try done.
    apply drive_inv. revert Hinv. apply FlushInv_view.
    by rewrite flush_view_on_open.
  - destruct (sockets (rt w) !! s) as [[u [] p]|]; simpl; try done;
      apply drive_inv; revert Hinv; apply FlushInv_view;
      by rewrite flush_view_on_message.
  - destruct (sockets (rt w) !! s) as [[u [] p]|]; simpl; try done;
      apply drive_inv; revert Hinv; apply FlushInv_view;
      by rewrite flush_view_on_error.
  - destruct (sockets (rt w) !! s) as [[u [] p]|]; simpl; try done;
      apply drive_inv; revert Hinv; apply FlushInv_view;
      by rewrite flush_view_on_close.
  - destruct (flushEnded (stream w)) as [t1|] eqn:He.
    { (* after flush: only the clock and a stale timer change *)
      assert (running (stream w) = None) as Hr.
      { unfold FlushInv in Hinv. rewrite He in Hinv.
        destruct (flushStarted (stream w)); [|done]. by destruct Hinv as (_ & _ & ? & _). }
      destruct (flushTimer (rt w)) as [[due tp]|];
        [destruct (due + slack <? now (rt w) + dt)%N|].
      - match goal with |- context [timer_callback tp ?w1] =>
          destruct (timer_callback_view tp w1) as (Hst & _) end.
        rewrite drive_idle by by rewrite Hst.
        revert Hinv. apply (FlushInv_after _ _ _ t1); [done|]. simpl. by rewrite Hst.
      - revert Hinv. by apply (FlushInv_after _ _ _ t1).
      - revert Hinv. by apply (FlushInv_after _ _ _ t1). }
    destruct (flushStarted (stream w)) as [t0|] eqn:Hs.
    + pose proof Hinv as Hinv'. unfold FlushInv in Hinv'. rewrite Hs, He in Hinv'.
      destruct Hinv' as (Hcl & Hq & Hnow & final & tp & Hr & Htimer).
      rewrite Htimer. destruct (N.ltb_spec (t0 + flushTimeoutMs + slack) (now (rt w) + dt)).
      * rewrite N.max_r by lia.
        destruct (timer_ends_flush slack w t0 tp (t0 + flushTimeoutMs + slack)%N)
          as [Hinv2 He2]; try done; [lia|].
        revert Hinv2. apply (FlushInv_after _ _ _ _ He2). done.
      * unfold FlushInv. simpl. rewrite Hs, He, Hcl, Hq.
        repeat split; try done; try lia. eauto.
    + unfold FlushInv in Hinv. rewrite Hs, He in Hinv. destruct Hinv as [Htm Ht].
      rewrite Htm. unfold FlushInv. simpl. by rewrite Hs, He.
  - destruct (flushTimer (rt w)) as [[due tp]|] eqn:Htimer; [|done].
    destruct (N.leb_spec due (now (rt w))); [|done].
    destruct (flushEnded (stream w)) as [t1|] eqn:He.
    { assert (running (stream w) = None) as Hr.
      { unfold FlushInv in Hinv. rewrite He in Hinv.
        destruct (flushStarted (stream w)); [|done]. by destruct Hinv as (_ & _ & ? & _). }
      destruct (timer_callback_view tp w) as (Hst & _).
      rewrite drive_idle by by rewrite Hst.
      revert Hinv. by apply (FlushInv_after _ _ _ t1). }
    destruct (flushStarted (stream w)) as [t0|] eqn:Hs.
    + pose proof Hinv as Hinv'. unfold FlushInv in Hinv'. rewrite Hs, He in Hinv'.
      destruct Hinv' as (Hcl & Hq & Hnow & final & tp' & Hr & Htimer').
      rewrite Htimer in Htimer'. injection Htimer' as -> <-.
      destruct (timer_ends_flush slack w t0 tp (now (rt w))) as [Hinv2 _];
        try done; try lia.
    + unfold FlushInv in Hinv. rewrite Hs, He in Hinv. destruct Hinv as [Hnone _].
      congruence.
  - by destruct (sockets (rt w) !! s) as [[u [] p]|].
Qed.

Lemma run_flush_inv slack evs : FlushInv slack (run o slack constructed evs).
Proof.
  induction evs as [|ev evs IH] using rev_ind; [done|].
  rewrite adapter_run_snoc. by apply step_flush_inv.
Qed.

(** *** What a waiting [flush] waits for *)

Lemma transform_task_waiting w : transform_task (running (stream w)) → Waiting w.
Proof. intros Ht final tp Hr. rewrite Hr in Ht. done. Qed.

Lemma await_drain_waiting final tp w :
  running (stream w) = None →
  final = finalPromise (vars w) →
  Waiting (await_drain final tp w).
Proof.
  intros Hr Hf. unfold await_drain. destruct (race_settled w final tp) eqn:Hrace.
  - apply transform_task_waiting.
    destruct (flush_close_view w) as (_ & _ & _ & _ & ->). by rewrite Hr.
  - intros final' tp' [= <- <-]. done.
Qed.

Lemma flush_waiting w : running (stream w) = None → Waiting (flush w).
Proof.
  intros Hr. unfold flush.
  match goal with |- context [ws_open ?w2] => destruct (ws_open w2) as [s|] end.
  - simpl. by apply await_drain_waiting.
  - apply transform_task_waiting. simpl. by rewrite Hr.
Qed.

Lemma pump_waiting w : running (stream w) = None → Waiting (pump o w).
Proof.
  intros Hr. unfold pump.
  destruct (pump_chunks_flush (pending (stream w)) w Hr) as (_ & Ht & _).
  destruct (running (stream (pump_chunks o _ w))) eqn:Hrun.
  - apply transform_task_waiting. by rewrite Hrun.
  - destruct (flushStarted (stream (pump_chunks o _ w)));
      [apply transform_task_waiting; by rewrite Hrun|].
    destruct (closeRequested (stream (pump_chunks o _ w)));
      [by apply flush_waiting|apply transform_task_waiting; by rewrite Hrun].
Qed.

Lemma drive_waiting w :
  (∀ final tp, running (stream w) = Some (AwaitDrain final tp) →
     final = finalPromise (vars w)) →
  Waiting (drive o w).
Proof.
  intros Hf. unfold drive.
  destruct (running (stream w)) as [t|] eqn:Hr;
    [|apply transform_task_waiting; by rewrite Hr].
  assert (Waiting (resume o t (with_stream (set_running None) w))) as Hw.
  { destruct t as [token p|token p|final tp]; simpl.
    - apply transform_task_waiting.
      by apply (transform_like_await_pending token p (with_stream (set_running None) w)).
    - apply transform_task_waiting.
      by apply (transform_like_await_new token p (with_stream (set_running None) w)).
    - apply await_drain_waiting; [done|]. by apply (Hf final tp). }
  destruct (running (stream (resume o t _))) eqn:Hrun; [done|]. by apply pump_waiting.
Qed.

Lemma wait_view_resolve_final w : wait_view (resolve_final w) = wait_view w.
Proof.
  unfold resolve_final. destruct (finalResolve (vars w)) as [p|]; [|done].
  unfold wait_view. simpl.
  by destruct (settle_rt p Fulfilled
       (with_rt (λ r, set_finalCalls (finalCalls r ++ [p]) r) w)) as (-> & -> & _).
Qed.

Lemma wait_view_forget s w : wait_view (forget_if_current s w) = wait_view w.
Proof. unfold forget_if_current. by destruct (ws_is s w). Qed.

Lemma wait_view_on_open s p w : wait_view (on_open o s p w) = wait_view w.
Proof.
  unfold on_open, wait_view.
  match goal with |- context [settle p Fulfilled ?x] =>
    by destruct (settle_rt p Fulfilled x) as (-> & -> & _) end.
Qed.

Lemma wait_view_on_error s p err w : wait_view (on_error s p err w) = wait_view w.
Proof.
  unfold on_error, wait_view.
  match goal with |- context [settle p ?how ?x] =>
    destruct (settle_rt p how x) as (-> & -> & _) end.
  apply (wait_view_forget s).
Qed.

Lemma wait_view_on_close s code reason w :
  wait_view (on_close s code reason w) = wait_view w.
Proof. unfold on_close. by rewrite wait_view_resolve_final, wait_view_forget. Qed.

Lemma wait_view_on_message m w : wait_view (on_message m w) = wait_view w.
Proof.
  assert (∀ isFinal error w, wait_view (on_message_rest isFinal error w) = wait_view w)
    as Hrest.
  { intros isFinal error w'. unfold on_message_rest.
    destruct error; destruct isFinal; try done;
      by rewrite <- (wait_view_resolve_final w'). }
  destruct m as [err|[|chunk|err] isFinal error]; simpl; try done.
  destruct (activeController (vars w)); [|done].
  destruct (flushEnded (stream w)); [done|]. by rewrite Hrest.
Qed.

Lemma wait_view_timer_callback tp w : wait_view (timer_callback tp w) = wait_view w.
Proof.
  unfold timer_callback, wait_view.
  match goal with |- context [settle tp ?how ?x] =>
    by destruct (settle_rt tp how x) as (-> & -> & _) end.
Qed.

Lemma drive_after_handler w w' :
  wait_view w' = wait_view w → Waiting w → Waiting (drive o w').
Proof.
  unfold wait_view. intros [= Hr Hf] Hw. apply drive_waiting.
  intros final tp Hrun. rewrite Hf. apply (Hw final tp). by rewrite <- Hr.
Qed.

(** A step that touches neither promises nor the suspended call. *)
Lemma Waiting_same w w' :
  wait_view w' = wait_view w → settled (rt w') = settled (rt w) →
  Waiting w → Waiting w'.
Proof.
  unfold wait_view. intros [= Hr Hf] Hs Hw final tp Hrun.
  rewrite Hf. rewrite Hr in Hrun. destruct (Hw final tp Hrun) as [-> Hrace].
  split; [done|]. unfold race_settled, is_settled in *. by rewrite Hs.
Qed.

Lemma step_waiting slack w ev : Waiting w → Waiting (step o slack w ev).
Proof.
  intros Hw. destruct ev as [token| |s|s m|s err|s code reason|dt| |s]; simpl.
  - destruct (closeRequested (stream w)); [done|].
    destruct (running (stream w)) eqn:Hr; [|by apply pump_waiting].
    revert Hw. apply Waiting_same; [|done]. unfold wait_view. simpl. by rewrite Hr.
  - destruct (closeRequested (stream w)); [done|].
    destruct (running (stream w)) eqn:Hr; [|by apply pump_waiting].
    revert Hw. apply Waiting_same; [|done]. unfold wait_view. simpl. by rewrite Hr.
  - destruct (sockets (rt w) !! s) as [[u [] p]|]; try done.
    revert Hw. apply drive_after_handler. by rewrite wait_view_on_open.
  - destruct (sockets (rt w) !! s) as [[u [] p]|]; simpl; try done;
      revert Hw; apply drive_after_handler; by rewrite wait_view_on_message.
  - destruct (sockets (rt w) !! s) as [[u [] p]|]; simpl; try done;
      revert Hw; apply drive_after_handler; by rewrite wait_view_on_error.
  - destruct (sockets (rt w) !! s) as [[u [] p]|]; simpl; try done;
      revert Hw; apply drive_after_handler; by rewrite wait_view_on_close.
  - destruct (flushTimer (rt w)) as [[due tp]|];
      [destruct (due + slack <? now (rt w) + dt)%N|];
      try (revert Hw; by apply Waiting_same).
    assert (Waiting (drive o (timer_callback tp
              (advance_to (N.max (now (rt w)) (due + slack)) w)))) as Hw'.
    { revert Hw. apply drive_after_handler. by rewrite wait_view_timer_callback. }
    revert Hw'. by apply Waiting_same.
  - destruct (flushTimer (rt w)) as [[due tp]|]; [|done].
    destruct (due <=? now (rt w))%N; [|done].
    revert Hw. apply drive_after_handler. by rewrite wait_view_timer_callback.
  - by destruct (sockets (rt w) !! s) as [[u [] p]|].
Qed.

Lemma run_waiting slack evs : Waiting (run o slack constructed evs).
Proof.
  induction evs as [|ev evs IH] using rev_ind; [by intros final tp|].
  rewrite adapter_run_snoc. by apply step_waiting.
Qed.

(** While [flush] waits in a run, the waiter of the promise it awaits is
    in the slot. *)
Lemma drain_waiter slack evs final tp :
  running (stream (run o slack constructed evs)) = Some (AwaitDrain final tp) →
  ∃ p, final = Some p ∧ finalResolve (vars (run o slack constructed evs)) = Some p.
Proof.
  intros Hr. destruct (run_waiting slack evs final tp Hr) as [Hf Hrace].
  destruct (Slot_run o slack evs) as [_ Hslot].
  unfold race_settled in Hrace. destruct final as [p|]; [|done].
  apply orb_false_elim in Hrace as [Hp _]. exists p. split; [done|].
  apply Hslot; [done|]. unfold is_settled in Hp.
  apply bool_decide_eq_false in Hp. by apply eq_None_not_Some.
Qed.

Lemma is_settled_resolve_final w p :
  finalResolve (vars w) = Some p → is_settled (resolve_final w) p = true.
Proof.
  intros Hp. unfold resolve_final. rewrite Hp.
  unfold is_settled. simpl.
  pose proof (settle_settles p Fulfilled
    (with_rt (λ r, set_finalCalls (finalCalls r ++ [p]) r) w)) as Hs.
  by unfold is_settled in Hs.
Qed.

Lemma on_message_final_settles m w p :
  signals_final m = true →
  flushEnded (stream w) = None →
  finalResolve (vars w) = Some p →
  is_settled (on_message m w) p = true.
Proof.
  assert (∀ error x, finalResolve (vars x) = Some p →
            is_settled (on_message_rest true error x) p = true) as Hrest.
  { intros error x Hx. unfold on_message_rest.
    pose proof (is_settled_resolve_final x p Hx) as Hs. by destruct error. }
  intros Hm He Hp. destruct m as [err|[|chunk|err] isFinal error]; simpl in *;
    try done; subst isFinal.
  - by apply Hrest.
  - rewrite He. destruct (activeController (vars w)); by apply Hrest.
Qed.

Lemma on_close_settles s code reason w p :
  finalResolve (vars w) = Some p →
  is_settled (on_close s code reason w) p = true
  ∧ finalResolve (vars (on_close s code reason w)) = None.
Proof.
  intros Hp. unfold on_close.
  assert (finalResolve (vars (forget_if_current s
            (console_log ("ElevenLabs: WebSocket closed (code: " +:+ code
               +:+ ", reason: " +:+ reason +:+ ")") w))) = Some p) as Hp'.
  { unfold forget_if_current. by destruct (ws_is s _). }
  split; [by apply is_settled_resolve_final|].
  unfold resolve_final. by rewrite Hp'.
Qed.

(** A handler that settles the awaited promise ends a waiting [flush] in the
    same turn of the event loop. *)
Lemma settled_waiter_ends_flush slack evs t0 p w' :
  let w := run o slack constructed evs in
  flushStarted (stream w) = Some t0 →
  flushEnded (stream w) = None →
  finalResolve (vars w) = Some p →
  flush_view w' = flush_view w →
  is_settled w' p = true →
  flushEnded (stream (drive o w')) = Some (now (rt w)).
Proof.
  intros w Hs He Hp Hv Hset.
  pose proof (run_flush_inv slack evs) as Hinv. fold w in Hinv.
  unfold FlushInv in Hinv. rewrite Hs, He in Hinv.
  destruct Hinv as (Hcl & Hq & Hnow & final & tp & Hr & _).
  destruct (drain_waiter slack evs final tp Hr) as (p' & -> & Hp'').
  fold w in Hp''. rewrite Hp in Hp''. injection Hp'' as <-.
  unfold flush_view in Hv.
  assert (now (rt w) = now (rt w')) as -> by congruence.
  apply (drive_settled slack (Some p) tp t0 w'); try congruence.
  unfold race_settled. by rewrite Hset.
Qed.

(** *** Before the first chunk *)

Lemma untouched_step slack w ev :
  is_write ev = false → untouched w → untouched (step o slack w ev).
Proof.
  intros Hev (Hsock & Hsent & Hws & Hr & Hq & Htimer).
  destruct ev as [token| |s|s m|s err|s code reason|dt| |s]; simpl in *; try done.
  - destruct (closeRequested (stream w)) eqn:Hcl; [done|]. rewrite Hr.
    unfold pump. simpl. rewrite Hq. simpl. rewrite Hr.
    destruct (flushStarted (stream w)); [done|].
    unfold flush, ws_open. simpl. by rewrite Hws.
  - by rewrite Hsock.
  - by rewrite Hsock.
  - by rewrite Hsock.
  - by rewrite Hsock.
  - by rewrite Htimer.
  - by rewrite Htimer.
  - by rewrite Hsock.
Qed.

Lemma untouched_run slack evs :
  Forall (λ ev, is_write ev = false) evs → untouched (run o slack constructed evs).
Proof.
  induction evs as [|ev evs IH] using rev_ind; intros Hevs; [done|].
  apply Forall_app in Hevs as [Hevs Hev]. rewrite Forall_singleton in Hev.
  rewrite adapter_run_snoc. by apply untouched_step, IH.
Qed.

(** *** A failed connection attempt *)

Lemma stuck_write slack err token w :
  stuck err w →
  step o slack w (WriteChunk token)
  = with_stream (set_pending [])
      (transform_catch err
         (with_stream (λ x, set_pending (pending x ++ [token]) x) w)).
Proof.
  intros (Hsd & Hws & (p & Hcp & Hp) & Hr & Hq & Hcl & Hfs).
  simpl. rewrite Hcl, Hr. unfold pump. simpl. rewrite Hq. simpl.
  unfold transform. simpl. rewrite Hsd.
  unfold ensureConnection, ws_open. simpl. rewrite Hws, Hcp.
  unfold await_pending. simpl. rewrite Hp. simpl.
  rewrite !Hr. simpl. by rewrite Hr, Hfs, Hcl.
Qed.

Lemma resolve_final_settles w p :
  finalResolve (vars w) = Some p →
  is_settled (resolve_final w) p = true
  ∧ finalResolve (vars (resolve_final w)) = None
  ∧ finalCalls (rt (resolve_final w)) = finalCalls (rt w) ++ [p].
Proof.
  intros Hp. unfold resolve_final. rewrite Hp.
  unfold is_settled, settle. simpl.
  destruct (settled (rt w) !! p) as [how|] eqn:Hl; simpl.
  - rewrite Hl. split; [by apply bool_decide_eq_true|done].
  - rewrite lookup_insert_eq. split; [by apply bool_decide_eq_true|done].
Qed.

(** Once stuck, every chunk written is dropped with the error of the failed
    attempt, and nothing else changes. *)
Lemma stuck_forever slack err later w0 :
  stuck err w0 →
  let w := run o slack w0 (map WriteChunk later) in
  stuck err w
  ∧ vars w = vars w0
  ∧ sockets (rt w) = sockets (rt w0)
  ∧ settled (rt w) = settled (rt w0)
  ∧ sent (rt w) = sent (rt w0)
  ∧ console (rt w)
    = console (rt w0)
      ++ replicate (length later) ("ElevenLabs: Error in transform: " +:+ err).
Proof.
  intros Hstuck0. induction later as [|tok later IH] using rev_ind.
  - simpl. by rewrite app_nil_r.
  - cbv zeta in *. destruct IH as (Hstuck & Hvars & Hsock & Hset & Hsent & Hcon).
    rewrite map_app. change (map WriteChunk [tok]) with [WriteChunk tok].
    rewrite adapter_run_snoc, (stuck_write slack err tok _ Hstuck).
    revert Hstuck Hvars Hsock Hset Hsent Hcon.
    generalize (run o slack w0 (map WriteChunk later)).
    intros wl (Hsd & Hws & Hp & Hr & Hq & Hcl & Hfs) Hvars Hsock Hset Hsent Hcon.
    unfold stuck. simpl.
    rewrite Hsd, Hws, Hr, Hcl, Hfs, Hcon, length_app. simpl.
    rewrite Nat.add_1_r, replicate_S_end, app_assoc.
    repeat split; done.
Qed.

End Adapter.

(** *** The stage at work *)

(** Two tokens, then the stream is closed; the remote sends one audio
    payload and then the final signal: [flush] returns when the signal
    arrives, well before its timer, and the output is that one chunk. *)
Example final_signal_scenario :
  let w := run zero_tuning 10 constructed
             [WriteChunk "Hello"; WriteChunk " world"; SockOpen 0;
              CloseWritable; Tick 100;
              SockMessage 0 (Response (Audio [Byte.x01; Byte.x02]) false None);
              Tick 50; SockMessage 0 final_signal; Tick 6000] in
  snd <$> sent (rt w)
  = [bosMessage zero_tuning; payload "Hello"; payload " world"; eosMessage]
  ∧ readable (stream w) = [[Byte.x01; Byte.x02]]
  ∧ flushStarted (stream w) = Some 0%N
  ∧ flushEnded (stream w) = Some 150%N
  ∧ ws (vars w) = None.
Proof. by vm_compute. Qed.

(** The remote stays silent: [flush] returns when its timer runs, here as
    late as the runtime may run it. *)
Example silent_remote_scenario :
  let w := run zero_tuning 10 constructed
             [WriteChunk "Hello"; SockOpen 0; Tick 40; CloseWritable; Tick 7000] in
  flushStarted (stream w) = Some 40%N
  ∧ flushEnded (stream w) = Some 5050%N
  ∧ now (rt w) = 7040%N.
Proof. by vm_compute. Qed.

(** The socket closes while [flush] waits: [flush] returns at once. *)
Example close_while_draining_scenario :
  let w := run zero_tuning 10 constructed
             [WriteChunk "Hello"; SockOpen 0; CloseWritable; Tick 300;
              SockClose 0 "1006" ""] in
  flushStarted (stream w) = Some 0%N
  ∧ flushEnded (stream w) = Some 300%N.
Proof. by vm_compute. Qed.

(** Two chunks written while no connection exists share one attempt. *)
Example one_attempt_for_two_tokens :
  let w := run zero_tuning 10 constructed
             [WriteChunk "Hello"; WriteChunk " world"; SockOpen 0] in
  length (sockets (rt w)) = 1
  ∧ snd <$> sent (rt w) = [bosMessage zero_tuning; payload "Hello"; payload " world"].
Proof. by vm_compute. Qed.

(** *** The claims about ElevenLabsTTSTransform *)

(** C1, what the code does.  The first chunk starts a connection attempt on
    socket 0; the attempt fails (["error"], then ["close"]).  The chunk is
    dropped with a log line and the stream goes on, but [connectionPromise]
    keeps the rejected attempt: every later chunk awaits it, is dropped with
    the same error, and no second socket is ever created. *)
Theorem failed_attempt_is_never_retried
    (o : ElevenLabsOptions) (slack : N) (token err code reason : string)
    (later : list string) :
  let failure := [WriteChunk token; SockError 0 err; SockClose 0 code reason] in
  let w0 := run o slack constructed failure in
  let w := run o slack constructed (failure ++ map WriteChunk later) in
  length (sockets (rt w)) = 1
  ∧ sent (rt w) = []
  ∧ ws (vars w) = None
  ∧ connectionPromise (vars w) = Some 1
  ∧ settled (rt w) !! 1 = Some (Rejected err)
  ∧ running (stream w) = None
  ∧ pending (stream w) = []
  ∧ console (rt w)
    = console (rt w0)
      ++ replicate (length later) ("ElevenLabs: Error in transform: " +:+ err).
Proof.
  intros failure w0 w.
  assert (stuck err w0) as Hstuck0.
  { unfold stuck. repeat split; try by vm_compute. exists 1. by vm_compute. }
  assert (length (sockets (rt w0)) = 1 ∧ sent (rt w0) = []
          ∧ connectionPromise (vars w0) = Some 1
          ∧ settled (rt w0) !! 1 = Some (Rejected err)) as (H1 & H2 & H3 & H4)
    by by vm_compute.
  subst w. rewrite adapter_run_app. fold w0.
  destruct (stuck_forever o slack err later w0 Hstuck0)
    as (Hstuck & Hvars & Hsock & Hset & Hsent & Hcon).
  destruct Hstuck as (_ & Hws & _ & Hr & Hq & _).
  rewrite Hsock, Hsent, Hset, Hvars, Hcon. rewrite Hvars in Hws.
  clearbody w0. repeat split; assumption.
Qed.

(** C2.  In every run, measured on the clock of the run: once [flush] has
    been called at time [t0] it returns at a time [t1] with
    [t1 ≤ t0 + flushTimeoutMs + slack], and while it has not returned the
    clock has not passed that bound.  [flushTimeoutMs] is the literal 5000
    of the source and [slack] is the lateness the runtime allows itself in
    running a due timer.  The bound holds whatever the remote does; when a
    message with the final signal arrives while [flush] waits, and when a
    socket closes while [flush] waits (the ["close"] handler resolves the
    waiter in the slot), [flush] returns at that very time. *)
Theorem flush_completes_within_timeout
    (o : ElevenLabsOptions) (slack : N) (evs : list Event) :
  let w := run o slack constructed evs in
  flushTimeoutMs = 5000%N
  ∧ (∀ t0, flushStarted (stream w) = Some t0 →
       match flushEnded (stream w) with
       | Some t1 => (t0 ≤ t1 ≤ t0 + flushTimeoutMs + slack)%N
       | None => (now (rt w) ≤ t0 + flushTimeoutMs + slack)%N
       end)
  ∧ (∀ t1, flushEnded (stream w) = Some t1 → is_Some (flushStarted (stream w)))
  ∧ (∀ t0 s m,
       flushStarted (stream w) = Some t0 → flushEnded (stream w) = None →
       signals_final m = true →
       readyState <$> sockets (rt w) !! s = Some OPEN
       ∨ readyState <$> sockets (rt w) !! s = Some CLOSING →
       flushEnded (stream (step o slack w (SockMessage s m))) = Some (now (rt w)))
  ∧ (∀ t0 s code reason st,
       flushStarted (stream w) = Some t0 → flushEnded (stream w) = None →
       readyState <$> sockets (rt w) !! s = Some st → st ≠ CLOSED →
       flushEnded (stream (step o slack w (SockClose s code reason)))
       = Some (now (rt w)))
  ∧ (∀ s code reason p, finalResolve (vars w) = Some p →
       is_settled (on_close s code reason w) p = true
       ∧ finalResolve (vars (on_close s code reason w)) = None).
Proof.
  intros w. pose proof (run_flush_inv o slack evs) as Hinv. fold w in Hinv.
  assert (∀ t0, flushStarted (stream w) = Some t0 → flushEnded (stream w) = None →
            ∃ p, finalResolve (vars w) = Some p) as Hslot.
  { intros t0 Hs He. unfold FlushInv in Hinv. rewrite Hs, He in Hinv.
    destruct Hinv as (_ & _ & _ & final & tp & Hr & _).
    destruct (drain_waiter o slack evs final tp Hr) as (p & _ & Hp). eauto. }
  split; [done|]. split; [|split; [|split; [|split]]].
  - intros t0 Hs. unfold FlushInv in Hinv. rewrite Hs in Hinv.
    destruct (flushEnded (stream w)) as [t1|].
    + by destruct Hinv as (_ & _ & _ & ?).
    + destruct Hinv as (_ & _ & ? & _). lia.
  - intros t1 He. unfold FlushInv in Hinv. rewrite He in Hinv.
    by destruct (flushStarted (stream w)).
  - intros t0 s m Hs He Hm Hsock. destruct (Hslot t0 Hs He) as [p Hp].
    assert (step o slack w (SockMessage s m) = drive o (on_message m w)) as ->.
    { simpl. by destruct Hsock as [-> | ->]. }
    apply (settled_waiter_ends_flush o slack evs t0 p); try done.
    + apply flush_view_on_message.
    + by apply on_message_final_settles.
  - intros t0 s code reason st Hs He Hsock Hst. destruct (Hslot t0 Hs He) as [p Hp].
    assert (step o slack w (SockClose s code reason)
            = drive o (on_close s code reason (set_socket_state s CLOSED w))) as ->.
    { simpl. rewrite Hsock. by destruct st. }
    apply (settled_waiter_ends_flush o slack evs t0 p); try done.
    + by rewrite flush_view_on_close.
    + by apply on_close_settles.
  - intros s code reason p Hp. by apply on_close_settles.
Qed.

(** C6, the claim as stated fails.  Once socket 0 is open, the chunk
    ["Hello"] goes out as the second message, after the begin message, and
    its hint is under the key [try_trigger_generation]: it is not the
    message the specification words. *)
Lemma token_message_is_not_spec_payload :
  let w := run zero_tuning 0 constructed [WriteChunk "Hello"; SockOpen 0] in
  sent (rt w) !! 1
  = Some (0, VObject [ ("text", VString "Hello");
                       ("try_trigger_generation", VBool true) ])
  ∧ sent (rt w) !! 1 ≠ Some (0, spec_payload "Hello").
Proof. split; [by vm_compute|]. vm_compute. discriminate. Qed.

(** C6, amended.  A chunk handed to [transform] while a socket is open and
    the stage is not shutting down is sent on that socket as
    [{ text: <token>, try_trigger_generation: true }], and nothing else is
    sent for it; in every run, every message sent is the begin message, the
    end message or such a token message. *)
Theorem token_message_shape
    (o : ElevenLabsOptions) (slack : N) (evs : list Event) (token : string) (w : World) :
  (∀ s, isShuttingDown (vars w) = false → ws_open w = Some s →
     sent (rt (transform o token w))
     = sent (rt w) ++ [(s, VObject [ ("text", VString token);
                                       ("try_trigger_generation", VBool true) ])])
  ∧ Forall (λ m, m.2 = bosMessage o ∨ m.2 = eosMessage ∨ ∃ tok, m.2 = payload tok)
      (sent (rt (run o slack constructed evs))).
Proof.
  split.
  - intros s Hsd Hopen. unfold transform. rewrite Hsd.
    unfold ensureConnection. rewrite Hopen. unfold transform_send. by rewrite Hopen.
  - apply (Safe_run o slack evs).
Qed.

(** C7, the claim as stated fails.  With [apiKey] and [voiceId] missing the
    constructor returns an instance all the same.  The missing values show
    only when the first chunk is written: the socket is opened on a URL with
    [undefined] in the place of the voice, and the begin message has no
    credential. *)
Lemma missing_credentials_construct :
  constructor no_options = Constructed constructed
  ∧ url <$> sockets (rt (run no_options 0 constructed [WriteChunk "Hi"]))
    = [ "wss://api.elevenlabs.io/v1/text-to-speech/undefined/stream-input?model_id=eleven_monolingual_v1&output_format=pcm_16000" ]
  ∧ sent (rt (run no_options 0 constructed [WriteChunk "Hi"; SockOpen 0])) !! 0
    = Some (0, VObject [ ("text", VString " ");
                         ("voice_settings",
                          VObject [ ("stability", VNumber 0.5);
                                    ("similarity_boost", VNumber 0.75) ]);
                         ("xi_api_key", VUndefined) ]).
Proof. split; [reflexivity|]. split; by vm_compute. Qed.

(** C7, amended.  The constructor never fails and reads none of the
    options: whatever [apiKey] and [voiceId] are, it returns the same
    initial instance, with no socket created and nothing sent, and as long
    as no chunk is written no socket is created and nothing is sent, whatever
    else happens.  The options are first used when the first chunk is
    written, which opens one socket on [getWebSocketUrl]. *)
Theorem constructor_never_fails
    (o : ElevenLabsOptions) (slack : N) (token : string) (evs : list Event) :
  constructor o = Constructed constructed
  ∧ sockets (rt constructed) = []
  ∧ sent (rt constructed) = []
  ∧ (Forall (λ ev, is_write ev = false) evs →
       sockets (rt (run o slack constructed evs)) = []
       ∧ sent (rt (run o slack constructed evs)) = [])
  ∧ sockets (rt (run o slack constructed [WriteChunk token]))
    = [ {| url := getWebSocketUrl o; readyState := CONNECTING; attempt := 1 |} ].
Proof.
  split; [done|]. split; [done|]. split; [done|]. split; [|done].
  intros Hevs. by destruct (untouched_run o slack evs Hevs) as (? & ? & _).
Qed.

(** C9.  The stage has one slot for the flush waiter, [finalResolve].  In
    every run each waiter is resolved at most once, and a waiter still in
    the slot has not been resolved.  A final signal resolves the waiter in
    the slot and empties the slot; with the slot empty a message resolves
    nothing, so a second final signal changes nothing at all, and neither
    does a final signal after a ["close"], which empties the slot too. *)
Theorem final_waiter_resolved_at_most_once
    (o : ElevenLabsOptions) (slack : N) (evs : list Event) (w : World)
    (m : Inbound) (s : SocketId) (code reason : string) :
  let reached := run o slack constructed evs in
  NoDup (finalCalls (rt reached))
  ∧ (∀ p, finalResolve (vars reached) = Some p → p ∉ finalCalls (rt reached))
  ∧ (∀ p, finalResolve (vars w) = Some p →
       finalResolve (vars (on_message final_signal w)) = None
       ∧ is_settled (on_message final_signal w) p = true
       ∧ finalCalls (rt (on_message final_signal w)) = finalCalls (rt w) ++ [p])
  ∧ (finalResolve (vars w) = None →
       finalResolve (vars (on_message m w)) = None
       ∧ finalCalls (rt (on_message m w)) = finalCalls (rt w)
       ∧ settled (rt (on_message m w)) = settled (rt w))
  ∧ on_message final_signal (on_message final_signal w) = on_message final_signal w
  ∧ on_message final_signal (on_close s code reason w) = on_close s code reason w.
Proof.
  intros reached.
  assert (∀ x, finalResolve (vars (resolve_final x)) = None) as Hcleared.
  { intros x. unfold resolve_final.
    destruct (finalResolve (vars x)) as [p|] eqn:Hp; [done|]. by rewrite Hp. }
  assert (∀ x, finalResolve (vars x) = None → resolve_final x = x) as Hnoop.
  { intros x Hx. unfold resolve_final. by rewrite Hx. }
  destruct (Safe_run o slack evs) as [_ (Hnd & _ & Hslot)]. fold reached in Hnd, Hslot.
  split; [done|]. split; [intros p Hp; by apply Hslot|].
  split; [|split; [|split]].
  - intros p Hp. change (on_message final_signal w) with (resolve_final w).
    by destruct (resolve_final_settles w p Hp) as (? & ? & ?).
  - intros Hnone.
    assert (∀ isFinal error x, finalResolve (vars x) = None →
              finalResolve (vars (on_message_rest isFinal error x)) = None
              ∧ finalCalls (rt (on_message_rest isFinal error x)) = finalCalls (rt x)
              ∧ settled (rt (on_message_rest isFinal error x)) = settled (rt x))
      as Hrest.
    { intros isFinal error x Hx. unfold on_message_rest.
      destruct isFinal; rewrite ?(Hnoop x Hx); by destruct error. }
    destruct m as [err|[|chunk|err] isFinal error]; simpl; try done.
    + by apply Hrest.
    + destruct (activeController (vars w)); [|by apply Hrest].
      destruct (flushEnded (stream w)); [done|].
      by apply (Hrest isFinal error
                  (with_stream (λ x, set_readable (readable x ++ [chunk]) x) w)).
  - change (on_message final_signal (on_message final_signal w))
      with (resolve_final (resolve_final w)).
    by rewrite (Hnoop _ (Hcleared w)).
  - change (on_message final_signal (on_close s code reason w))
      with (resolve_final (on_close s code reason w)).
    apply Hnoop. unfold on_close. apply Hcleared.
Qed.

(** C10.  The begin message takes its tuning parameters through [||]: a
    [stability] or [similarityBoost] of zero gives way to the default, 0.5
    and 0.75, so whatever the options are the begin message never carries a
    zero; and the ["open"] handler sends exactly that message. *)
Theorem zero_tuning_sends_defaults
    (o : ElevenLabsOptions) (s : SocketId) (p : PromiseId) (w : World) :
  bosMessage o
  = VObject [ ("text", VString " ");
              ("voice_settings",
               VObject [ ("stability", VNumber (number_or (stability o) 0.5));
                         ("similarity_boost",
                          VNumber (number_or (similarityBoost o) 0.75)) ]);
              ("xi_api_key", of_optional_string (apiKey o)) ]
  ∧ number_or (Some 0%float) 0.5 = 0.5%float
  ∧ number_or (Some 0%float) 0.75 = 0.75%float
  ∧ (stability o = Some 0%float → number_or (stability o) 0.5 = 0.5%float)
  ∧ (similarityBoost o = Some 0%float → number_or (similarityBoost o) 0.75 = 0.75%float)
  ∧ (number_or (stability o) 0.5 =? 0)%float = false
  ∧ (number_or (similarityBoost o) 0.75 =? 0)%float = false
  ∧ sent (rt (on_open o s p w)) = sent (rt w) ++ [(s, bosMessage o)]
  ∧ bosMessage zero_tuning
    = VObject [ ("text", VString " ");
                ("voice_settings",
                 VObject [ ("stability", VNumber 0.5);
                           ("similarity_boost", VNumber 0.75) ]);
                ("xi_api_key", VString "key") ].
Proof.
  assert (∀ a d, (d =? 0)%float = false → (number_or a d =? 0)%float = false) as Hnz.
  { intros a d Hd. unfold number_or. destruct a as [x|]; [|done].
    unfold truthy_number. destruct (x =? 0)%float eqn:Hx; simpl; [done|].
    by destruct (x =? x)%float. }
  split; [done|]. split; [done|]. split; [done|].
  split; [by intros ->|]. split; [by intros ->|].
  split; [by apply Hnz|]. split; [by apply Hnz|]. split; [|done].
  unfold on_open. simpl.
  by destruct (settle_rt p Fulfilled
       (with_vars (set_ws (Some s))
          (ws_send s (bosMessage o)
             (console_log "ElevenLabs: WebSocket connected" w))))
    as (_ & _ & _ & _ & -> & _).
Qed.

End ElevenLabsFacts.

Module FillerStageFacts.
Import Filler FillerFacts.

Section Stage.
Context (c : Fields).

Lemma notify_frame w :
  queue (notifyProcessingStarted c w) = queue w
  ∧ uncaught (notifyProcessingStarted c w) = uncaught w
  ∧ console (notifyProcessingStarted c w) = console w
  ∧ controller (self (notifyProcessingStarted c w)) = controller (self w).
Proof.
  unfold notifyProcessingStarted. destruct (enabled c); simpl; [|done].
  destruct (timeoutId (self w)); simpl; by destruct (intervalId (self w)).
Qed.

Lemma clearBoth_console w : console (clearBoth w) = console w.
Proof.
  unfold clearBoth.
  destruct (timeoutId (self w)); simpl; by destruct (intervalId (self w)).
Qed.

(** What a call of [emitFiller] does, in full: nothing, or one phrase read
    at the drawn index, logged, enqueued and counted, and then the observer's
    verdict. *)
Lemma emitFiller_effect rnd w :
  emitFiller c rnd w = (w, None)
  ∨ (controller (self w) = true
     ∧ hasReceivedResponse (self w) = false
     ∧ (fillersEmittedThisTurn (self w) < maxFillersPerTurn c)%Z
     ∧ emitFiller c rnd w = (emitted c rnd w, verdict c rnd)).
Proof.
  unfold emitFiller, verdict.
  destruct (controller (self w)) eqn:Hc; simpl; [|by left].
  destruct (hasReceivedResponse (self w)) eqn:Hr; simpl; [by left|].
  destruct (Z.leb_spec (maxFillersPerTurn c) (fillersEmittedThisTurn (self w)));
    simpl; [by left|].
  right.
  destruct (onFillerEmitted c) as [cb|]; [destruct (cb _)|]; done.
Qed.

(** The effect of one event on what the stage shows to the outside: the
    chunk of a [Transform] is enqueued, a timer callback may enqueue and log
    one phrase and may let the observer's error through, and nothing else
    happens. *)
Lemma step_effect w ev :
  let w' := step c w ev in
  controller (self w') = controller (self w)
  ∧ ((queue w' = queue w ++ tokens_of [ev]
      ∧ console w' = console w
      ∧ uncaught w' = uncaught w
      ∧ (is_notify ev = false →
         fillersEmittedThisTurn (self w') = fillersEmittedThisTurn (self w)))
     ∨ (∃ rnd,
          draw_of ev = Some rnd
          ∧ tokens_of [ev] = []
          ∧ is_notify ev = false
          ∧ controller (self w) = true
          ∧ hasReceivedResponse (self w) = false
          ∧ (fillersEmittedThisTurn (self w) < maxFillersPerTurn c)%Z
          ∧ queue w' = queue w ++ [FillerPhrase (fillerPhrases c !! rnd)]
          ∧ console w' = console w ++ [line_of (fillerPhrases c !! rnd)]
          ∧ fillersEmittedThisTurn (self w') = (fillersEmittedThisTurn (self w) + 1)%Z
          ∧ uncaught w' = uncaught w ++ from_option (λ e, [e]) [] (verdict c rnd))).
Proof.
  destruct ev as [|chunk| | |h rnd|h rnd]; simpl.
  - destruct (notify_frame w) as (-> & -> & -> & ->).
    split; [done|]. left. by rewrite app_nil_r.
  - unfold transform. simpl. rewrite clearBoth_console.
    destruct (clearBoth_frame w) as (-> & -> & -> & _ & ->).
    split; [done|]. left. done.
  - unfold flush. rewrite clearBoth_console.
    destruct (clearBoth_frame w) as (-> & -> & -> & _ & ->).
    split; [done|]. left. by rewrite app_nil_r.
  - unfold cancelPendingFiller. simpl. rewrite clearBoth_console.
    destruct (clearBoth_frame w) as (-> & -> & -> & _ & ->).
    split; [done|]. left. by rewrite app_nil_r.
  - destruct (timers w !! h) as [[[] d]|];
      try (split; [done|]; left; by rewrite app_nil_r).
    unfold timeoutCallback.
    destruct (emitFiller_effect rnd (clearTimer h w))
      as [->|(Hc & Hr & Hlt & ->)].
    + destruct (1 <? maxFillersPerTurn c)%Z; simpl;
        (split; [done|]; left; by rewrite app_nil_r).
    + simpl in Hc, Hr, Hlt.
      destruct (verdict c rnd) as [err|] eqn:Hv;
        [|destruct (1 <? maxFillersPerTurn c)%Z]; simpl;
        (split; [done|]; right; exists rnd; rewrite Hv, ?app_nil_r; done).
  - destruct (timers w !! h) as [[[] d]|];
      try (split; [done|]; left; by rewrite app_nil_r).
    unfold intervalCallback.
    destruct (_ && _).
    + destruct (emitFiller_effect rnd w) as [->|(Hc & Hr & Hlt & ->)].
      * split; [done|]. left. by rewrite app_nil_r.
      * destruct (verdict c rnd) as [err|] eqn:Hv; simpl;
          (split; [done|]; right; exists rnd; rewrite Hv, ?app_nil_r; done).
    + destruct (intervalId (self w)); simpl;
        (split; [done|]; left; by rewrite app_nil_r).
Qed.


Lemma step_controller w ev : controller (self (step c w ev)) = controller (self w).
Proof. apply step_effect. Qed.

Lemma filler_run_controller evs : controller (self (run c constructed evs)) = true.
Proof.
  induction evs as [|ev evs IH] using rev_ind; [done|].
  by rewrite filler_run_snoc, step_controller.
Qed.

Lemma real_tokens_app q q' : real_tokens (q ++ q') = real_tokens q ++ real_tokens q'.
Proof. apply filter_app. Qed.

Lemma real_tokens_of evs : real_tokens (tokens_of evs) = tokens_of evs.
Proof.
  induction evs as [|[] evs IH]; simpl; try done.
  unfold real_tokens in *. rewrite filter_cons_True by done. by rewrite IH.
Qed.

Lemma lines_of_app q q' : lines_of (q ++ q') = lines_of q ++ lines_of q'.
Proof. apply omap_app. Qed.

Lemma lines_of_tokens evs : lines_of (tokens_of evs) = [].
Proof. induction evs as [|[] evs IH]; done. Qed.

Lemma step_counter_nonneg w ev :
  (0 ≤ fillersEmittedThisTurn (self w))%Z →
  (0 ≤ fillersEmittedThisTurn (self (step c w ev)))%Z.
Proof.
  intros H0. destruct (is_notify ev) eqn:Hn.
  - destruct ev; try done. simpl. unfold notifyProcessingStarted.
    destruct (enabled c); simpl; [|done].
    destruct (timeoutId (self w)); simpl; by destruct (intervalId (self w)).
  - destruct (step_effect w ev) as (_ & [(_ & _ & _ & Hc)|(rnd & _ & _ & _ & _ & _ & _ & _ & _ & Hc & _)]).
    + rewrite Hc; done.
    + rewrite Hc. lia.
Qed.

Lemma run_counter_nonneg evs :
  (0 ≤ fillersEmittedThisTurn (self (run c constructed evs)))%Z.
Proof.
  induction evs as [|ev evs IH] using rev_ind; [done|].
  rewrite filler_run_snoc. by apply step_counter_nonneg.
Qed.

(** *** Which timers are armed *)

Lemma configured_sub w w' :
  (∀ h x, timers w' !! h = Some x → timers w !! h = Some x) →
  timers_configured c w → timers_configured c w'.
Proof. intros Hsub Hw h k d Hl. apply (Hw h k d), Hsub, Hl. Qed.

Lemma clearBoth_sub w h x : timers (clearBoth w) !! h = Some x → timers w !! h = Some x.
Proof.
  rewrite clearBoth_timers.
  destruct (intervalId (self w)), (timeoutId (self w)); simpl;
    rewrite ?lookup_delete_Some; tauto.
Qed.

Lemma step_configured w ev : timers_configured c w → timers_configured c (step c w ev).
Proof.
  intros Hw. destruct ev as [|chunk| | |h rnd|h rnd]; simpl.
  - unfold notifyProcessingStarted. destruct (enabled c) eqn:He; simpl; [|done].
    intros h k d.
    destruct (timeoutId (self w)); simpl; destruct (intervalId (self w)); simpl;
      rewrite lookup_insert_Some, ?lookup_delete_Some;
      (intros [[_ [= <- <-]]|Hl]; [by left|apply (Hw h k d); tauto]).
  - apply (configured_sub w); [|done]. unfold transform. simpl. apply clearBoth_sub.
  - apply (configured_sub w); [|done]. apply clearBoth_sub.
  - apply (configured_sub w); [|done]. unfold cancelPendingFiller. simpl.
    apply clearBoth_sub.
  - destruct (timers w !! h) as [[[] d]|]; try done.
    unfold timeoutCallback.
    assert (timers_configured c (clearTimer h w)) as Hw'.
    { apply (configured_sub w); [|done]. simpl. intros h' x.
      rewrite lookup_delete_Some. tauto. }
    destruct (emitFiller_effect rnd (clearTimer h w)) as [->|(_ & _ & _ & ->)].
    + destruct (Z.ltb_spec 1 (maxFillersPerTurn c)); simpl; [|done].
      intros h' k' d'. simpl. rewrite lookup_insert_Some.
      intros [[_ [= <- <-]]|[_ Hl]]; [by right|by apply (Hw' h' k' d')].
    + destruct (verdict c rnd); [done|].
      destruct (Z.ltb_spec 1 (maxFillersPerTurn c)); simpl; [|done].
      intros h' k' d'. simpl. rewrite lookup_insert_Some.
      intros [[_ [= <- <-]]|[_ Hl]]; [by right|by apply (Hw' h' k' d')].
  - destruct (timers w !! h) as [[[] d]|]; try done.
    unfold intervalCallback. destruct (_ && _).
    + destruct (emitFiller_effect rnd w) as [->|(_ & _ & _ & ->)]; [done|].
      by destruct (verdict c rnd).
    + destruct (intervalId (self w)); [|done].
      apply (configured_sub w); [|done]. simpl. intros h' x.
      rewrite lookup_delete_Some. tauto.
Qed.

Lemma run_configured evs : timers_configured c (run c constructed evs).
Proof.
  induction evs as [|ev evs IH] using rev_ind.
  - intros h k d. simpl. by rewrite lookup_empty.
  - rewrite filler_run_snoc. by apply step_configured.
Qed.

(** *** The output, the console and the escaped errors of a run *)

Lemma run_real_tokens evs : real_tokens (queue (run c constructed evs)) = tokens_of evs.
Proof.
  induction evs as [|ev evs IH] using rev_ind; [done|].
  rewrite filler_run_snoc, tokens_of_app, <- IH.
  destruct (step_effect (run c constructed evs) ev)
    as (_ & [(-> & _)|(rnd & _ & -> & _ & _ & _ & _ & -> & _)]).
  - by rewrite real_tokens_app, real_tokens_of.
  - by rewrite real_tokens_app.
Qed.

Lemma run_console evs :
  console (run c constructed evs) = lines_of (queue (run c constructed evs)).
Proof.
  induction evs as [|ev evs IH] using rev_ind; [done|].
  rewrite filler_run_snoc.
  destruct (step_effect (run c constructed evs) ev)
    as (_ & [(-> & -> & _)|(rnd & _ & _ & _ & _ & _ & _ & -> & -> & _)]).
  - by rewrite lines_of_app, lines_of_tokens, app_nil_r.
  - by rewrite lines_of_app, IH.
Qed.

Lemma run_drawn evs : Forall (drawn_from c) (queue (run c constructed evs)).
Proof.
  induction evs as [|ev evs IH] using rev_ind; [by constructor|].
  rewrite filler_run_snoc.
  destruct (step_effect (run c constructed evs) ev)
    as (_ & [(-> & _)|(rnd & _ & _ & _ & _ & _ & _ & -> & _)]).
  - apply Forall_app. split; [done|].
    destruct ev; simpl; by repeat constructor.
  - apply Forall_app. split; [done|]. repeat constructor. by exists rnd.
Qed.

Lemma run_uncaught evs :
  Forall (λ err, ∃ cb rnd, onFillerEmitted c = Some cb
                           ∧ cb (fillerPhrases c !! rnd) = Throws err)
    (uncaught (run c constructed evs))
  ∧ (length (uncaught (run c constructed evs))
     ≤ length (console (run c constructed evs)))%nat.
Proof.
  induction evs as [|ev evs [IH IHn]] using rev_ind; [split; [by constructor|done]|].
  rewrite filler_run_snoc.
  destruct (step_effect (run c constructed evs) ev)
    as (_ & [(_ & -> & -> & _)|(rnd & _ & _ & _ & _ & _ & _ & _ & -> & _ & ->)]);
    [done|].
  rewrite !length_app. unfold verdict.
  destruct (onFillerEmitted c) as [cb|] eqn:Hcb;
    [destruct (cb (fillerPhrases c !! rnd)) as [|err] eqn:Hv|]; simpl;
    rewrite ?app_nil_r; (split; [|lia]); try done.
  apply Forall_app. split; [done|]. repeat constructor. by exists cb, rnd.
Qed.


Lemma no_fillers_all_tokens q : fillers q = 0%Z → real_tokens q = q.
Proof.
  unfold fillers, real_tokens. induction q as [|x q IH]; [done|].
  rewrite !filter_cons. destruct x as [t|p]; simpl.
  - intros H. by rewrite IH.
  - lia.
Qed.

Lemma run_in_range evs :
  draws_in_range c evs →
  Forall (λ x, is_filler x = true →
               ∃ p, x = FillerPhrase (Some p) ∧ p ∈ fillerPhrases c)
    (queue (run c constructed evs)).
Proof.
  induction evs as [|ev evs IH] using rev_ind; intros Hd; [by constructor|].
  apply Forall_app in Hd as [Hevs Hev]. rewrite Forall_singleton in Hev.
  rewrite filler_run_snoc.
  destruct (step_effect (run c constructed evs) ev)
    as (_ & [(-> & _)|(rnd & Hrnd & _ & _ & _ & _ & _ & -> & _)]).
  - apply Forall_app. split; [by apply IH|].
    destruct ev; simpl; by repeat constructor.
  - apply Forall_app. split; [by apply IH|]. repeat constructor. intros _.
    destruct (lookup_lt_is_Some_2 (fillerPhrases c) rnd (Hev rnd Hrnd)) as [p Hp].
    exists p. rewrite Hp. split; [done|]. by apply list_elem_of_lookup_2 with rnd.
Qed.

Lemma run_no_budget evs :
  (maxFillersPerTurn c ≤ 0)%Z →
  queue (run c constructed evs) = tokens_of evs.
Proof.
  intros Hmax. induction evs as [|ev evs IH] using rev_ind; [done|].
  rewrite filler_run_snoc, tokens_of_app, <- IH.
  destruct (step_effect (run c constructed evs) ev)
    as (_ & [(-> & _)|(rnd & _ & _ & _ & _ & _ & Hlt & _)]); [done|].
  pose proof (run_counter_nonneg evs). lia.
Qed.

End Stage.

(** *** Further properties of ThinkingFillerTransform *)

(** X1.  The stage is a pass-through for real tokens: whatever the timers
    do in between, the chunks handed to [transform] appear on the readable
    side unchanged, each once, in the order in which they were written. *)
Theorem tokens_forwarded_in_order (c : Fields) (evs : list Event) :
  real_tokens (queue (run c constructed evs)) = tokens_of evs.
Proof. apply run_real_tokens. Qed.

(** X2.  With [enabled: false], [notifyProcessingStarted] returns at once:
    no timer is ever armed, nothing is logged, and the readable side carries
    exactly the chunks handed to [transform]. *)
Theorem disabled_stage_is_a_passthrough (c : Fields) (evs : list Event) :
  enabled c = false →
  let w := run c constructed evs in
  queue w = tokens_of evs ∧ timers w = ∅ ∧ console w = [] ∧ uncaught w = [].
Proof.
  intros He w. destruct (run_disabled c evs He) as (Ht & Hf & _). fold w in Ht, Hf.
  assert (queue w = tokens_of evs) as Hq.
  { rewrite <- (no_fillers_all_tokens _ Hf). apply run_real_tokens. }
  assert (console w = []) as Hc.
  { unfold w. rewrite run_console. fold w. rewrite Hq. apply lines_of_tokens. }
  repeat split; try done.
  destruct (run_uncaught c evs) as [_ Hle]. fold w in Hle. rewrite Hc in Hle.
  destruct (uncaught w); [done|simpl in Hle; lia].
Qed.

Lemma disabled_stage_is_a_passthrough_witness :
  let evs := [NotifyProcessingStarted; TimeoutFires 1%positive 0; Transform "Hello";
              NotifyProcessingStarted; IntervalFires 2%positive 1] in
  let w := run switched_off constructed evs in
  enabled switched_off = false
  ∧ queue w = tokens_of evs ∧ timers w = ∅ ∧ console w = [] ∧ uncaught w = [].
Proof.
  split; [reflexivity|].
  exact (disabled_stage_is_a_passthrough switched_off _ eq_refl).
Defined.

(** X3.  The constructor keeps a [maxFillersPerTurn] of zero (its default
    applies only to a missing option), and with a maximum of zero or less
    the guard of [emitFiller] never lets a phrase through: the stage
    enqueues exactly the chunks handed to [transform]. *)
Theorem zero_maximum_emits_no_filler
    (o : ThinkingFillerOptions) (m : Z) (evs : list Event) :
  opt_maxFillersPerTurn o = Some m →
  (m ≤ 0)%Z →
  maxFillersPerTurn (constructor_fields o) = m
  ∧ queue (run (constructor_fields o) constructed evs) = tokens_of evs.
Proof.
  intros Ho Hm.
  assert (maxFillersPerTurn (constructor_fields o) = m) as Hmax
    by (simpl; by rewrite Ho).
  split; [done|]. apply run_no_budget. lia.
Qed.

Lemma zero_maximum_emits_no_filler_witness :
  let o := {| opt_thresholdMs := None; opt_fillerPhrases := None;
              opt_enabled := None; opt_maxFillersPerTurn := Some 0%Z;
              opt_fillerIntervalMs := None; opt_onFillerEmitted := None |} in
  let evs := [NotifyProcessingStarted; TimeoutFires 1%positive 0; Transform "Hello"] in
  maxFillersPerTurn (constructor_fields o) = 0%Z
  ∧ queue (run (constructor_fields o) constructed evs) = tokens_of evs.
Proof.
  apply (zero_maximum_emits_no_filler _ 0%Z); [reflexivity|lia].
Defined.

(** X4.  When every draw is an index of the phrase list, every filler on
    the readable side is one of the configured phrases. *)
Theorem fillers_are_configured_phrases (c : Fields) (evs : list Event) (x : Emitted) :
  draws_in_range c evs →
  x ∈ queue (run c constructed evs) →
  is_filler x = true →
  ∃ p, x = FillerPhrase (Some p) ∧ p ∈ fillerPhrases c.
Proof.
  intros Hd Hx. pose proof (run_in_range c evs Hd) as H.
  rewrite Forall_forall in H. by apply H.
Qed.

Lemma fillers_are_configured_phrases_witness :
  ∃ p, FillerPhrase (Some "Ah, let me check...") = FillerPhrase (Some p)
       ∧ p ∈ fillerPhrases playground.
Proof.
  apply (fillers_are_configured_phrases playground
           [NotifyProcessingStarted; TimeoutFires 1%positive 2]).
  - unfold draws_in_range. constructor; [intros rnd [=]|].
    constructor; [intros rnd [= <-]; simpl; lia|]. constructor.
  - vm_compute. left.
  - reflexivity.
Defined.

(** X5.  An empty phrase list does not switch the stage off.  Every index
    reads [undefined], so every filler the stage enqueues is [undefined],
    and the threshold timer of a turn does enqueue one. *)
Theorem empty_phrase_list_enqueues_undefined
    (c : Fields) (evs : list Event) (rnd : nat) :
  fillerPhrases c = [] →
  enabled c = true →
  (1 ≤ maxFillersPerTurn c)%Z →
  (∀ p, FillerPhrase p ∈ queue (run c constructed evs) → p = None)
  ∧ queue (run c constructed [NotifyProcessingStarted; TimeoutFires 1%positive rnd])
    = [FillerPhrase None]
  ∧ console (run c constructed [NotifyProcessingStarted; TimeoutFires 1%positive rnd])
    = [line_of None].
Proof.
  intros Hp He Hmax. split.
  - intros p Hin. pose proof (run_drawn c evs) as H. rewrite Forall_forall in H.
    destruct (H _ Hin) as [i ->]. rewrite Hp. apply lookup_nil.
  - unfold run. simpl. unfold notifyProcessingStarted. rewrite He. simpl.
    rewrite lookup_insert_eq. unfold timeoutCallback, emitFiller. simpl.
    destruct (Z.leb_spec (maxFillersPerTurn c) 0); [lia|]. rewrite Hp. simpl.
    rewrite !lookup_nil.
    destruct (onFillerEmitted c) as [cb|]; [destruct (cb None)|]; simpl;
      try destruct (1 <? maxFillersPerTurn c)%Z; done.
Qed.

Lemma empty_phrase_list_enqueues_undefined_witness :
  let evs := [NotifyProcessingStarted; TimeoutFires 1%positive 0; IntervalFires 2%positive 3] in
  (∀ p, FillerPhrase p ∈ queue (run no_phrases constructed evs) → p = None)
  ∧ queue (run no_phrases constructed [NotifyProcessingStarted; TimeoutFires 1%positive 7])
    = [FillerPhrase None]
  ∧ console (run no_phrases constructed [NotifyProcessingStarted; TimeoutFires 1%positive 7])
    = [line_of None].
Proof.
  apply (empty_phrase_list_enqueues_undefined no_phrases);
    [reflexivity | reflexivity | simpl; lia].
Defined.

(** X7.  With at most one filler per turn (the default) the repeat interval
    is never armed: the only timer the stage ever arms is the threshold
    timeout. *)
Theorem single_filler_never_arms_interval
    (c : Fields) (evs : list Event) (h : Handle) (k : TimerKind) (d : Z) :
  (maxFillersPerTurn c ≤ 1)%Z →
  timers (run c constructed evs) !! h = Some (k, d) →
  k = Timeout ∧ d = thresholdMs c.
Proof.
  intros Hmax Hl.
  destruct (run_configured c evs _ _ _ Hl) as [(-> & -> & _)|(_ & _ & ?)];
    [done|lia].
Qed.

Lemma single_filler_never_arms_interval_witness :
  Timeout = Timeout ∧ 1200%Z = thresholdMs playground.
Proof.
  apply (single_filler_never_arms_interval playground
           [NotifyProcessingStarted; TimeoutFires 1%positive 0; NotifyProcessingStarted]
           2%positive);
    [simpl; lia | vm_compute; reflexivity].
Defined.

End FillerStageFacts.

(** ** ThinkingFillerTransform inside its stream: closed streams and
    observers that call back *)

Module FillerStreamFacts.
Import Filler FillerFacts FillerStageFacts FillerStream.

Section Stream.
Context (c : Config).

Lemma stream_run_snoc st evs ev :
  run c st (evs ++ [ev]) = step c (run c st evs) ev.
Proof. unfold run. by rewrite foldl_app. Qed.

(** *** What a call back into the stage leaves alone *)

Lemma cancel_frame w :
  queue (cancelPendingFiller w) = queue w
  ∧ uncaught (cancelPendingFiller w) = uncaught w
  ∧ console (cancelPendingFiller w) = console w
  ∧ controller (self (cancelPendingFiller w)) = controller (self w).
Proof.
  unfold cancelPendingFiller. simpl. rewrite clearBoth_console.
  by destruct (clearBoth_frame w) as (-> & -> & _ & _ & ->).
Qed.

Lemma call_frame m w :
  queue (call c m w) = queue w
  ∧ uncaught (call c m w) = uncaught w
  ∧ console (call c m w) = console w
  ∧ controller (self (call c m w)) = controller (self w).
Proof. destruct m; simpl; [apply notify_frame|apply cancel_frame]. Qed.

Lemma calls_frame ms w :
  let w' := foldl (λ w' m, call c m w') w ms in
  queue w' = queue w ∧ uncaught w' = uncaught w ∧ console w' = console w
  ∧ controller (self w') = controller (self w).
Proof.
  revert w. induction ms as [|m ms IH]; intros w; simpl; [done|].
  destruct (IH (call c m w)) as (-> & -> & -> & ->). apply call_frame.
Qed.

(** The error the observer ends with. *)
Lemma observe_verdict p w : (observe c p w).2 = match onFillerEmitted (fields c) with
                                               | Some cb => match cb p with
                                                            | Returns => None
                                                            | Throws err => Some err
                                                            end
                                               | None => None
                                               end.
Proof. unfold observe. by destruct (onFillerEmitted (fields c)). Qed.

Lemma observe_frame p w :
  let w' := (observe c p w).1 in
  queue w' = queue w ∧ uncaught w' = uncaught w ∧ console w' = console w
  ∧ controller (self w') = controller (self w).
Proof.
  unfold observe. destruct (onFillerEmitted (fields c)); simpl; [|done].
  apply calls_frame.
Qed.

Lemma observe_plain p w : no_reentry c → (observe c p w).1 = w.
Proof.
  intros Hn. unfold observe. destruct (onFillerEmitted (fields c)); simpl; [|done].
  by rewrite Hn.
Qed.

(** *** What one call of [emitFiller] does *)

Lemma emitFiller_cases rnd st :
  emitFiller c rnd st = (st, None)
  ∨ (lets_through c (world st)
     ∧ closed st = true
     ∧ emitFiller c rnd st
       = ({| world := console_log (line_of (fillerPhrases (fields c) !! rnd)) (world st);
             closed := true |}, Some enqueue_error))
  ∨ (lets_through c (world st)
     ∧ closed st = false
     ∧ emitFiller c rnd st
       = ({| world := (observe c (fillerPhrases (fields c) !! rnd)
                         (emitted (fields c) rnd (world st))).1;
             closed := false |},
          verdict (fields c) rnd)).
Proof.
  unfold emitFiller, lets_through.
  destruct (controller (self (world st))) eqn:Hc; simpl; [|by left].
  destruct (hasReceivedResponse (self (world st))) eqn:Hr; simpl; [by left|].
  destruct (Z.leb_spec (maxFillersPerTurn (fields c))
              (fillersEmittedThisTurn (self (world st)))); simpl; [by left|].
  right. destruct (closed st) eqn:Hcl; [left; done|right].
  split; [done|]. split; [done|].
  fold (line_of (fillerPhrases (fields c) !! rnd)).
  fold (emitted (fields c) rnd (world st)).
  pose proof (observe_verdict (fillerPhrases (fields c) !! rnd)
                (emitted (fields c) rnd (world st))) as Hv.
  destruct (observe c _ _) as [w4 err]. simpl in *. unfold verdict. by rewrite Hv.
Qed.


(** *** What one event does to the output, the console and the errors *)

(** A timer event either leaves all three alone, or it is an emission: on
    an open stream the phrase is logged and enqueued and the observer's
    error, if any, escapes; on a closed one the phrase is logged and the
    error of [controller.enqueue] escapes.  Every other event leaves console
    and errors alone, and a [Transform] on an open stream enqueues its
    chunk. *)
Lemma stream_step_effect st ev :
  let st' := step c st ev in
  closed st' = closed st || is_flush ev
  ∧ controller (self (world st')) = controller (self (world st))
  ∧ ((queue (world st')
      = queue (world st) ++ (if closed st then [] else tokens_of [ev])
      ∧ console (world st') = console (world st)
      ∧ uncaught (world st') = uncaught (world st))
     ∨ (∃ rnd, draw_of ev = Some rnd
               ∧ lets_through c (world st)
               ∧ closed st = false
               ∧ queue (world st')
                 = queue (world st) ++ [FillerPhrase (fillerPhrases (fields c) !! rnd)]
               ∧ console (world st')
                 = console (world st) ++ [line_of (fillerPhrases (fields c) !! rnd)]
               ∧ uncaught (world st')
                 = uncaught (world st)
                   ++ from_option (λ e, [e]) [] (verdict (fields c) rnd))
     ∨ (∃ rnd, draw_of ev = Some rnd
               ∧ lets_through c (world st)
               ∧ closed st = true
               ∧ queue (world st') = queue (world st)
               ∧ console (world st')
                 = console (world st) ++ [line_of (fillerPhrases (fields c) !! rnd)]
               ∧ uncaught (world st') = uncaught (world st) ++ [enqueue_error])).
Proof.
  assert (∀ st0, closed st0 = closed st0 || false) as Hcl
    by (intros st0; by rewrite orb_false_r).
  assert ((if closed st then [] else []) = ([] : list Emitted)) as Hnil
    by (by destruct (closed st)).
  destruct ev as [|chunk| | |h rnd|h rnd]; simpl.
  - destruct (notify_frame (fields c) (world st)) as (-> & -> & -> & ->).
    rewrite orb_false_r. split; [done|]. split; [done|]. left.
    by rewrite Hnil, app_nil_r.
  - destruct (closed st) eqn:Hc; simpl.
    + split; [done|]. split; [done|]. left. by rewrite app_nil_r.
    + unfold transform. simpl. rewrite clearBoth_console.
      destruct (clearBoth_frame (world st)) as (-> & -> & _ & _ & ->).
      split; [done|]. split; [done|]. by left.
  - destruct (closed st) eqn:Hc; simpl.
    + split; [done|]. split; [done|]. left. by rewrite app_nil_r.
    + unfold flush. rewrite clearBoth_console.
      destruct (clearBoth_frame (world st)) as (-> & -> & _ & _ & ->).
      split; [done|]. split; [done|]. left. by rewrite app_nil_r.
  - destruct (cancel_frame (world st)) as (Hq & Hu & Hco & Hct).
    unfold cancelPendingFiller in Hq, Hu, Hco, Hct. simpl in Hq, Hu, Hco, Hct.
    rewrite Hq, Hu, Hco, Hct, orb_false_r. split; [done|]. split; [done|]. left.
    by rewrite Hnil, app_nil_r.
  - rewrite orb_false_r.
    destruct (timers (world st) !! h) as [[[] d]|];
      try (split; [done|]; split; [done|]; left; by rewrite Hnil, app_nil_r).
    unfold timeoutCallback.
    destruct (emitFiller_cases rnd (with_world (clearTimer h) st))
      as [->|[(Hg & Hc & ->)|(Hg & Hc & ->)]]; try simpl in Hg, Hc.
    + destruct (1 <? maxFillersPerTurn (fields c))%Z; simpl;
        (split; [done|]; split; [done|]; left; by rewrite Hnil, app_nil_r).
    + simpl. split; [done|]. split; [done|]. right. right. exists rnd.
      split; [done|]. split; [exact Hg|]. done.
    + destruct (observe_frame (fillerPhrases (fields c) !! rnd)
                  (emitted (fields c) rnd (world (with_world (clearTimer h) st))))
        as (Hq & Hu & Hco & Hct).
      simpl in Hq, Hu, Hco, Hct.
      destruct (verdict (fields c) rnd) as [err|] eqn:Hv;
        [|destruct (1 <? maxFillersPerTurn (fields c))%Z]; simpl;
        rewrite ?Hq, ?Hu, ?Hco, ?Hct;
        (split; [done|]; split; [done|]; right; left; exists rnd;
         split; [done|]; split; [exact Hg|]; rewrite ?Hv, ?app_nil_r; done).
  - rewrite orb_false_r.
    destruct (timers (world st) !! h) as [[[] d]|];
      try (split; [done|]; split; [done|]; left; by rewrite Hnil, app_nil_r).
    unfold intervalCallback.
    destruct (_ && _).
    + destruct (emitFiller_cases rnd st)
        as [->|[(Hg & Hc & ->)|(Hg & Hc & ->)]].
      * split; [done|]. split; [done|]. left. by rewrite Hnil, app_nil_r.
      * simpl. split; [done|]. split; [done|]. right. right. exists rnd.
        split; [done|]. split; [exact Hg|]. done.
      * destruct (observe_frame (fillerPhrases (fields c) !! rnd)
                    (emitted (fields c) rnd (world st))) as (Hq & Hu & Hco & Hct).
        simpl in Hq, Hu, Hco, Hct.
        destruct (verdict (fields c) rnd) as [err|] eqn:Hv; simpl;
          rewrite ?Hq, ?Hu, ?Hco, ?Hct;
          (split; [done|]; split; [done|]; right; left; exists rnd;
           split; [done|]; split; [exact Hg|]; rewrite ?Hv, ?app_nil_r; done).
    + destruct (intervalId (self (world st))); simpl;
        (split; [done|]; split; [done|]; left; by rewrite Hnil, app_nil_r).
Qed.


Lemma stream_run_closed st evs :
  closed (run c st evs) = closed st || existsb is_flush evs.
Proof.
  induction evs as [|ev evs IH] using rev_ind; [by rewrite orb_false_r|].
  rewrite stream_run_snoc, existsb_app. simpl.
  destruct (stream_step_effect (run c st evs) ev) as (-> & _).
  by rewrite IH, orb_false_r, orb_assoc.
Qed.


(** Once the stream is closed nothing more reaches the readable side. *)
Lemma closed_run_queue st evs :
  closed st = true →
  queue (world (run c st evs)) = queue (world st).
Proof.
  intros Hc. induction evs as [|ev evs IH] using rev_ind; [done|].
  rewrite stream_run_snoc.
  pose proof (stream_run_closed st evs) as Hc'. rewrite Hc in Hc'. simpl in Hc'.
  destruct (stream_step_effect (run c st evs) ev)
    as (_ & _ & [(Hq & _)|[(rnd & _ & _ & Ho & _)|(rnd & _ & _ & _ & Hq & _)]]).
  - rewrite Hq, Hc', app_nil_r. done.
  - congruence.
  - by rewrite Hq.
Qed.

(** The console against the output: one line per filler, and after the
    stream was closed a line for every emission that failed. *)
Lemma stream_run_console evs :
  let st := run c constructed evs in
  lines_of (queue (world st)) `prefix_of` console (world st)
  ∧ (closed st = false → console (world st) = lines_of (queue (world st))).
Proof.
  induction evs as [|ev evs [IHp IHe]] using rev_ind; [done|].
  rewrite stream_run_snoc. simpl.
  set (st := run c constructed evs) in *.
  destruct (stream_step_effect st ev)
    as (Hcl & _ & [(Hq & Hco & _)
                  |[(rnd & _ & _ & Ho & Hq & Hco & _)|(rnd & _ & _ & Hc & Hq & Hco & _)]]).
  - rewrite Hq, Hco, lines_of_app.
    assert (lines_of (if closed st then [] else tokens_of [ev]) = []) as ->
      by (destruct (closed st); [done|apply lines_of_tokens]).
    rewrite app_nil_r. split; [done|]. rewrite Hcl. intros Hf.
    apply IHe. by destruct (closed st).
  - rewrite Hq, Hco, lines_of_app. simpl. rewrite (IHe Ho). done.
  - rewrite Hq, Hco, Hcl, Hc. split; [by apply prefix_app_r|done].
Qed.

(** The errors that reach the event loop. *)
Lemma stream_run_uncaught evs :
  let st := run c constructed evs in
  Forall (λ err, (∃ cb rnd, onFillerEmitted (fields c) = Some cb
                            ∧ cb (fillerPhrases (fields c) !! rnd) = Throws err)
                 ∨ (err = enqueue_error ∧ closed st = true))
    (uncaught (world st))
  ∧ (length (uncaught (world st)) ≤ length (console (world st)))%nat.
Proof.
  cbv zeta.
  induction evs as [|ev evs [IH IHn]] using rev_ind; [split; [by constructor|done]|].
  rewrite stream_run_snoc.
  set (st := run c constructed evs) in *.
  assert (Forall (λ err, (∃ cb rnd, onFillerEmitted (fields c) = Some cb
                            ∧ cb (fillerPhrases (fields c) !! rnd) = Throws err)
                 ∨ (err = enqueue_error
                    ∧ closed (step c st ev) = true))
            (uncaught (world st))) as IH'.
  { eapply Forall_impl; [exact IH|]. intros err [H|[-> Hc]]; [by left|right].
    split; [done|]. destruct (stream_step_effect st ev) as (-> & _). by rewrite Hc. }
  destruct (stream_step_effect st ev)
    as (Hcl & _ & [(_ & Hco & Hu)
                  |[(rnd & _ & _ & Ho & _ & Hco & Hu)|(rnd & _ & _ & Hc & _ & Hco & Hu)]]);
    rewrite Hu, Hco.
  - done.
  - rewrite !length_app. unfold verdict.
    destruct (onFillerEmitted (fields c)) as [cb|] eqn:Hcb;
      [destruct (cb (fillerPhrases (fields c) !! rnd)) as [|err] eqn:Hv|]; simpl;
      rewrite ?app_nil_r; (split; [|lia]); try done.
    apply Forall_app. split; [done|]. apply Forall_singleton. left. by exists cb, rnd.
  - rewrite !length_app. simpl. split; [|lia].
    apply Forall_app. split; [done|]. apply Forall_singleton. right.
    split; [done|]. by rewrite Hcl, Hc.
Qed.

(** *** Which timers are armed, whatever the observer does *)

Lemma call_configured m w :
  timers_configured (fields c) w → timers_configured (fields c) (call c m w).
Proof.
  intros H. destruct m; simpl.
  - apply (step_configured (fields c) w NotifyProcessingStarted H).
  - apply (step_configured (fields c) w CancelPendingFiller H).
Qed.

Lemma observe_configured p w :
  timers_configured (fields c) w → timers_configured (fields c) (observe c p w).1.
Proof.
  unfold observe. destruct (onFillerEmitted (fields c)); simpl; [|done].
  generalize (reentry c p). intros ms. revert w.
  induction ms as [|m ms IH]; intros w H; simpl; [done|].
  by apply IH, call_configured.
Qed.

Lemma emitFiller_configured rnd st :
  timers_configured (fields c) (world st) →
  timers_configured (fields c) (world (emitFiller c rnd st).1).
Proof.
  intros H.
  destruct (emitFiller_cases rnd st) as [->|[(_ & _ & ->)|(_ & _ & ->)]]; simpl;
    [done|done|].
  by apply observe_configured.
Qed.

Lemma stream_step_configured st ev :
  timers_configured (fields c) (world st) →
  timers_configured (fields c) (world (step c st ev)).
Proof.
  intros H. destruct ev as [|chunk| | |h rnd|h rnd]; simpl.
  - apply (step_configured (fields c) (world st) NotifyProcessingStarted H).
  - destruct (closed st); [done|].
    apply (step_configured (fields c) (world st) (Transform chunk) H).
  - destruct (closed st); [done|].
    apply (step_configured (fields c) (world st) Flush H).
  - apply (step_configured (fields c) (world st) CancelPendingFiller H).
  - destruct (timers (world st) !! h) as [[[] d]|]; try done.
    unfold timeoutCallback.
    assert (timers_configured (fields c) (world (with_world (clearTimer h) st)))
      as H0.
    { apply (configured_sub (fields c) (world st)); [|done]. simpl. intros h' x.
      rewrite lookup_delete_Some. tauto. }
    pose proof (emitFiller_configured rnd _ H0) as H1.
    destruct (emitFiller c rnd _) as [st1 [err|]]; simpl in *; [done|].
    destruct (Z.ltb_spec 1 (maxFillersPerTurn (fields c))); simpl; [|done].
    intros h' k' d'. simpl. rewrite lookup_insert_Some.
    intros [[_ [= <- <-]]|[_ Hl]]; [by right|by apply (H1 h' k' d')].
  - destruct (timers (world st) !! h) as [[[] d]|]; try done.
    unfold intervalCallback. destruct (_ && _).
    + pose proof (emitFiller_configured rnd _ H) as H1.
      by destruct (emitFiller c rnd _) as [st1 [err|]].
    + destruct (intervalId (self (world st))); [|done].
      apply (configured_sub (fields c) (world st)); [|done]. simpl. intros h' x.
      rewrite lookup_delete_Some. tauto.
Qed.

Lemma stream_run_configured evs :
  timers_configured (fields c)
    (world (run c constructed evs)).
Proof.
  induction evs as [|ev evs IH] using rev_ind.
  - intros h k d. simpl. by rewrite lookup_empty.
  - rewrite stream_run_snoc. by apply stream_step_configured.
Qed.

(** *** With no timer armed *)

Lemma stream_step_quiet st ev :
  is_notify ev = false →
  timers (world st) = ∅ →
  timers (world (step c st ev)) = ∅
  ∧ queue (world (step c st ev))
    = queue (world st) ++ (if closed st then [] else tokens_of [ev]).
Proof.
  intros Hn E.
  destruct ev as [|chunk| | |h rnd|h rnd]; simpl in *; try done.
  - destruct (closed st); simpl; [by rewrite app_nil_r|].
    split; [by apply clearBoth_keeps_empty|].
    by destruct (clearBoth_frame (world st)) as (-> & _).
  - destruct (closed st); simpl; rewrite app_nil_r; [done|].
    unfold flush. split; [by apply clearBoth_keeps_empty|].
    by destruct (clearBoth_frame (world st)) as (-> & _).
  - unfold cancelPendingFiller. simpl. split; [by apply clearBoth_keeps_empty|].
    destruct (clearBoth_frame (world st)) as (-> & _).
    by destruct (closed st); rewrite app_nil_r.
  - rewrite E, lookup_empty. by destruct (closed st); rewrite app_nil_r.
  - rewrite E, lookup_empty. by destruct (closed st); rewrite app_nil_r.
Qed.

Lemma stream_run_quiet evs : ∀ st,
  same_turn evs →
  timers (world st) = ∅ →
  timers (world (run c st evs)) = ∅
  ∧ queue (world (run c st evs))
    = queue (world st) ++ (if closed st then [] else written evs).
Proof.
  induction evs as [|ev evs IH]; intros st Hturn E.
  { simpl. by destruct (closed st); rewrite app_nil_r. }
  apply Forall_cons in Hturn as [Hev Hevs]. simpl.
  destruct (stream_step_quiet st ev Hev E) as (E' & Hq).
  destruct (IH (step c st ev) Hevs E') as (-> & ->).
  split; [done|]. rewrite Hq.
  destruct (stream_step_effect st ev) as (-> & _).
  destruct (closed st); simpl; [by rewrite !app_nil_r|].
  destruct ev; simpl; rewrite ?app_nil_r; try done.
  by rewrite <- app_assoc.
Qed.

(** *** An observer that does not call back *)

Section Plain.
Hypothesis Hplain : no_reentry c.

Lemma emitFiller_handles rnd st :
  let st' := (emitFiller c rnd st).1 in
  timers (world st') = timers (world st)
  ∧ timeoutId (self (world st')) = timeoutId (self (world st))
  ∧ intervalId (self (world st')) = intervalId (self (world st))
  ∧ nextHandle (world st') = nextHandle (world st).
Proof.
  destruct (emitFiller_cases rnd st) as [->|[(_ & _ & ->)|(_ & _ & ->)]]; simpl;
    try done.
  by rewrite observe_plain.
Qed.

(** While the stream is open the stage is the one of module [Filler]. *)
Lemma emitFiller_plain rnd st :
  closed st = false →
  emitFiller c rnd st
  = ({| world := (Filler.emitFiller (fields c) rnd (world st)).1; closed := false |},
     (Filler.emitFiller (fields c) rnd (world st)).2).
Proof.
  intros Ho. unfold emitFiller, Filler.emitFiller.
  destruct (_ || _); [by destruct st; simpl in *; subst|].
  rewrite Ho. unfold observe. rewrite Hplain.
  destruct (onFillerEmitted (fields c)) as [cb|]; [|done]. simpl.
  by destruct (cb _).
Qed.


Lemma stream_step_plain st ev :
  closed st = false →
  is_flush ev = false →
  step c st ev
  = {| world := Filler.step (fields c) (world st) ev; closed := false |}.
Proof.
  intros Ho Hf. destruct ev as [|chunk| | |h rnd|h rnd]; simpl in *; try done;
    unfold with_world; rewrite ?Ho; try done.
  - destruct (timers (world st) !! h) as [[[] d]|];
      try (by destruct st; simpl in *; subst).
    unfold timeoutCallback, Filler.timeoutCallback.
    rewrite emitFiller_plain by done. simpl.
    destruct (Filler.emitFiller (fields c) rnd (clearTimer h (world st)))
      as [w1 [err|]]; simpl; [done|].
    by destruct (1 <? maxFillersPerTurn (fields c))%Z.
  - destruct (timers (world st) !! h) as [[[] d]|];
      try (by destruct st; simpl in *; subst).
    unfold intervalCallback, Filler.intervalCallback.
    destruct (_ && _).
    + rewrite emitFiller_plain by done.
      by destruct (Filler.emitFiller (fields c) rnd (world st)) as [w1 [err|]].
    + destruct (intervalId (self (world st))); unfold with_world; simpl;
        [by rewrite Ho|].
      by destruct st; simpl in *; subst.
Qed.

Lemma stream_run_plain st evs :
  closed st = false →
  Forall (λ ev, is_flush ev = false) evs →
  run c st evs
  = {| world := Filler.run (fields c) (world st) evs; closed := false |}.
Proof.
  intros Ho. induction evs as [|ev evs IH] using rev_ind; intros Hf.
  - by destruct st; simpl in *; subst.
  - apply Forall_app in Hf as [Hevs Hev]. rewrite Forall_singleton in Hev.
    rewrite stream_run_snoc, (IH Hevs), stream_step_plain by done.
    simpl. by rewrite filler_run_snoc.
Qed.

(** The timer discipline of module [Filler] holds on the stream as well,
    closed or not. *)
Lemma stream_step_tracked st ev :
  timers_tracked (world st) → timers_tracked (world (step c st ev)).
Proof.
  intros Hw. destruct ev as [|chunk| | |h rnd|h rnd]; simpl.
  - apply (step_tracked (fields c) (world st) NotifyProcessingStarted Hw).
  - destruct (closed st); [done|].
    apply (step_tracked (fields c) (world st) (Transform chunk) Hw).
  - destruct (closed st); [done|].
    apply (step_tracked (fields c) (world st) Flush Hw).
  - apply (step_tracked (fields c) (world st) CancelPendingFiller Hw).
  - destruct (timers (world st) !! h) as [[[] d]|] eqn:Hl; try done.
    assert (timers (clearTimer h (world st)) = ∅) as E.
    { simpl. destruct Hw as [E | [(h0 & d0 & _ & E) | (h0 & d0 & _ & E)]];
        rewrite E in *.
      - by rewrite lookup_empty in Hl.
      - apply lookup_singleton_Some in Hl as [-> _]. apply delete_singleton_eq.
      - apply lookup_singleton_Some in Hl as [_ ?]. done. }
    unfold timeoutCallback.
    destruct (emitFiller_handles rnd (with_world (clearTimer h) st))
      as (Ht & _ & _ & Hn).
    destruct (emitFiller c rnd _) as [st1 [err|]]; simpl in *.
    + left. simpl. by rewrite Ht.
    + destruct (1 <? maxFillersPerTurn (fields c))%Z; simpl.
      * right. right. exists (nextHandle (world st1)), (fillerIntervalMs (fields c)).
        split; [done|]. simpl. by rewrite Ht, E, insert_empty.
      * left. by rewrite Ht.
  - destruct (timers (world st) !! h) as [[[] d]|] eqn:Hl; try done.
    destruct Hw as [E | [(h0 & d0 & Hid & E) | (h0 & d0 & Hid & E)]].
    + rewrite E in Hl. by rewrite lookup_empty in Hl.
    + rewrite E in Hl. apply lookup_singleton_Some in Hl as [_ ?]. done.
    + unfold intervalCallback. destruct (_ && _).
      * destruct (emitFiller_handles rnd st) as (Ht & _ & Hi & _).
        destruct (emitFiller c rnd st) as [st1 [err|]]; simpl in *;
          right; right; exists h0, d0; simpl; by rewrite Ht, Hi.
      * rewrite Hid. left. simpl. rewrite E. apply delete_singleton_eq.
Qed.

Lemma stream_run_tracked evs :
  timers_tracked (world (run c constructed evs)).
Proof.
  induction evs as [|ev evs IH] using rev_ind; [by left|].
  rewrite stream_run_snoc. by apply stream_step_tracked.
Qed.

End Plain.
End Stream.

(** *** The start of a turn, on the stage alone *)


(** *** Cancelling, closing and observing *)

(** C8, the claim fails in the code.  The observer of the playground's
    stage with two fillers per turn calls [cancelPendingFiller] for every
    phrase.  The threshold timer fires: the first filler is enqueued, the
    observer cancels (there is no timer left to clear, and the
    [isProcessing] flag it resets is read by nothing), and the callback goes
    on to arm the repeat interval.  In the same turn, after the cancel, that
    interval enqueues a second filler.  The same call made between two
    callbacks leaves no timer and the turn stays at one filler. *)
Theorem cancel_inside_observer_does_not_stop_fillers :
  let c := calling_back [CallCancelPendingFiller] in
  let turn := [NotifyProcessingStarted; TimeoutFires 1%positive 0] in
  let st := run c constructed turn in
  let later := [IntervalFires 2%positive 1] in
  queue (world st) = [FillerPhrase (Some "Let me see here...")]
  ∧ isProcessing (self (world st)) = false
  ∧ timers (world st) = {[ 2%positive := (Interval, 2000%Z) ]}
  ∧ same_turn later
  ∧ queue (world (run c st later))
    = [FillerPhrase (Some "Let me see here..."); FillerPhrase (Some "Hmm, one moment...")]
  ∧ uncaught (world (run c st later)) = []
  ∧ let c' := plain (two_fillers (Some (λ _, Returns))) in
    let st' := run c' constructed (turn ++ [CancelPendingFiller]) in
    timers (world st') = ∅
    ∧ queue (world (run c' st' later))
      = [FillerPhrase (Some "Let me see here...")].
Proof.
  cbv zeta. split; [by vm_compute|]. split; [by vm_compute|].
  split; [by vm_compute|]. split; [by repeat constructor|].
  split; [by vm_compute|]. split; [by vm_compute|].
  split; by vm_compute.
Qed.

(** X6.  Timer discipline.  With an observer that does not call back into
    the stage, at most one timer is armed in every reachable state, whether
    the readable side is open or closed; it is the threshold timeout with
    delay [thresholdMs], held in [self.timeoutId], or the repeat interval
    with delay [fillerIntervalMs], held in [self.intervalId]. *)
Theorem at_most_one_timer_armed (c : Config) (evs : list Event) :
  no_reentry c →
  let w := world (run c constructed evs) in
  (size (timers w) ≤ 1)%nat
  ∧ ∀ h k d, timers w !! h = Some (k, d) →
      timers w = {[ h := (k, d) ]}
      ∧ ((k = Timeout ∧ d = thresholdMs (fields c) ∧ timeoutId (self w) = Some h)
         ∨ (k = Interval ∧ d = fillerIntervalMs (fields c)
            ∧ intervalId (self w) = Some h)).
Proof.
  intros Hplain w.
  pose proof (stream_run_tracked c Hplain evs) as Ht.
  pose proof (stream_run_configured c evs) as Hc. fold w in Ht, Hc. split.
  - destruct Ht as [E | [(h & d & _ & E) | (h & d & _ & E)]]; rewrite E.
    + rewrite map_size_empty. lia.
    + rewrite map_size_singleton. lia.
    + rewrite map_size_singleton. lia.
  - intros h k d Hl.
    destruct Ht as [E | [(h0 & d0 & Hid & E) | (h0 & d0 & Hid & E)]].
    + rewrite E in Hl. by rewrite lookup_empty in Hl.
    + pose proof Hl as Hl'. rewrite E in Hl'.
      apply lookup_singleton_Some in Hl' as [<- [= <- <-]].
      split; [done|]. left.
      destruct (Hc _ _ _ Hl) as [(_ & -> & _)|(? & _)]; done.
    + pose proof Hl as Hl'. rewrite E in Hl'.
      apply lookup_singleton_Some in Hl' as [<- [= <- <-]].
      split; [done|]. right.
      destruct (Hc _ _ _ Hl) as [(? & _)|(_ & -> & _)]; done.
Qed.

Lemma at_most_one_timer_armed_witness :
  let c := plain (two_fillers None) in
  let w := world (run c constructed
                    [NotifyProcessingStarted; TimeoutFires 1%positive 0; Flush;
                     NotifyProcessingStarted]) in
  no_reentry c
  ∧ (size (timers w) ≤ 1)%nat
  ∧ ∀ h k d, timers w !! h = Some (k, d) →
      timers w = {[ h := (k, d) ]}
      ∧ ((k = Timeout ∧ d = thresholdMs (fields c) ∧ timeoutId (self w) = Some h)
         ∨ (k = Interval ∧ d = fillerIntervalMs (fields c)
            ∧ intervalId (self w) = Some h)).
Proof.
  assert (no_reentry (plain (two_fillers None))) as Hplain by (intros p; reflexivity).
  split; [exact Hplain|].
  exact (at_most_one_timer_armed (plain (two_fillers None))
           [NotifyProcessingStarted; TimeoutFires 1%positive 0; Flush;
            NotifyProcessingStarted] Hplain).
Defined.

(** An observer that starts a turn from inside the threshold callback
    leaves two timers armed: the timeout of the new turn and the interval
    the callback arms on its way out. *)
Example reentrant_notify_arms_two_timers :
  timers (world (run (calling_back [CallNotifyProcessingStarted])
                   constructed
                   [NotifyProcessingStarted; TimeoutFires 1%positive 0]))
  = {[ 2%positive := (Timeout, 1200%Z); 3%positive := (Interval, 2000%Z) ]}.
Proof. by vm_compute. Qed.

(** X8.  [flush] ends the stream.  Called by the runtime on a stream that
    is still open, it changes neither the output nor the flag nor the
    counter and the readable side is closed when it has returned: from then
    on nothing is enqueued, whatever happens.  With an observer that does
    not call back into the stage it leaves no timer armed, and none is
    armed for the rest of the turn. *)
Theorem flush_disarms_every_timer (c : Config) (earlier rest : list Event) :
  closed (run c constructed earlier) = false →
  let st := run c constructed earlier in
  let st' := step c st Flush in
  closed st' = true
  ∧ queue (world st') = queue (world st)
  ∧ hasReceivedResponse (self (world st')) = hasReceivedResponse (self (world st))
  ∧ fillersEmittedThisTurn (self (world st'))
    = fillersEmittedThisTurn (self (world st))
  ∧ closed (run c st' rest) = true
  ∧ queue (world (run c st' rest)) = queue (world st)
  ∧ (no_reentry c →
     timers (world st') = ∅
     ∧ (same_turn rest → timers (world (run c st' rest)) = ∅)).
Proof.
  intros Ho. cbv zeta.
  set (st := run c constructed earlier) in *.
  assert (step c st Flush
          = {| world := flush (world st); closed := true |}) as ->
    by (simpl; by rewrite Ho).
  set (st' := {| world := flush (world st); closed := true |}).
  destruct (clearBoth_frame (world st)) as (Hq & _ & Hn & Hr & _).
  split; [done|]. split; [done|]. split; [done|]. split; [done|].
  split; [by rewrite stream_run_closed|].
  split; [by rewrite (closed_run_queue c st' rest eq_refl)|].
  intros Hplain.
  assert (timers (flush (world st)) = ∅) as E
    by (apply clearBoth_disarms, (stream_run_tracked c Hplain)).
  split; [done|]. intros Hturn.
  by destruct (stream_run_quiet c rest st' Hturn E) as [-> _].
Qed.

Lemma flush_disarms_every_timer_witness :
  let c := plain (two_fillers None) in
  let earlier := [NotifyProcessingStarted; TimeoutFires 1%positive 0; Transform "Hello"] in
  let rest := [IntervalFires 2%positive 1; TimeoutFires 1%positive 2; CancelPendingFiller] in
  let st := run c constructed earlier in
  let st' := step c st Flush in
  closed st = false
  ∧ closed st' = true
  ∧ queue (world st') = queue (world st)
  ∧ hasReceivedResponse (self (world st')) = hasReceivedResponse (self (world st))
  ∧ fillersEmittedThisTurn (self (world st'))
    = fillersEmittedThisTurn (self (world st))
  ∧ closed (run c st' rest) = true
  ∧ queue (world (run c st' rest)) = queue (world st)
  ∧ (no_reentry c →
     timers (world st') = ∅
     ∧ (same_turn rest → timers (world (run c st' rest)) = ∅)).
Proof.
  assert (closed (run (plain (two_fillers None)) constructed
                    [NotifyProcessingStarted; TimeoutFires 1%positive 0;
                     Transform "Hello"]) = false) as Ho by reflexivity.
  split; [exact Ho|].
  exact (flush_disarms_every_timer (plain (two_fillers None))
           [NotifyProcessingStarted; TimeoutFires 1%positive 0; Transform "Hello"]
           [IntervalFires 2%positive 1; TimeoutFires 1%positive 2; CancelPendingFiller]
           Ho).
Defined.

(** X9.  Two kinds of error leave a timer callback and reach the event
    loop: an error thrown by [onFillerEmitted], and the [TypeError] of
    [controller.enqueue] when a filler is due after the readable side was
    closed.  There is at most one per logged attempt.  While the stream is
    open only observer errors escape, so with no observer, or one that
    always returns, nothing does. *)
Theorem only_observer_errors_escape (c : Config) (evs : list Event) :
  let st := run c constructed evs in
  (∀ err, err ∈ uncaught (world st) →
     (∃ cb rnd, onFillerEmitted (fields c) = Some cb
                ∧ cb (fillerPhrases (fields c) !! rnd) = Throws err)
     ∨ (err = enqueue_error ∧ closed st = true))
  ∧ (length (uncaught (world st)) ≤ length (console (world st)))%nat
  ∧ (closed st = false →
     (∀ err, err ∈ uncaught (world st) →
        ∃ cb rnd, onFillerEmitted (fields c) = Some cb
                  ∧ cb (fillerPhrases (fields c) !! rnd) = Throws err)
     ∧ (Z.of_nat (length (uncaught (world st))) ≤ fillers (queue (world st)))%Z
     ∧ (observer_returns (fields c) → uncaught (world st) = [])).
Proof.
  intros st. destruct (stream_run_uncaught c evs) as [Hall Hle]. fold st in Hall, Hle.
  rewrite Forall_forall in Hall. split; [done|]. split; [done|].
  intros Ho.
  assert (∀ err, err ∈ uncaught (world st) →
            ∃ cb rnd, onFillerEmitted (fields c) = Some cb
                      ∧ cb (fillerPhrases (fields c) !! rnd) = Throws err) as Hobs.
  { intros err Hin. destruct (Hall err Hin) as [H|[_ H]]; [done|congruence]. }
  split; [done|]. split.
  - destruct (stream_run_console c evs) as [_ He]. fold st in He.
    rewrite (He Ho) in Hle.
    assert (∀ q, length (lines_of q) = Z.to_nat (fillers q)) as Hlen.
    { intros q. unfold fillers. rewrite Nat2Z.id.
      induction q as [|x q IH]; [done|].
      rewrite filter_cons. destruct x as [t|p]; simpl; by rewrite IH. }
    rewrite Hlen in Hle. unfold fillers in *. lia.
  - intros Hret. destruct (uncaught (world st)) as [|err l] eqn:E; [done|].
    destruct (Hobs err) as (cb & rnd & Hcb & Hthrow); [left|].
    rewrite (Hret cb _ Hcb) in Hthrow. done.
Qed.

(** A filler that falls due after the stream was closed: the line is
    logged, [controller.enqueue] throws, the counter stays at zero, nothing
    reaches the readable side and the error reaches the event loop. *)
Example filler_after_close_throws :
  let st := run (plain playground) constructed
              [Flush; NotifyProcessingStarted; TimeoutFires 1%positive 0] in
  queue (world st) = []
  ∧ fillersEmittedThisTurn (self (world st)) = 0%Z
  ∧ console (world st) = [line_of (Some "Let me see here...")]
  ∧ uncaught (world st) = [enqueue_error]
  ∧ timers (world st) = ∅.
Proof. cbv zeta. repeat split; by vm_compute. Qed.

(** X10.  The console holds one line per filler the stage set out to
    emit, in order, quoting the phrase, and nothing else.  The lines of the
    fillers on the readable side are a prefix of it; while the stream is
    open they are all of it. *)
Theorem every_filler_is_logged (c : Config) (evs : list Event) :
  let st := run c constructed evs in
  Forall (λ line, ∃ rnd, line = line_of (fillerPhrases (fields c) !! rnd))
    (console (world st))
  ∧ lines_of (queue (world st)) `prefix_of` console (world st)
  ∧ (closed st = false → console (world st) = lines_of (queue (world st))).
Proof.
  intros st. split; [|apply stream_run_console]. subst st.
  induction evs as [|ev evs IH] using rev_ind; [by constructor|].
  rewrite stream_run_snoc.
  destruct (stream_step_effect c (run c constructed evs) ev)
    as (_ & _ & [(_ & -> & _)
                |[(rnd & _ & _ & _ & _ & -> & _)|(rnd & _ & _ & _ & _ & -> & _)]]);
    [done| |]; (apply Forall_app; split; [done|]);
    apply Forall_singleton; by exists rnd.
Qed.



(** X27.  [cancelPendingFiller] between two callbacks.  With an observer
    that does not call back into the stage, a call made by the application
    in any reachable state leaves no timer armed and the flag as it was,
    a second call changes nothing, and for the rest of the turn the stage
    enqueues nothing but the chunks written before the stream is closed. *)
Theorem cancel_between_callbacks_stops_fillers
    (c : Config) (earlier rest : list Event) :
  no_reentry c →
  same_turn rest →
  let st := run c constructed earlier in
  let st' := step c st CancelPendingFiller in
  timers (world st') = ∅
  ∧ closed st' = closed st
  ∧ hasReceivedResponse (self (world st')) = hasReceivedResponse (self (world st))
  ∧ step c st' CancelPendingFiller = st'
  ∧ timers (world (run c st' rest)) = ∅
  ∧ queue (world (run c st' rest))
    = queue (world st) ++ (if closed st then [] else written rest)
  ∧ fillers (queue (world (run c st' rest))) = fillers (queue (world st)).
Proof.
  intros Hplain Hturn st st'.
  assert (timers (world st') = ∅) as E.
  { subst st'. simpl. unfold cancelPendingFiller. simpl.
    apply clearBoth_disarms, (stream_run_tracked c Hplain). }
  destruct (stream_run_quiet c rest st' Hturn E) as (Ht & Hq).
  assert (queue (world st') = queue (world st)) as Hq'.
  { subst st'. simpl. unfold cancelPendingFiller. simpl.
    by destruct (clearBoth_frame (world st)) as (-> & _). }
  assert (queue (world (run c st' rest))
          = queue (world st) ++ (if closed st then [] else written rest)) as Hq''.
  { rewrite Hq, Hq'. done. }
  split; [done|]. split; [done|]. split.
  { subst st'. simpl. unfold cancelPendingFiller. simpl.
    by destruct (clearBoth_frame (world st)) as (_ & _ & _ & -> & _). }
  split.
  { subst st'. simpl. unfold with_world. simpl. f_equal.
    unfold cancelPendingFiller at 1. unfold clearBoth at 1.
    assert (timeoutId (self (cancelPendingFiller (world st))) = None) as ->
      by (unfold cancelPendingFiller; simpl; apply clearBoth_handles).
    assert (intervalId (self (cancelPendingFiller (world st))) = None) as ->
      by (unfold cancelPendingFiller; simpl; apply clearBoth_handles).
    unfold cancelPendingFiller, clearBoth.
    destruct (timeoutId (self (world st))); simpl;
      by destruct (intervalId (self (world st))). }
  split; [done|]. split; [done|].
  rewrite Hq''. unfold fillers. rewrite filter_app, length_app.
  assert (∀ l, filter (λ x, is_filler x = true)
                 (if closed st then [] else written l) = []) as ->;
    [|simpl; lia].
  intros l. destruct (closed st); [done|].
  induction l as [|[] l IH]; simpl; try done.
Qed.

Lemma cancel_between_callbacks_stops_fillers_witness :
  let c := plain (two_fillers None) in
  let earlier := [NotifyProcessingStarted; TimeoutFires 1%positive 0] in
  let rest := [IntervalFires 2%positive 1; TimeoutFires 1%positive 2; CancelPendingFiller;
               IntervalFires 2%positive 0; Transform "late"; Flush] in
  let st := run c constructed earlier in
  let st' := step c st CancelPendingFiller in
  no_reentry c
  ∧ same_turn rest
  ∧ timers (world st') = ∅
  ∧ closed st' = closed st
  ∧ hasReceivedResponse (self (world st')) = hasReceivedResponse (self (world st))
  ∧ step c st' CancelPendingFiller = st'
  ∧ timers (world (run c st' rest)) = ∅
  ∧ queue (world (run c st' rest))
    = queue (world st) ++ (if closed st then [] else written rest)
  ∧ fillers (queue (world (run c st' rest))) = fillers (queue (world st)).
Proof.
  assert (no_reentry (plain (two_fillers None))) as Hplain by (intros p; reflexivity).
  assert (same_turn [IntervalFires 2%positive 1; TimeoutFires 1%positive 2;
                     CancelPendingFiller; IntervalFires 2%positive 0;
                     Transform "late"; Flush]) as Hturn by (repeat constructor).
  split; [exact Hplain|]. split; [exact Hturn|].
  exact (cancel_between_callbacks_stops_fillers (plain (two_fillers None))
           [NotifyProcessingStarted; TimeoutFires 1%positive 0] _ Hplain Hturn).
Defined.

End FillerStreamFacts.

Module ConnectionFacts.
Import ElevenLabs ElevenLabsFacts.

Lemma Link_view w w' : link_view w' = link_view w → Link w → Link w'.
Proof.
  unfold link_view, Link, state_of, attempt_of, ws_open.
  intros [= -> -> -> -> -> -> -> -> -> -> ->]. done.
Qed.

Lemma state_set s st w s' :
  state_of (set_socket_state s st w) s'
  = if decide (s = s')
    then match state_of w s' with Some _ => Some st | None => None end
    else state_of w s'.
Proof.
  unfold state_of, set_socket_state. simpl. destruct (decide (s = s')) as [->|Hne].
  - rewrite list_lookup_alter_eq. unfold SocketId.
    destruct (_ !! _); reflexivity.
  - by rewrite list_lookup_alter_ne.
Qed.

Lemma attempt_set s st w s' :
  attempt_of (set_socket_state s st w) s' = attempt_of w s'.
Proof.
  unfold attempt_of, set_socket_state. simpl. destruct (decide (s = s')) as [->|Hne].
  - rewrite list_lookup_alter_eq. unfold SocketId.
    destruct (_ !! _); reflexivity.
  - by rewrite list_lookup_alter_ne.
Qed.

Lemma state_set_ne s st w s' st' :
  st' ≠ st → state_of (set_socket_state s st w) s' = Some st' →
  s ≠ s' ∧ state_of w s' = Some st'.
Proof.
  intros Hne. rewrite state_set. destruct (decide (s = s')) as [->|?]; [|done].
  destruct (state_of w s'); [|done]. intros [= <-]. done.
Qed.

Lemma state_set_other s st w s' :
  s ≠ s' → state_of (set_socket_state s st w) s' = state_of w s'.
Proof. intros Hne. rewrite state_set. by destruct (decide (s = s')). Qed.

Ltac link H :=
  destruct H as (L1 & L2 & L3 & LU & LS & L4 & L5 & LF & L7 & Lfresh & Latt & Lfin
                 & LD & LE & LN).

(** With no [transform] suspended at its own attempt, no socket is
    connecting. *)
Lemma no_connecting w s :
  Link w →
  (∀ token p, running (stream w) = Some (AwaitNew token p) →
              is_Some (settled (rt w) !! p)) →
  state_of w s ≠ Some CONNECTING.
Proof.
  intros H Hrun Hs. link H.
  destruct (L3 s Hs) as (_ & _ & p & token & _ & Hp & Ht).
  destruct (Hrun token p Ht) as [x Hx]. congruence.
Qed.

Lemma no_connecting_idle w s :
  Link w → running (stream w) = None → state_of w s ≠ Some CONNECTING.
Proof. intros H Hr. apply no_connecting; [done|]. intros ??. by rewrite Hr. Qed.

Lemma ws_open_Some w s : Link w → ws_open w = Some s → ws (vars w) = Some s.
Proof.
  intros _. unfold ws_open. destruct (ws (vars w)) as [s'|]; [|done].
  destruct (sockets (rt w) !! s') as [sk|]; [|done].
  by destruct (readyState sk).
Qed.

(** [ws_open] in terms of the current socket and its state. *)
Lemma ws_open_spec w :
  ws_open w = match ws (vars w) with
              | Some s => match state_of w s with
                          | Some OPEN => Some s
                          | _ => None
                          end
              | None => None
              end.
Proof.
  unfold ws_open, state_of. destruct (ws (vars w)) as [s|]; [|done].
  destruct (sockets (rt w) !! s) as [sk|]; [|done]. simpl.
  by destruct (readyState sk).
Qed.

(** With no open socket current, no socket is open. *)
Lemma no_open w s : Link w → ws_open w = None → state_of w s ≠ Some OPEN.
Proof.
  intros H Hopen Hs. destruct H as (_ & L2 & _).
  rewrite ws_open_spec, (L2 s Hs), Hs in Hopen. done.
Qed.

(** A socket that leaves the open state does not make another one
    current. *)
Lemma ws_open_set_down s st w :
  st ≠ OPEN → ws_open w = None → ws_open (set_socket_state s st w) = None.
Proof.
  intros Hst. rewrite !ws_open_spec. simpl.
  destruct (ws (vars w)) as [s0|]; [|done]. rewrite state_set.
  destruct (decide (s = s0)) as [->|Hne]; [|done].
  destruct (state_of w s0) as [st0|]; [|done]. by destruct st.
Qed.

(** *** The primitive operations *)

Lemma Link_settle (p : PromiseId) how w :
  Link w →
  p < nextPromise (rt w) →
  (∀ s, state_of w s = Some CONNECTING → attempt_of w s ≠ Some p) →
  Link (settle p how w).
Proof.
  intros H Hp Hfree. unfold settle.
  destruct (settled (rt w) !! p) eqn:Hpend; [done|]. link H.
  unfold Link, state_of, attempt_of, ws_open in *. simpl.
  split; [done|]. split; [done|]. split.
  { intros s Hs. destruct (L3 s Hs) as (? & ? & q & token & Hq & Hnone & Hrun).
    split; [done|]. split; [done|]. exists q, token. split; [done|]. split; [|done].
    rewrite lookup_insert_ne; [done|]. intros ->. by apply (Hfree s). }
  split; [done|]. split.
  { intros s Hs. destruct (LS s Hs) as (q & Hq & Hset). exists q. split; [done|].
    destruct (decide (p = q)) as [->|Hne];
      [by rewrite lookup_insert_eq|by rewrite lookup_insert_ne]. }
  split.
  { intros q Hq Hnone. apply (L4 q Hq).
    destruct (decide (p = q)) as [->|Hne];
      [by rewrite lookup_insert_eq in Hnone|by rewrite lookup_insert_ne in Hnone]. }
  split; [done|]. split; [done|]. split; [done|]. split; [|done].
  intros q Hq. destruct (decide (p = q)) as [->|Hne]; [done|].
  rewrite lookup_insert_ne in Hq by done. by apply Lfresh.
Qed.

Lemma Link_drop_waiter w : Link w → Link (with_vars (set_finalResolve None) w).
Proof.
  intros H. link H. unfold Link, state_of, attempt_of, ws_open in *. simpl.
  do 13 (split; [done|]). done.
Qed.

Lemma Link_resolve_final w : Link w → Link (resolve_final w).
Proof.
  intros H. unfold resolve_final.
  destruct (finalResolve (vars w)) as [p|] eqn:Hp; [|done].
  apply Link_drop_waiter. pose proof H as H'. link H'.
  apply Link_settle.
  - revert H. by apply Link_view.
  - simpl. by apply Lfin.
  - intros s Hs Ha.
    destruct (L3 s Hs) as (_ & _ & q & token & Hq & _ & Hrun).
    change (attempt_of w s = Some p) in Ha. rewrite Hq in Ha. injection Ha as ->.
    by apply (LF token p Hrun).
Qed.

Lemma Link_on_message m w : Link w → Link (on_message m w).
Proof.
  assert (∀ isFinal error w, Link w → Link (on_message_rest isFinal error w)) as Hrest.
  { intros isFinal error w' H. unfold on_message_rest.
    assert (Link (if isFinal then resolve_final w' else w')) as H'
      by (destruct isFinal; [by apply Link_resolve_final|done]).
    destruct error; [|done]. revert H'. by apply Link_view. }
  intros H. destruct m as [err|[|chunk|err] isFinal error]; simpl.
  - revert H. by apply Link_view.
  - by apply Hrest.
  - destruct (activeController (vars w)); [|by apply Hrest].
    destruct (flushEnded (stream w)).
    + revert H. by apply Link_view.
    + apply Hrest. revert H. by apply Link_view.
  - revert H. by apply Link_view.
Qed.

Lemma Link_timer_callback d (tp : PromiseId) w :
  Link w → flushTimer (rt w) = Some (d, tp) → Link (timer_callback tp w).
Proof.
  intros H Ht. pose proof H as H'. link H'. destruct (L7 d tp Ht) as [Hsd Hlt].
  unfold timer_callback. apply Link_settle.
  - unfold Link, state_of, attempt_of, ws_open in *. simpl.
    do 13 (split; [done|]). done.
  - done.
  - intros s Hs. change (state_of w s = Some CONNECTING) in Hs.
    destruct (L3 s Hs) as (_ & Hsd' & _). congruence.
Qed.

(** A socket goes down: the library sets its state to [CLOSING] (for an
    error) or [CLOSED], and the handler forgets it if it was current. *)
Lemma Link_down s st w :
  Link w →
  st = CLOSING ∨ st = CLOSED →
  (st = CLOSING → state_of w s = Some OPEN ∨ state_of w s = Some CLOSING) →
  Link (forget_if_current s (set_socket_state s st w)).
Proof.
  intros H Hst Hwas. pose proof H as H'. link H'.
  assert (st ≠ OPEN ∧ st ≠ CONNECTING) as [Hno Hnc] by (destruct Hst; by subst).
  unfold forget_if_current, ws_is. simpl.
  destruct (decide (ws (vars w) = Some s)) as [Hws|Hws].
  - rewrite bool_decide_true by done.
    unfold Link. rewrite ws_open_spec. simpl.
    change (state_of (with_vars _ (set_socket_state s st w)))
      with (state_of (set_socket_state s st w)).
    change (attempt_of (with_vars _ (set_socket_state s st w)))
      with (attempt_of (set_socket_state s st w)).
    split; [done|]. split.
    { intros s0 [Hne Hs0]%state_set_ne; [|done].
      specialize (L2 s0 Hs0). congruence. }
    split.
    { intros s0 [Hne Hs0]%state_set_ne; [|done]. rewrite attempt_set.
      destruct (L3 s0 Hs0) as (_ & ? & ?). done. }
    split.
    { intros s0 s1 [_ Hs0]%state_set_ne [_ Hs1]%state_set_ne; try done.
      by apply LU. }
    split.
    { intros s0 Hs0. rewrite attempt_set.
      destruct (decide (s = s0)) as [<-|Hne].
      - apply LS. by apply L1.
      - rewrite state_set_other in Hs0 by done. by apply LS. }
    split; [done|]. split; [done|]. split; [done|]. split; [done|].
    split; [done|]. split; [intros s0 p; rewrite attempt_set; apply Latt|].
    split; [done|]. split; [done|].
    split; [intros He; by destruct (LE He) as (? & _)|done].
  - rewrite bool_decide_false by done.
    unfold Link. rewrite (ws_open_spec (set_socket_state s st w)). simpl.
    assert (ws_open w = None →
            match ws (vars w) with
            | Some s0 => match state_of (set_socket_state s st w) s0 with
                         | Some OPEN => Some s0
                         | _ => None
                         end
            | None => None
            end = None) as Hdown.
    { intros Hopen. pose proof (ws_open_set_down s st w Hno Hopen) as Hd.
      by rewrite ws_open_spec in Hd. }
    split.
    { intros s0 Hs0. rewrite state_set_other by congruence. by apply L1. }
    split.
    { intros s0 [Hne Hs0]%state_set_ne; [|done]. by apply L2. }
    split.
    { intros s0 [Hne Hs0]%state_set_ne; [|done]. rewrite attempt_set.
      destruct (L3 s0 Hs0) as (? & ? & ?). split; [by apply Hdown|done]. }
    split.
    { intros s0 s1 [_ Hs0]%state_set_ne [_ Hs1]%state_set_ne; try done.
      by apply LU. }
    split.
    { intros s0 Hs0. rewrite attempt_set.
      destruct (decide (s = s0)) as [<-|Hne].
      - apply LS. rewrite state_set in Hs0. rewrite decide_True in Hs0 by done.
        destruct (state_of w s) eqn:Hs; [|by destruct Hs0].
        destruct Hst as [->| ->]; [by apply Hwas|].
        destruct Hs0 as [[=]|[=]].
      - rewrite state_set_other in Hs0 by done. by apply LS. }
    split; [done|]. split; [done|]. split; [done|]. split; [done|].
    split; [done|]. split; [intros s0 p; rewrite attempt_set; apply Latt|].
    split; [done|]. split; [done|].
    split; [|done].
    intros He. destruct (LE He) as (? & ? & ?). split; [done|]. split; [by apply Hdown|done].
Qed.

(** The connecting socket opens, or fails: its attempt is settled, and no
    socket is connecting any more. *)
Lemma Link_on_open o (s : SocketId) sk w :
  Link w →
  sockets (rt w) !! s = Some sk →
  readyState sk = CONNECTING →
  Link (on_open o s (attempt sk) (set_socket_state s OPEN w)).
Proof.
  intros H Hsk Hst. pose proof H as H'. link H'.
  assert (state_of w s = Some CONNECTING) as Hs
    by (unfold state_of; by rewrite Hsk, <- Hst).
  assert (attempt_of w s = Some (attempt sk)) as Ha
    by (unfold attempt_of; by rewrite Hsk).
  destruct (L3 s Hs) as (Hws & Hsd & p & token & Hp & Hpend & Hrun).
  rewrite Ha in Hp. injection Hp as <-.
  unfold on_open, settle. simpl. rewrite Hpend.
  set (w1 := set_socket_state s OPEN w).
  unfold Link. simpl.
  change (state_of (with_rt _ (with_vars _ (ws_send s (bosMessage o) (console_log _ w1)))))
    with (state_of w1).
  change (attempt_of (with_rt _ (with_vars _ (ws_send s (bosMessage o) (console_log _ w1)))))
    with (attempt_of w1).
  unfold w1.
  split.
  { intros s0 [= <-]. left. rewrite state_set, decide_True by done. by rewrite Hs. }
  split.
  { intros s0 Hs0. destruct (decide (s = s0)) as [->|Hne]; [done|].
    rewrite state_set_other in Hs0 by done. by destruct (no_open w s0 H Hws). }
  split.
  { intros s0 [Hne Hs0]%state_set_ne; [|done]. destruct Hne. by apply LU. }
  split.
  { intros s0 s1 [Hne Hs0]%state_set_ne; [|done]. destruct Hne. by apply LU. }
  split.
  { intros s0 Hs0. rewrite attempt_set.
    destruct (decide (s = s0)) as [<-|Hne].
    - exists (attempt sk). split; [done|]. by rewrite lookup_insert_eq.
    - rewrite state_set_other in Hs0 by done.
      destruct (LS s0 Hs0) as (q & Hq & Hset). exists q. split; [done|].
      destruct (decide (attempt sk = q)) as [->|?];
        [by rewrite lookup_insert_eq|by rewrite lookup_insert_ne]. }
  split.
  { intros q Hq Hnone. apply (L4 q Hq).
    destruct (decide (attempt sk = q)) as [<-|?];
      [by rewrite lookup_insert_eq in Hnone|by rewrite lookup_insert_ne in Hnone]. }
  split; [done|]. split; [done|]. split; [done|]. split.
  { intros q Hq. destruct (decide (attempt sk = q)) as [<-|?]; [by apply (Latt s)|].
    rewrite lookup_insert_ne in Hq by done. by apply Lfresh. }
  split; [intros s0 q; rewrite attempt_set; apply Latt|].
  split; [done|]. split; [done|].
  split; [intros He; destruct (LE He) as (? & _); congruence|done].
Qed.

Lemma Link_on_error_connecting (s : SocketId) sk err w :
  Link w →
  sockets (rt w) !! s = Some sk →
  readyState sk = CONNECTING →
  Link (on_error s (attempt sk) err (set_socket_state s CLOSING w)).
Proof.
  intros H Hsk Hst. pose proof H as H'. link H'.
  assert (state_of w s = Some CONNECTING) as Hs
    by (unfold state_of; by rewrite Hsk, <- Hst).
  assert (attempt_of w s = Some (attempt sk)) as Ha
    by (unfold attempt_of; by rewrite Hsk).
  destruct (L3 s Hs) as (Hws & Hsd & p & token & Hp & Hpend & Hrun).
  rewrite Ha in Hp. injection Hp as <-.
  assert (ws (vars w) ≠ Some s) as Hcur.
  { intros Hc. destruct (L1 s Hc) as [E|E]; rewrite Hs in E; done. }
  unfold on_error, forget_if_current, ws_is. simpl.
  rewrite bool_decide_false by done.
  unfold settle. simpl. rewrite Hpend.
  set (w1 := set_socket_state s CLOSING w).
  unfold Link. simpl.
  change (state_of (with_rt _ (console_log _ w1))) with (state_of w1).
  change (attempt_of (with_rt _ (console_log _ w1))) with (attempt_of w1).
  change (ws_open (with_rt _ (console_log _ w1))) with (ws_open w1).
  unfold w1. rewrite (ws_open_set_down s CLOSING w) by done.
  split.
  { intros s0 Hs0. rewrite state_set_other by congruence. by apply L1. }
  split.
  { intros s0 [Hne Hs0]%state_set_ne; [|done]. by apply L2. }
  split.
  { intros s0 [Hne Hs0]%state_set_ne; [|done]. destruct Hne. by apply LU. }
  split.
  { intros s0 s1 [Hne Hs0]%state_set_ne; [|done]. destruct Hne. by apply LU. }
  split.
  { intros s0 Hs0. rewrite attempt_set.
    destruct (decide (s = s0)) as [<-|Hne].
    - exists (attempt sk). split; [done|]. by rewrite lookup_insert_eq.
    - rewrite state_set_other in Hs0 by done.
      destruct (LS s0 Hs0) as (q & Hq & Hset). exists q. split; [done|].
      destruct (decide (attempt sk = q)) as [->|?];
        [by rewrite lookup_insert_eq|by rewrite lookup_insert_ne]. }
  split.
  { intros q Hq Hnone. apply (L4 q Hq).
    destruct (decide (attempt sk = q)) as [<-|?];
      [by rewrite lookup_insert_eq in Hnone|by rewrite lookup_insert_ne in Hnone]. }
  split; [done|]. split; [done|]. split; [done|]. split.
  { intros q Hq. destruct (decide (attempt sk = q)) as [<-|?]; [by apply (Latt s)|].
    rewrite lookup_insert_ne in Hq by done. by apply Lfresh. }
  split; [intros s0 q; rewrite attempt_set; apply Latt|].
  split; [done|]. split; [done|]. split; [|done].
  intros He. by destruct (LE He) as (? & ? & ?).
Qed.

(** The suspended call continues: with its promise settled, no socket is
    connecting and no attempt is pending. *)
Lemma Link_continue t w :
  Link w →
  running (stream w) = Some t →
  (∀ token p, t = AwaitNew token p → is_Some (settled (rt w) !! p)) →
  Link (with_stream (set_running None) w).
Proof.
  intros H Ht Hset. pose proof H as H'. link H'.
  unfold Link, state_of, attempt_of, ws_open in *. simpl.
  split; [done|]. split; [done|]. split.
  { intros s Hs. destruct (L3 s Hs) as (_ & _ & p & token & _ & Hpend & Hrun).
    rewrite Ht in Hrun. injection Hrun as ->.
    destruct (Hset token p eq_refl) as [x Hx]. congruence. }
  split; [done|]. split; [done|]. split.
  { intros p Hp Hpend. destruct (L4 p Hp Hpend) as [token Hrun].
    rewrite Ht in Hrun. injection Hrun as ->.
    destruct (Hset token p eq_refl) as [x Hx]. congruence. }
  do 7 (split; [done|]). done.
Qed.

Lemma Link_suspend_drain final tp w :
  Link w → running (stream w) = None → isShuttingDown (vars w) = true →
  Link (suspend (AwaitDrain final tp) w).
Proof.
  intros H Hr Hsd. pose proof H as H'. link H'.
  unfold Link, state_of, attempt_of, ws_open in *. simpl.
  split; [done|]. split; [done|]. split.
  { intros s Hs. destruct (L3 s Hs) as (_ & _ & p & token & _ & _ & Hrun). congruence. }
  split; [done|]. split; [done|]. split.
  { intros p Hp Hpend. destruct (L4 p Hp Hpend) as [token Hrun]. congruence. }
  do 7 (split; [done|]). done.
Qed.

(** A new attempt: the one place where a socket is created.  It is
    reached with no call suspended and no open socket current, and it leaves
    the call suspended at the fresh attempt of the new socket. *)
Lemma Link_create o token w :
  Link w →
  running (stream w) = None →
  ws_open w = None →
  isShuttingDown (vars w) = false →
  Link (ensureConnection_new o token w).
Proof.
  intros H Hr Hws Hsd. pose proof H as H'. link H'.
  assert (settled (rt w) !! S (nextPromise (rt w)) = None) as Hfresh.
  { destruct (settled (rt w) !! S (nextPromise (rt w))) eqn:E; [|done].
    assert (S (nextPromise (rt w)) < nextPromise (rt w)); [|lia].
    apply Lfresh. by rewrite E. }
  unfold ensureConnection_new, createConnection, resetFinalPromise, newPromise.
  simpl. unfold await_new. simpl. unfold PromiseId in *. rewrite Hfresh.
  unfold Link.
  match goal with |- context [ws_open ?x] => assert (ws_open x = None) as -> end.
  { rewrite ws_open_spec. rewrite ws_open_spec in Hws. simpl.
    destruct (ws (vars w)) as [s0|] eqn:Hcur; [|done].
    unfold state_of in *. simpl.
    destruct (sockets (rt w) !! s0) as [sk0|] eqn:E.
    - unfold SocketId in *. by rewrite (lookup_app_l_Some _ _ _ _ E).
    - destruct (L1 s0 eq_refl) as [L|L]; unfold state_of, SocketId in *;
        by rewrite E in L. }
  unfold state_of, attempt_of. simpl.
  assert (∀ (s0 : nat) st, readyState <$> (sockets (rt w) ++
            [{| url := getWebSocketUrl o; readyState := CONNECTING;
                attempt := S (nextPromise (rt w)) |}]) !! s0 = Some st →
          state_of w s0 = Some st
          ∨ (s0 = length (sockets (rt w)) ∧ st = CONNECTING)) as Hst.
  { intros s0 st. unfold state_of, SocketId. rewrite lookup_app.
    destruct (sockets (rt w) !! s0) as [sk0|] eqn:E; [by left|].
    apply lookup_ge_None in E.
    destruct (s0 - length (sockets (rt w))) eqn:D; simpl; [|done].
    intros [= <-]. right. split; [lia|done]. }
  assert (∀ (s0 : nat) p, attempt <$> (sockets (rt w) ++
            [{| url := getWebSocketUrl o; readyState := CONNECTING;
                attempt := S (nextPromise (rt w)) |}]) !! s0 = Some p →
          attempt_of w s0 = Some p
          ∨ (s0 = length (sockets (rt w)) ∧ p = S (nextPromise (rt w)))) as Hat.
  { intros s0 p. unfold attempt_of, SocketId. rewrite lookup_app.
    destruct (sockets (rt w) !! s0) as [sk0|] eqn:E; [by left|].
    apply lookup_ge_None in E.
    destruct (s0 - length (sockets (rt w))) eqn:D; simpl; [|done].
    intros [= <-]. right. split; [lia|done]. }
  split.
  { intros s0 Hs0. destruct (L1 s0 Hs0) as [L|L]; unfold state_of, SocketId in *;
      destruct (sockets (rt w) !! s0) as [sk0|] eqn:E; try done;
      rewrite (lookup_app_l_Some _ _ _ _ E); [by left|by right]. }
  split.
  { intros s0 [Hs0|[_ ?]]%Hst; [|done]. by apply L2. }
  split.
  { intros s0 [Hs0|[-> _]]%Hst.
    - destruct (L3 s0 Hs0) as (_ & _ & p & tok & _ & _ & Hrun). congruence.
    - split; [done|]. split; [done|]. exists (S (nextPromise (rt w))), token.
      split; [|done]. rewrite list_lookup_middle; done. }
  split.
  { intros s0 s1 [Hs0|[-> _]]%Hst [Hs1|[-> _]]%Hst; try done.
    - destruct (L3 s0 Hs0) as (_ & _ & p & tok & _ & _ & Hrun). congruence.
    - destruct (L3 s0 Hs0) as (_ & _ & p & tok & _ & _ & Hrun). congruence.
    - destruct (L3 s1 Hs1) as (_ & _ & p & tok & _ & _ & Hrun). congruence. }
  split.
  { intros s0 [[Hs0|[_ ?]]%Hst|[Hs0|[_ ?]]%Hst]; try done.
    - destruct (LS s0 (or_introl Hs0)) as (p & Hp & Hset). exists p. split; [|done].
      unfold attempt_of in Hp. destruct (sockets (rt w) !! s0) as [sk0|] eqn:E; [|done].
      by rewrite (lookup_app_l_Some _ _ _ _ E).
    - destruct (LS s0 (or_intror Hs0)) as (p & Hp & Hset). exists p. split; [|done].
      unfold attempt_of in Hp. destruct (sockets (rt w) !! s0) as [sk0|] eqn:E; [|done].
      by rewrite (lookup_app_l_Some _ _ _ _ E). }
  split; [intros p [= <-] _; by exists token|].
  split; [done|]. split; [intros tok p [= _ <-] [=]; lia|]. split.
  { intros d tp Ht. destruct (L7 d tp Ht) as [? _]. congruence. }
  split; [intros p Hp; specialize (Lfresh p Hp); lia|]. split.
  { intros s0 p [Hp|[_ ->]]%Hat; [|lia]. specialize (Latt s0 p Hp). lia. }
  split; [intros p [= <-]; lia|]. split; [done|].
  split; [intros He; destruct (LE He) as (? & _); congruence|done].
Qed.

Lemma Link_transform o token w :
  Link w → running (stream w) = None → Link (transform o token w).
Proof.
  intros H Hr. unfold transform.
  destruct (isShuttingDown (vars w)) eqn:Hsd; [done|].
  unfold ensureConnection. destruct (ws_open w) as [s|] eqn:Hopen.
  { unfold transform_send. rewrite Hopen. revert H. by apply Link_view. }
  destruct (connectionPromise (vars w)) as [p|] eqn:Hcp;
    [|by apply Link_create].
  unfold await_pending. destruct (settled (rt w) !! p) as [[|err]|] eqn:Hp.
  - rewrite Hopen. by apply Link_create.
  - revert H. by apply Link_view.
  - link H. destruct (L4 p Hcp Hp) as [tok Hrun]. congruence.
Qed.

Lemma Link_pump_chunks o chunks w :
  Link w → running (stream w) = None → Link (pump_chunks o chunks w).
Proof.
  revert w. induction chunks as [|token rest IH]; intros w H Hr; simpl.
  { revert H. by apply Link_view. }
  pose proof (Link_transform o token w H Hr) as H'.
  destruct (running (stream (transform o token w))) eqn:Hr'; [|by apply IH].
  revert H'. apply Link_view. unfold link_view. simpl. by rewrite Hr'.
Qed.

Lemma pump_chunks_running o chunks w :
  running (stream (pump_chunks o chunks w)) = None →
  ∃ w', running (stream w') = None
        ∧ pump_chunks o chunks w = with_stream (set_pending []) w'.
Proof.
  revert w. induction chunks as [|token rest IH]; intros w; simpl.
  { intros Hr. by exists w. }
  destruct (running (stream (transform o token w))) eqn:Hr'; [|by apply IH].
  simpl. by rewrite Hr'.
Qed.

Lemma Link_no_attempt w : Link w → Link (with_vars (set_connectionPromise None) w).
Proof.
  intros H. link H. unfold Link, state_of, attempt_of, ws_open in *. simpl.
  do 13 (split; [done|]).
  split; [intros He; by destruct (LE He) as (? & ? & _)|done].
Qed.

(** [flush] returns. *)
Lemma Link_ended t w :
  Link w →
  isShuttingDown (vars w) = true →
  ws_open w = None →
  connectionPromise (vars w) = None →
  Link (with_stream (set_flushEnded (Some t)) w).
Proof.
  intros H Hsd Hws Hcp. link H. unfold Link, state_of, attempt_of, ws_open in *. simpl.
  do 13 (split; [done|]). done.
Qed.

Lemma ws_close_open (s : SocketId) w :
  state_of w s = Some OPEN →
  ws_close s w = set_socket_state s CLOSING w.
Proof.
  unfold state_of, ws_close, set_socket_state.
  destruct (sockets (rt w) !! s) as [sk|] eqn:E; [|done]. simpl. intros [= ->].
  unfold with_rt. f_equal. unfold set_sockets. f_equal.
  apply list_eq. intros i. destruct (decide (s = i)) as [<-|Hne].
  - rewrite list_lookup_alter_eq, list_lookup_insert_eq
      by (by apply lookup_lt_Some in E). unfold SocketId in *. by rewrite E.
  - by rewrite list_lookup_alter_ne, list_lookup_insert_ne.
Qed.

(** [ws.close()] on a socket that is open, or closing already. *)
Lemma ws_close_live (s : SocketId) w :
  state_of w s = Some OPEN ∨ state_of w s = Some CLOSING →
  ws_close s w = set_socket_state s CLOSING w.
Proof.
  unfold state_of, ws_close, set_socket_state.
  destruct (sockets (rt w) !! s) as [sk|] eqn:E; [|by intros [|]]. simpl.
  intros Hst.
  assert (with_rt (λ r, set_sockets (<[s:=set_readyState CLOSING sk]> (sockets r)) r) w
          = with_rt (λ r, set_sockets (alter (set_readyState CLOSING) s (sockets r)) r) w)
    as Heq.
  { unfold with_rt. f_equal. unfold set_sockets. f_equal.
    apply list_eq. intros i. destruct (decide (s = i)) as [<-|Hne].
    - rewrite list_lookup_alter_eq, list_lookup_insert_eq
        by (by apply lookup_lt_Some in E). unfold SocketId in *. by rewrite E.
    - by rewrite list_lookup_alter_ne, list_lookup_insert_ne. }
  by destruct Hst as [[= ->]|[= ->]].
Qed.

Lemma Link_flush_close w :
  Link w → isShuttingDown (vars w) = true → Link (flush_close w).
Proof.
  intros H Hsd. unfold flush_close. destruct (ws (vars w)) as [s|] eqn:Hws.
  - pose proof H as H'. link H'. rewrite (ws_close_live s w (L1 s Hws)).
    set (w1 := forget_if_current s (set_socket_state s CLOSING w)).
    assert (vars w1 = set_connectionPromise None (set_ws None (vars w))) as Hv1.
    { unfold w1, forget_if_current, ws_is. simpl. by rewrite bool_decide_true. }
    apply (Link_view (with_stream (set_flushEnded (Some (now (rt w)))) w1)).
    + unfold link_view. simpl. rewrite Hv1.
      unfold w1, forget_if_current, ws_is. simpl. by rewrite bool_decide_true.
    + apply Link_ended; try (by rewrite Hv1).
      * apply Link_down; [done|by left|]. intros _. by apply L1.
      * rewrite ws_open_spec, Hv1. done.
  - apply (Link_view (with_stream (set_flushEnded (Some (now (rt w))))
                        (with_vars (set_connectionPromise None) w))).
    + unfold link_view. simpl. by rewrite Hws.
    + apply Link_ended; try done; [by apply Link_no_attempt|].
      rewrite ws_open_spec. simpl. by rewrite Hws.
Qed.

Lemma Link_await_drain final tp w :
  Link w → running (stream w) = None → isShuttingDown (vars w) = true →
  Link (await_drain final tp w).
Proof.
  intros H Hr Hsd. unfold await_drain. destruct (race_settled w final tp).
  - by apply Link_flush_close.
  - by apply Link_suspend_drain.
Qed.

Lemma Link_flush w : Link w → running (stream w) = None → Link (flush w).
Proof.
  intros H Hr. unfold flush.
  set (w2 := with_vars (set_isShuttingDown true)
               (console_log "ElevenLabs: Flushing stream..."
                  (with_stream (set_flushStarted (Some (now (rt w)))) w))).
  assert (Link w2) as H2.
  { pose proof H as H'. link H'. unfold Link, state_of, attempt_of, ws_open in *. simpl.
    split; [done|]. split; [done|]. split.
    { intros s Hs. destruct (L3 s Hs) as (_ & _ & p & token & _ & _ & Hrun).
      congruence. }
    split; [done|]. split; [done|]. split; [done|]. split; [done|].
    split; [done|].
    split; [intros d tp Ht; split; [done|]; by destruct (L7 d tp Ht)|].
    split; [done|]. split; [done|]. split; [done|]. split; [done|].
    split; [intros He; by destruct (LE He) as (_ & ? & ?)|done]. }
  destruct (ws_open w2) as [s|] eqn:Hopen.
  - simpl. apply Link_await_drain; [|done..].
    pose proof H2 as H'. link H'. unfold Link, state_of, attempt_of, ws_open in *. simpl.
    split; [done|]. split; [done|]. split.
    { intros s0 Hs0. destruct (L3 s0 Hs0) as (_ & ? & _). done. }
    split; [done|]. split; [done|]. split; [done|]. split; [done|].
    split; [done|]. split; [intros d tp [= _ <-]; split; [done|lia]|].
    split; [intros p Hp; specialize (Lfresh p Hp); simpl in *; lia|].
    split; [intros s0 p Hp; specialize (Latt s0 p Hp); simpl in *; lia|].
    split; [intros p Hp; specialize (Lfin p Hp); simpl in *; lia|].
    split; [done|]. done.
  - apply (Link_view (with_stream (set_flushEnded (Some (now (rt w2))))
                        (with_vars (set_connectionPromise None) w2))); [done|].
    apply Link_ended; try done. by apply Link_no_attempt.
Qed.

Lemma Link_pump o w : Link w → running (stream w) = None → Link (pump o w).
Proof.
  intros H Hr. unfold pump.
  pose proof (Link_pump_chunks o (pending (stream w)) w H Hr) as H'.
  destruct (running (stream (pump_chunks o _ w))) eqn:Hr'; [done|].
  destruct (flushStarted (stream (pump_chunks o _ w))); [done|].
  destruct (closeRequested (stream (pump_chunks o _ w))); [|done].
  by apply Link_flush.
Qed.

Lemma Link_resume o t w :
  Link w → running (stream w) = Some t →
  Link (resume o t (with_stream (set_running None) w)).
Proof.
  intros H Ht. set (w0 := with_stream (set_running None) w).
  destruct t as [token p|token p|final tp]; simpl.
  - link H. by destruct (L5 token p).
  - unfold await_new.
    destruct (settled (rt w0) !! p) as [how|] eqn:Hp.
    + assert (Link w0) as H0.
      { apply (Link_continue (AwaitNew token p)); [done..|].
        intros ?? [= _ <-]. change (settled (rt w) !! p) with (settled (rt w0) !! p).
        by rewrite Hp. }
      destruct how; unfold transform_send, transform_catch;
        [destruct (ws_open w0)|]; revert H0; by apply Link_view.
    + revert H. apply Link_view. unfold link_view. simpl. by rewrite Ht.
  - apply Link_await_drain; [|done|].
    + by apply (Link_continue (AwaitDrain final tp)).
    + pose proof H as H'. link H'. by apply (LD final tp).
Qed.

Lemma Link_drive o w : Link w → Link (drive o w).
Proof.
  intros H. unfold drive. destruct (running (stream w)) as [t|] eqn:Ht; [|done].
  pose proof (Link_resume o t w H Ht) as H'.
  destruct (running (stream (resume o t _))) eqn:Hr'; [done|].
  by apply Link_pump.
Qed.

Lemma Link_settle_done (p : PromiseId) how w (s : SocketId) :
  Link w →
  attempt_of w s = Some p →
  state_of w s = Some OPEN ∨ state_of w s = Some CLOSING →
  Link (settle p how w).
Proof.
  intros H Ha Hs. pose proof H as H'. link H'.
  destruct (LS s Hs) as (q & Hq & [x Hx]). rewrite Ha in Hq. injection Hq as <-.
  unfold settle. by rewrite Hx.
Qed.

Lemma Link_went_down (s : SocketId) st line w :
  Link w →
  st = CLOSING ∨ st = CLOSED →
  (st = CLOSING → state_of w s = Some OPEN ∨ state_of w s = Some CLOSING) →
  let w' := forget_if_current s (console_log line (set_socket_state s st w)) in
  Link w'
  ∧ state_of w' s = match state_of w s with Some _ => Some st | None => None end
  ∧ attempt_of w' s = attempt_of w s.
Proof.
  intros H Hst Hwas w'.
  assert (link_view w' = link_view (forget_if_current s (set_socket_state s st w))) as Hv.
  { unfold w', forget_if_current, ws_is. simpl.
    by destruct (bool_decide (ws (vars w) = Some s)). }
  split; [|split].
  - apply (Link_view _ _ Hv). by apply Link_down.
  - transitivity (state_of (set_socket_state s st w) s).
    + unfold w', forget_if_current. by destruct (ws_is s _).
    + rewrite state_set. by rewrite decide_True.
  - transitivity (attempt_of (set_socket_state s st w) s).
    + unfold w', forget_if_current. by destruct (ws_is s _).
    + apply attempt_set.
Qed.

Lemma Link_on_error_live (s : SocketId) u st p err w :
  Link w →
  sockets (rt w) !! s = Some {| url := u; readyState := st; attempt := p |} →
  st ≠ CLOSED →
  Link (on_error s p err (set_socket_state s CLOSING w)).
Proof.
  intros H Hs Hst. destruct st; [| | |done].
  - by apply (Link_on_error_connecting s
                {| url := u; readyState := CONNECTING; attempt := p |}).
  - assert (state_of w s = Some OPEN) as Hso by (unfold state_of; by rewrite Hs).
    unfold on_error.
    destruct (Link_went_down s CLOSING ("ElevenLabs WS Error: " +:+ err) w H)
      as (H' & Hs' & Ha'); [by left|intros _; by left|].
    apply (Link_settle_done _ _ _ s); [done|..].
    + rewrite Ha'. unfold attempt_of. by rewrite Hs.
    + right. by rewrite Hs', Hso.
  - assert (state_of w s = Some CLOSING) as Hso by (unfold state_of; by rewrite Hs).
    unfold on_error.
    destruct (Link_went_down s CLOSING ("ElevenLabs WS Error: " +:+ err) w H)
      as (H' & Hs' & Ha'); [by left|intros _; by right|].
    apply (Link_settle_done _ _ _ s); [done|..].
    + rewrite Ha'. unfold attempt_of. by rewrite Hs.
    + right. by rewrite Hs', Hso.
Qed.

Lemma Link_on_close_any (s : SocketId) code reason w :
  Link w → Link (on_close s code reason (set_socket_state s CLOSED w)).
Proof.
  intros H. unfold on_close. apply Link_resolve_final.
  by apply (Link_went_down s CLOSED
              ("ElevenLabs: WebSocket closed (code: " +:+ code
               +:+ ", reason: " +:+ reason +:+ ")") w H); [right|].
Qed.

(** The close frame of the remote end: an open socket starts closing, and
    stays current. *)
Lemma Link_close_frame (s : SocketId) w :
  Link w → state_of w s = Some OPEN → Link (set_socket_state s CLOSING w).
Proof.
  intros H Hs. pose proof H as H'. link H'.
  assert (∀ s0 st, st ≠ CLOSING → state_of (set_socket_state s CLOSING w) s0 = Some st →
            s ≠ s0 ∧ state_of w s0 = Some st) as Hother.
  { intros s0 st Hne. by apply state_set_ne. }
  unfold Link.
  change (vars (set_socket_state s CLOSING w)) with (vars w).
  change (stream (set_socket_state s CLOSING w)) with (stream w).
  change (settled (rt (set_socket_state s CLOSING w))) with (settled (rt w)).
  change (nextPromise (rt (set_socket_state s CLOSING w))) with (nextPromise (rt w)).
  change (flushTimer (rt (set_socket_state s CLOSING w))) with (flushTimer (rt w)).
  split.
  { intros s0 Hs0. rewrite state_set. destruct (decide (s = s0)) as [<-|Hne].
    - rewrite Hs. by right.
    - by apply L1. }
  split.
  { intros s0 [_ Hs0]%Hother; [|done]. by apply L2. }
  split.
  { intros s0 [_ Hs0]%Hother; [|done]. rewrite attempt_set.
    destruct (L3 s0 Hs0) as (? & ? & ?).
    split; [by apply ws_open_set_down|done]. }
  split.
  { intros s0 s1 [_ Hs0]%Hother [_ Hs1]%Hother; try done. by apply LU. }
  split.
  { intros s0 Hs0. rewrite attempt_set. apply LS.
    rewrite state_set in Hs0. destruct (decide (s = s0)) as [<-|Hne]; [|done].
    by left. }
  split; [done|]. split; [done|]. split; [done|]. split; [done|].
  split; [done|]. split; [intros s0 p; rewrite attempt_set; apply Latt|].
  split; [done|]. split; [done|]. split; [|done].
  intros He. destruct (LE He) as (? & ? & ?).
  split; [done|]. split; [by apply ws_open_set_down|done].
Qed.

Lemma Link_step o slack w ev : Link w → Link (step o slack w ev).
Proof.
  intros H. destruct ev as [token| |s|s m|s err|s code reason|dt| |s]; simpl.
  - destruct (closeRequested (stream w)); [done|].
    assert (Link (with_stream (λ x, set_pending (pending x ++ [token]) x) w)) as H'
      by (revert H; by apply Link_view).
    destruct (running (stream w)) eqn:Hr; [done|]. by apply Link_pump.
  - destruct (closeRequested (stream w)); [done|].
    assert (Link (with_stream (set_closeRequested true) w)) as H'
      by (revert H; by apply Link_view).
    destruct (running (stream w)) eqn:Hr; [done|]. by apply Link_pump.
  - destruct (sockets (rt w) !! s) as [[u st p]|] eqn:Hs; [|done].
    destruct st; try done.
    apply Link_drive.
    by apply (Link_on_open o s {| url := u; readyState := CONNECTING; attempt := p |}).
  - destruct (sockets (rt w) !! s) as [[u [] p]|]; simpl; try done;
      by apply Link_drive, Link_on_message.
  - destruct (sockets (rt w) !! s) as [[u st p]|] eqn:Hs; [|done]. simpl.
    destruct st; try done; by apply Link_drive, (Link_on_error_live s u _ p err w H Hs).
  - destruct (sockets (rt w) !! s) as [[u st p]|] eqn:Hs; [|done]. simpl.
    destruct st; try done; by apply Link_drive, Link_on_close_any.
  - destruct (flushTimer (rt w)) as [[due tp]|] eqn:Ht;
      [destruct (due + slack <? now (rt w) + dt)%N|]; try (revert H; by apply Link_view).
    assert (Link (drive o (timer_callback tp
              (advance_to (N.max (now (rt w)) (due + slack)) w)))) as H'.
    { apply Link_drive, (Link_timer_callback due); [|done].
      revert H. by apply Link_view. }
    revert H'. by apply Link_view.
  - destruct (flushTimer (rt w)) as [[due tp]|] eqn:Ht; [|done].
    destruct (due <=? now (rt w))%N; [|done].
    by apply Link_drive, (Link_timer_callback due).
  - destruct (sockets (rt w) !! s) as [[u st p]|] eqn:Hs; [|done]. simpl.
    destruct st; try done. apply Link_close_frame; [done|].
    unfold state_of. by rewrite Hs.
Qed.

Lemma Link_constructed : Link constructed.
Proof.
  unfold Link, state_of, attempt_of, ws_open. simpl.
  repeat split; try done; intros; try done;
    try (match goal with H : is_Some (∅ !! _) |- _ =>
           rewrite lookup_empty in H; by destruct H end);
    try (match goal with H : _ ∨ _ |- _ => by destruct H end).
Qed.

Lemma Link_run o slack evs : Link (run o slack constructed evs).
Proof.
  induction evs as [|ev evs IH] using rev_ind; [apply Link_constructed|].
  rewrite adapter_run_snoc. by apply Link_step.
Qed.

(** *** What the stream's calls leave alone *)

Section Framing.
Context (o : ElevenLabsOptions).

Lemma Frame_refl w : Frame o w w.
Proof. repeat split; try done. exists []. by rewrite app_nil_r. Qed.

Lemma Frame_trans w1 w2 w3 : Frame o w1 w2 → Frame o w2 w3 → Frame o w1 w3.
Proof.
  intros (Hr & Hc & Hq & Hs & Hf & He & new & Hn & Hu)
         (Hr' & Hc' & Hq' & Hs' & Hf' & He' & new' & Hn' & Hu').
  split; [congruence|]. split; [congruence|]. split; [congruence|].
  split; [auto|]. split; [auto|]. split; [auto|].
  exists (new ++ new'). split.
  - by rewrite Hn', Hn, app_assoc.
  - by apply Forall_app.
Qed.

Lemma Frame_view w w' : frame_view w' = frame_view w → Frame o w w'.
Proof.
  unfold frame_view. intros [= Hr Hc Hq Hs Hf He Hk].
  split; [done|]. split; [done|]. split; [done|]. split; [congruence|].
  split; [congruence|]. split; [congruence|]. exists []. by rewrite Hk, app_nil_r.
Qed.

Lemma ident_alter st (s : nat) (l : list Socket) :
  ident <$> alter (set_readyState st) s l = ident <$> l.
Proof.
  apply list_eq. intros i. rewrite !list_lookup_fmap.
  destruct (decide (s = i)) as [<-|Hne].
  - rewrite list_lookup_alter_eq. by destruct (l !! s).
  - by rewrite list_lookup_alter_ne.
Qed.

Lemma Frame_state s st w : Frame o w (set_socket_state s st w).
Proof.
  repeat split; try done. exists []. simpl. by rewrite ident_alter, app_nil_r.
Qed.

Lemma ident_insert st (s : nat) sk (l : list Socket) :
  l !! s = Some sk →
  ident <$> <[s := set_readyState st sk]> l = ident <$> l.
Proof.
  intros E. apply list_eq. intros i. rewrite !list_lookup_fmap.
  destruct (decide (s = i)) as [<-|Hne].
  - rewrite list_lookup_insert_eq by (by apply lookup_lt_Some in E). by rewrite E.
  - by rewrite list_lookup_insert_ne.
Qed.

Lemma Frame_ws_close s w : Frame o w (ws_close s w).
Proof.
  unfold ws_close. destruct (sockets (rt w) !! s) as [sk|] eqn:E; [|apply Frame_refl].
  destruct (readyState sk); try apply Frame_refl;
    (repeat split; try done; exists []; simpl; rewrite app_nil_r;
     split; [by apply ident_insert|done]).
Qed.

Lemma Frame_send token w : Frame o w (transform_send token w).
Proof. unfold transform_send. destruct (ws_open w); by apply Frame_view. Qed.

Lemma Frame_await_new token p w : Frame o w (await_new token p w).
Proof.
  unfold await_new. destruct (settled (rt w) !! p) as [[]|];
    [apply Frame_send|by apply Frame_view..].
Qed.

Lemma Frame_new token w : Frame o w (ensureConnection_new o token w).
Proof.
  unfold ensureConnection_new, createConnection. simpl.
  eapply Frame_trans; [|apply Frame_await_new].
  repeat split; try done. simpl. eexists. rewrite fmap_app. split; [done|].
  by apply Forall_singleton.
Qed.

Lemma Frame_await_pending token p w : Frame o w (await_pending o token p w).
Proof.
  unfold await_pending. destruct (settled (rt w) !! p) as [[]|].
  - destruct (ws_open w); [apply Frame_send|apply Frame_new].
  - by apply Frame_view.
  - by apply Frame_view.
Qed.

Lemma Frame_transform token w : Frame o w (transform o token w).
Proof.
  unfold transform. destruct (isShuttingDown (vars w)); [apply Frame_refl|].
  unfold ensureConnection. destruct (ws_open w); [apply Frame_send|].
  destruct (connectionPromise (vars w));
    [apply Frame_await_pending|apply Frame_new].
Qed.

Lemma Frame_pump_chunks chunks w : Frame o w (pump_chunks o chunks w).
Proof.
  revert w. induction chunks as [|token rest IH]; intros w; simpl.
  { by apply Frame_view. }
  pose proof (Frame_transform token w) as H.
  destruct (running (stream (transform o token w))).
  - eapply Frame_trans; [exact H|]. by apply Frame_view.
  - eapply Frame_trans; [exact H|]. apply IH.
Qed.

Lemma Frame_flush_return w : Frame o w (flush_return w).
Proof.
  repeat split; try done. exists []. by rewrite app_nil_r.
Qed.

Lemma Frame_flush_close w : Frame o w (flush_close w).
Proof.
  unfold flush_close. destruct (ws (vars w)) as [s|].
  - apply (Frame_trans _ (ws_close s w)); [apply Frame_ws_close|].
    eapply Frame_trans; [|apply Frame_flush_return]. by apply Frame_view.
  - eapply Frame_trans; [|apply Frame_flush_return]. by apply Frame_view.
Qed.

Lemma Frame_await_drain final tp w : Frame o w (await_drain final tp w).
Proof.
  unfold await_drain. destruct (race_settled w final tp);
    [apply Frame_flush_close|by apply Frame_view].
Qed.

Lemma Frame_flush w : Frame o w (flush w).
Proof.
  unfold flush.
  set (w2 := with_vars (set_isShuttingDown true)
               (console_log "ElevenLabs: Flushing stream..."
                  (with_stream (set_flushStarted (Some (now (rt w)))) w))).
  assert (Frame o w w2) as H2.
  { repeat split; try done. exists []. by rewrite app_nil_r. }
  eapply Frame_trans; [exact H2|].
  destruct (ws_open w2) as [s|].
  - simpl. eapply Frame_trans; [|apply Frame_await_drain]. by apply Frame_view.
  - apply Frame_flush_return.
Qed.

Lemma Frame_pump w : Frame o w (pump o w).
Proof.
  unfold pump. pose proof (Frame_pump_chunks (pending (stream w)) w) as H.
  destruct (running (stream (pump_chunks o _ w))); [done|].
  destruct (flushStarted (stream (pump_chunks o _ w))); [done|].
  destruct (closeRequested (stream (pump_chunks o _ w))); [|done].
  eapply Frame_trans; [exact H|apply Frame_flush].
Qed.

Lemma Frame_drive w : Frame o w (drive o w).
Proof.
  unfold drive. destruct (running (stream w)) as [t|]; [|apply Frame_refl].
  assert (Frame o w (resume o t (with_stream (set_running None) w))) as H.
  { eapply Frame_trans; [by apply (Frame_view w (with_stream (set_running None) w))|].
    destruct t; simpl;
      [apply Frame_await_pending|apply Frame_await_new|apply Frame_await_drain]. }
  destruct (running (stream (resume o t _))); [done|].
  eapply Frame_trans; [exact H|apply Frame_pump].
Qed.

Lemma Frame_settle p how w : Frame o w (settle p how w).
Proof.
  apply Frame_view. unfold frame_view.
  by destruct (settle_rt p how w) as (-> & -> & -> & _).
Qed.

Lemma Frame_resolve_final w : Frame o w (resolve_final w).
Proof.
  unfold resolve_final. destruct (finalResolve (vars w)) as [p|]; [|apply Frame_refl].
  eapply Frame_trans; [|by apply Frame_view].
  eapply Frame_trans; [|apply Frame_settle]. by apply Frame_view.
Qed.

Lemma Frame_forget s w : Frame o w (forget_if_current s w).
Proof.
  unfold forget_if_current. destruct (ws_is s w); [by apply Frame_view|apply Frame_refl].
Qed.

Lemma Frame_on_open s p w : Frame o w (on_open o s p w).
Proof.
  unfold on_open. eapply Frame_trans; [|apply Frame_settle]. by apply Frame_view.
Qed.

Lemma Frame_on_error s p err w : Frame o w (on_error s p err w).
Proof.
  unfold on_error. eapply Frame_trans; [|apply Frame_settle].
  eapply Frame_trans; [|apply Frame_forget]. by apply Frame_view.
Qed.

Lemma Frame_on_close s code reason w : Frame o w (on_close s code reason w).
Proof.
  unfold on_close. eapply Frame_trans; [|apply Frame_resolve_final].
  eapply Frame_trans; [|apply Frame_forget]. by apply Frame_view.
Qed.

Lemma Frame_timer_callback tp w : Frame o w (timer_callback tp w).
Proof.
  unfold timer_callback. eapply Frame_trans; [|apply Frame_settle].
  by apply Frame_view.
Qed.

(** The ["message"] handler is the one call that writes to the readable
    side. *)
Lemma on_message_readable m w :
  activeController (vars w) = true →
  readable (stream (on_message m w))
  = readable (stream w)
    ++ match m, flushEnded (stream w) with
       | Response (Audio chunk) _ _, None => [chunk]
       | _, _ => []
       end
  ∧ activeController (vars (on_message m w)) = true
  ∧ closeRequested (stream (on_message m w)) = closeRequested (stream w)
  ∧ (isShuttingDown (vars w) = true → isShuttingDown (vars (on_message m w)) = true)
  ∧ (flushStarted (stream w) ≠ None → flushStarted (stream (on_message m w)) ≠ None)
  ∧ (flushEnded (stream w) ≠ None → flushEnded (stream (on_message m w)) ≠ None)
  ∧ sockets (rt (on_message m w)) = sockets (rt w).
Proof.
  intros Hc.
  assert (∀ isFinal error w, Frame o w (on_message_rest isFinal error w)) as Hrest.
  { intros isFinal error w'. unfold on_message_rest.
    assert (Frame o w' (if isFinal then resolve_final w' else w')) as H
      by (destruct isFinal; [apply Frame_resolve_final|apply Frame_refl]).
    destruct error; [|done].
    eapply Frame_trans; [exact H|]. by apply Frame_view. }
  assert (∀ isFinal error w,
            sockets (rt (on_message_rest isFinal error w)) = sockets (rt w)) as Hsock.
  { intros isFinal error w'. unfold on_message_rest, resolve_final.
    destruct isFinal, error, (finalResolve (vars w')) as [p|]; simpl; try done;
      by destruct (settle_rt p Fulfilled
            (with_rt (λ r, set_finalCalls (finalCalls r ++ [p]) r) w'))
        as (_ & _ & -> & _). }
  destruct m as [err|[|chunk|err] isFinal error]; simpl.
  - by rewrite app_nil_r.
  - destruct (Hrest isFinal error w) as (-> & -> & -> & Hs & Hf & He & _).
    rewrite app_nil_r, Hsock. done.
  - rewrite Hc. destruct (flushEnded (stream w)) eqn:Hfe.
    + rewrite app_nil_r. simpl. by rewrite Hfe.
    + match goal with |- context [on_message_rest _ _ ?w1] =>
        destruct (Hrest isFinal error w1) as (-> & -> & -> & Hs & Hf & He & _) end.
      rewrite Hsock. done.
  - by rewrite app_nil_r.
Qed.

(** One event: the readable side gets the chunk the event delivers and
    nothing else, and the sockets are framed as by any other call. *)
Lemma step_frame slack w ev :
  activeController (vars w) = true →
  readable (stream (step o slack w ev)) = readable (stream w) ++ delivered w ev
  ∧ activeController (vars (step o slack w ev)) = true
  ∧ closeRequested (stream (step o slack w ev))
    = match ev with CloseWritable => true | _ => closeRequested (stream w) end
  ∧ (flushStarted (stream w) ≠ None → flushStarted (stream (step o slack w ev)) ≠ None)
  ∧ (flushEnded (stream w) ≠ None → flushEnded (stream (step o slack w ev)) ≠ None)
  ∧ ∃ new, ident <$> sockets (rt (step o slack w ev))
           = (ident <$> sockets (rt w)) ++ new
           ∧ Forall (λ x, x.1 = getWebSocketUrl o) new.
Proof.
  intros Hc.
  assert (∀ w', delivered w ev = [] → Frame o w w' →
            readable (stream w') = readable (stream w) ++ delivered w ev
            ∧ activeController (vars w') = true
            ∧ closeRequested (stream w') = closeRequested (stream w)
            ∧ (flushStarted (stream w) ≠ None → flushStarted (stream w') ≠ None)
            ∧ (flushEnded (stream w) ≠ None → flushEnded (stream w') ≠ None)
            ∧ ∃ new, ident <$> sockets (rt w') = (ident <$> sockets (rt w)) ++ new
                     ∧ Forall (λ x, x.1 = getWebSocketUrl o) new) as Hframe.
  { intros w' -> (Hr & Hc' & Hq & _ & Hf & He & Hn). rewrite app_nil_r.
    split; [done|]. split; [congruence|]. split; [done|]. split; [done|].
    split; [done|done]. }
  destruct ev as [token| |s|s m|s err|s code reason|dt| |s]; simpl step.
  - apply Hframe; [done|]. destruct (closeRequested (stream w)); [apply Frame_refl|].
    destruct (running (stream w)); [by apply Frame_view|].
    eapply Frame_trans; [|apply Frame_pump]. by apply Frame_view.
  - destruct (closeRequested (stream w)) eqn:Hcl.
    { rewrite app_nil_r. repeat split; try done. exists []. by rewrite app_nil_r. }
    simpl delivered. rewrite app_nil_r. destruct (running (stream w)).
    { repeat split; try done. exists []. by rewrite app_nil_r. }
    destruct (Frame_pump (with_stream (set_closeRequested true) w))
      as (Hr & Hc' & Hq & _ & Hf & He & Hn).
    split; [exact Hr|]. split; [exact (eq_trans Hc' Hc)|].
    split; [exact Hq|]. split; [exact Hf|]. split; [exact He|exact Hn].
  - apply Hframe; [done|].
    destruct (sockets (rt w) !! s) as [[u [] p]|]; try apply Frame_refl.
    eapply Frame_trans; [|apply Frame_drive].
    eapply Frame_trans; [|apply Frame_on_open]. apply Frame_state.
  - assert (Frame o (on_message m w) (drive o (on_message m w))) as Hd
      by apply Frame_drive.
    destruct Hd as (Hr & Hc' & Hq & _ & Hf & He & new & Hn & Hu).
    destruct (on_message_readable m w Hc) as (Hr' & Hc'' & Hq' & _ & Hf' & He' & Hs).
    unfold delivered, state_of.
    destruct (sockets (rt w) !! s) as [[u [] p]|]; simpl.
    + split; [by destruct m as [|[] ? ?]; rewrite app_nil_r|]. split; [done|].
      split; [done|]. split; [done|]. split; [done|]. exists []. by rewrite app_nil_r.
    + rewrite Hr, Hr', Hc', Hc'', Hq, Hq', Hn, Hs.
      split; [|do 2 (split; [done|]); split; [by auto|]; split; [by auto|];
               by exists new].
      by destruct m as [|[] ? ?], (flushEnded (stream w)).
    + rewrite Hr, Hr', Hc', Hc'', Hq, Hq', Hn, Hs.
      split; [|do 2 (split; [done|]); split; [by auto|]; split; [by auto|];
               by exists new].
      by destruct m as [|[] ? ?], (flushEnded (stream w)).
    + split; [by destruct m as [|[] ? ?]; rewrite app_nil_r|]. split; [done|].
      split; [done|]. split; [done|]. split; [done|]. exists []. by rewrite app_nil_r.
    + split; [by destruct m as [|[] ? ?]; rewrite app_nil_r|]. split; [done|].
      split; [done|]. split; [done|]. split; [done|]. exists []. by rewrite app_nil_r.
  - apply Hframe; [done|].
    destruct (sockets (rt w) !! s) as [[u [] p]|]; simpl; try apply Frame_refl;
      (eapply Frame_trans; [|apply Frame_drive];
       eapply Frame_trans; [|apply Frame_on_error]; apply Frame_state).
  - apply Hframe; [done|].
    destruct (sockets (rt w) !! s) as [[u [] p]|]; simpl; try apply Frame_refl;
      (eapply Frame_trans; [|apply Frame_drive];
       eapply Frame_trans; [|apply Frame_on_close]; apply Frame_state).
  - apply Hframe; [done|].
    destruct (flushTimer (rt w)) as [[due tp]|];
      [destruct (due + slack <? now (rt w) + dt)%N|]; try by apply Frame_view.
    eapply Frame_trans; [|by apply Frame_view].
    eapply Frame_trans; [|apply Frame_drive].
    eapply Frame_trans; [|apply Frame_timer_callback]. by apply Frame_view.
  - apply Hframe; [done|].
    destruct (flushTimer (rt w)) as [[due tp]|]; [|apply Frame_refl].
    destruct (due <=? now (rt w))%N; [|apply Frame_refl].
    eapply Frame_trans; [|apply Frame_drive]. apply Frame_timer_callback.
  - apply Hframe; [done|].
    destruct (sockets (rt w) !! s) as [[u [] p]|]; simpl; try apply Frame_refl.
    apply Frame_state.
Qed.

Lemma adapter_run_controller slack evs :
  activeController (vars (run o slack constructed evs)) = true.
Proof.
  induction evs as [|ev evs IH] using rev_ind; [done|].
  rewrite adapter_run_snoc. by apply step_frame.
Qed.

Lemma delivered_audio w ev : delivered w ev `sublist_of` audio_of [ev].
Proof.
  destruct ev as [| | |s [|[] ? ?]| | | | |]; simpl; try done.
  unfold audio_of. simpl.
  destruct (state_of w s) as [[]|], (flushEnded (stream w));
    try done; by apply sublist_nil_l.
Qed.

Lemma run_readable slack evs :
  readable (stream (run o slack constructed evs)) `sublist_of` audio_of evs.
Proof.
  induction evs as [|ev evs IH] using rev_ind; [done|].
  rewrite adapter_run_snoc.
  destruct (step_frame slack _ ev (adapter_run_controller slack evs)) as (-> & _).
  unfold audio_of. rewrite omap_app. apply sublist_app; [done|].
  apply delivered_audio.
Qed.

Lemma run_sockets_grow slack evs more :
  ∃ new, ident <$> sockets (rt (run o slack constructed (evs ++ more)))
         = (ident <$> sockets (rt (run o slack constructed evs))) ++ new
         ∧ Forall (λ x, x.1 = getWebSocketUrl o) new.
Proof.
  induction more as [|ev more IH] using rev_ind.
  { exists []. by rewrite !app_nil_r. }
  destruct IH as (new & Hn & Hu). rewrite app_assoc, adapter_run_snoc.
  destruct (step_frame slack _ ev (adapter_run_controller slack (evs ++ more)))
    as (_ & _ & _ & _ & _ & new' & Hn' & Hu').
  exists (new ++ new'). rewrite Hn', Hn, app_assoc. split; [done|].
  by apply Forall_app.
Qed.

(** *** After [flush] has been called *)

Lemma wire_settle p how w : wire (settle p how w) = wire w.
Proof.
  unfold wire. by destruct (settle_rt p how w) as (_ & _ & -> & _ & -> & _).
Qed.

Lemma wire_resolve_final w : wire (resolve_final w) = wire w.
Proof.
  unfold resolve_final. destruct (finalResolve (vars w)) as [p|]; [|done].
  unfold wire. simpl.
  by destruct (settle_rt p Fulfilled
       (with_rt (λ r, set_finalCalls (finalCalls r ++ [p]) r) w))
    as (_ & _ & -> & _ & -> & _).
Qed.

Lemma wire_forget s w : wire (forget_if_current s w) = wire w.
Proof. unfold forget_if_current. by destruct (ws_is s w). Qed.

Lemma wire_state s st w : wire (set_socket_state s st w) = wire w.
Proof. unfold wire. simpl. by rewrite length_alter. Qed.

Lemma wire_on_error s p err w : wire (on_error s p err w) = wire w.
Proof. unfold on_error. by rewrite wire_settle, wire_forget. Qed.

Lemma wire_on_close s code reason w : wire (on_close s code reason w) = wire w.
Proof. unfold on_close. by rewrite wire_resolve_final, wire_forget. Qed.

Lemma wire_on_message m w : wire (on_message m w) = wire w.
Proof.
  assert (∀ isFinal error w, wire (on_message_rest isFinal error w) = wire w) as Hrest.
  { intros isFinal error w'. unfold on_message_rest.
    destruct error; destruct isFinal; try done;
      by rewrite <- (wire_resolve_final w'). }
  destruct m as [err|[|chunk|err] isFinal error]; simpl; try done.
  destruct (activeController (vars w)); [|done].
  destruct (flushEnded (stream w)); [done|]. by rewrite Hrest.
Qed.

Lemma wire_timer_callback tp w : wire (timer_callback tp w) = wire w.
Proof. unfold timer_callback. by rewrite wire_settle. Qed.

Lemma wire_flush_close w : wire (flush_close w) = wire w.
Proof.
  unfold flush_close, ws_close, wire. destruct (ws (vars w)) as [s|]; [|done].
  destruct (sockets (rt w) !! s) as [sk|]; [|done].
  destruct (readyState sk); simpl; by rewrite ?length_insert.
Qed.

(** With [flush] called and the queue empty, the microtasks after a handler
    send nothing and create no socket. *)
Lemma drive_drained w :
  flushStarted (stream w) ≠ None →
  pending (stream w) = [] →
  (running (stream w) = None
   ∨ ∃ final tp, running (stream w) = Some (AwaitDrain final tp)) →
  wire (drive o w) = wire w.
Proof.
  intros Hfs Hq [Hr|(final & tp & Hr)]; [by rewrite drive_idle|].
  unfold drive. rewrite Hr. cbn [resume].
  set (w0 := with_stream (set_running None) w).
  unfold await_drain. destruct (race_settled w0 final tp); [|done].
  destruct (flush_close_view w0) as (Hfs' & _ & _ & Hq' & Hr').
  change (running (stream w0)) with (@None Task) in Hr'.
  change (pending (stream w0)) with (pending (stream w)) in Hq'.
  change (flushStarted (stream w0)) with (flushStarted (stream w)) in Hfs'.
  rewrite Hr'. unfold pump. rewrite Hq', Hq. cbn [pump_chunks].
  assert (running (stream (with_stream (set_pending []) (flush_close w0))) = None)
    as -> by done.
  assert (flushStarted (stream (with_stream (set_pending []) (flush_close w0)))
          = flushStarted (stream w)) as -> by done.
  destruct (flushStarted (stream w)); [|done].
  change (wire (with_stream (set_pending []) (flush_close w0)))
    with (wire (flush_close w0)).
  by rewrite wire_flush_close.
Qed.

Lemma step_after_flush slack w ev :
  Link w → FlushInv slack w →
  flushStarted (stream w) ≠ None →
  wire (step o slack w ev) = wire w.
Proof.
  intros HL Hinv Hfs.
  assert (closeRequested (stream w) = true
          ∧ pending (stream w) = []
          ∧ (running (stream w) = None
             ∨ ∃ final tp, running (stream w) = Some (AwaitDrain final tp)))
    as (Hcl & Hq & Hr).
  { unfold FlushInv in Hinv.
    destruct (flushStarted (stream w)); [|done].
    destruct (flushEnded (stream w)).
    - destruct Hinv as (? & ? & ? & _). auto.
    - destruct Hinv as (? & ? & _ & final & tp & ? & _). eauto 10. }
  assert (∀ w', flush_view w' = flush_view w → wire w' = wire w →
                wire (drive o w') = wire w) as Hdrive.
  { intros w' Hv <-. unfold flush_view in Hv. injection Hv as Hv1 _ _ Hv4 Hv5 _ _.
    apply drive_drained; [by rewrite Hv1|by rewrite Hv4|by rewrite Hv5]. }
  destruct ev as [token| |s|s m|s err|s code reason|dt| |s]; simpl.
  - by rewrite Hcl.
  - by rewrite Hcl.
  - destruct (sockets (rt w) !! s) as [[u st p]|] eqn:Hs; [|done].
    destruct st; try done. exfalso.
    destruct HL as (_ & _ & L3 & _).
    destruct (L3 s) as (_ & _ & p' & token & _ & _ & Hrun).
    { unfold state_of. by rewrite Hs. }
    destruct Hr as [Hr|(final & tp & Hr)]; congruence.
  - destruct (sockets (rt w) !! s) as [[u [] p]|]; simpl; try done;
      (apply Hdrive; [apply flush_view_on_message|apply wire_on_message]).
  - destruct (sockets (rt w) !! s) as [[u [] p]|]; simpl; try done;
      (apply Hdrive; [by rewrite flush_view_on_error
                     |by rewrite wire_on_error, wire_state]).
  - destruct (sockets (rt w) !! s) as [[u [] p]|]; simpl; try done;
      (apply Hdrive; [by rewrite flush_view_on_close
                     |by rewrite wire_on_close, wire_state]).
  - destruct (flushTimer (rt w)) as [[due tp]|];
      [destruct (due + slack <? now (rt w) + dt)%N|]; try done.
    change (wire (drive o (timer_callback tp
              (advance_to (N.max (now (rt w)) (due + slack)) w))) = wire w).
    destruct (timer_callback_view tp (advance_to (N.max (now (rt w)) (due + slack)) w))
      as (Hst & _).
    rewrite drive_drained; [by rewrite wire_timer_callback|by rewrite Hst..].
  - destruct (flushTimer (rt w)) as [[due tp]|]; [|done].
    destruct (due <=? now (rt w))%N; [|done].
    destruct (timer_callback_view tp w) as (Hst & _).
    rewrite drive_drained; [by rewrite wire_timer_callback|by rewrite Hst..].
  - destruct (sockets (rt w) !! s) as [[u [] p]|]; simpl; try done.
    apply wire_state.
Qed.

(** *** Tokens on an open connection *)

Lemma payloads_snoc s tokens token :
  payloads s (tokens ++ [token]) = payloads s tokens ++ [(s, payload token)].
Proof. unfold payloads. by rewrite fmap_app. Qed.

(** With a socket open and [flush] not called, the queued chunks are sent
    one after the other. *)
Lemma pump_chunks_open s chunks w :
  ws_open w = Some s →
  isShuttingDown (vars w) = false →
  running (stream w) = None →
  ∃ w', pump_chunks o chunks w = with_stream (set_pending []) w'
        ∧ vars w' = vars w
        ∧ stream w' = stream w
        ∧ rt w' = set_sent (sent (rt w) ++ payloads s chunks) (rt w).
Proof.
  revert w. induction chunks as [|token rest IH]; intros w Hopen Hsd Hr; simpl.
  { exists w. repeat split. rewrite app_nil_r. by destruct (rt w). }
  assert (transform o token w = ws_send s (payload token) w) as ->.
  { unfold transform, ensureConnection, transform_send. by rewrite Hsd, Hopen. }
  simpl. rewrite Hr.
  destruct (IH (ws_send s (payload token) w)) as (w' & -> & Hv & Hst & Hrt); try done.
  exists w'. split; [done|]. split; [done|]. split; [done|].
  rewrite Hrt. simpl. unfold set_sent. simpl. by rewrite <- app_assoc.
Qed.

Lemma step_write_connected slack s token w :
  connected s w →
  let w' := step o slack w (WriteChunk token) in
  connected s w'
  ∧ sent (rt w') = sent (rt w) ++ [(s, payload token)]
  ∧ sockets (rt w') = sockets (rt w)
  ∧ console (rt w') = console (rt w).
Proof.
  intros (Hopen & Hsd & Hr & Hq & Hcl). cbn [step]. rewrite Hcl.
  set (w1 := with_stream (λ x, set_pending (pending x ++ [token]) x) w).
  assert (running (stream w1) = None) as Hr1 by done.
  assert (pending (stream w1) = [token]) as Hq1 by (simpl; by rewrite Hq).
  rewrite Hr1. unfold pump.
  destruct (pump_chunks_open s (pending (stream w1)) w1)
    as (w' & He & Hv & Hst & Hrt); try done.
  rewrite He, Hq1 in *. clear He.
  set (w2 := with_stream (set_pending []) w').
  assert (running (stream w2) = None) as -> by (simpl; by rewrite Hst).
  assert (closeRequested (stream w2) = false) as -> by (simpl; by rewrite Hst).
  assert (ws_open w2 = Some s) as Hopen2.
  { unfold ws_open in *. simpl. rewrite Hv, Hrt. simpl. done. }
  assert (connected s w2 ∧ sent (rt w2) = sent (rt w) ++ [(s, payload token)]
          ∧ sockets (rt w2) = sockets (rt w) ∧ console (rt w2) = console (rt w)) as H.
  { unfold connected. simpl. rewrite Hv, Hst, Hrt. simpl. by rewrite Hr, Hcl. }
  by destruct (flushStarted (stream w2)).
Qed.

Lemma run_writes_connected slack s tokens w :
  connected s w →
  let w' := run o slack w (WriteChunk <$> tokens) in
  connected s w'
  ∧ sent (rt w') = sent (rt w) ++ payloads s tokens
  ∧ sockets (rt w') = sockets (rt w)
  ∧ console (rt w') = console (rt w).
Proof.
  intros Hw. cbv zeta. induction tokens as [|token tokens IH] using rev_ind.
  { simpl. by rewrite app_nil_r. }
  destruct IH as (Hc & Hs & Hk & Hl). rewrite fmap_app.
  change (WriteChunk <$> [token]) with [WriteChunk token]. rewrite adapter_run_snoc.
  destruct (step_write_connected slack s token _ Hc) as (Hc' & -> & -> & ->).
  by rewrite Hs, Hk, Hl, payloads_snoc, app_assoc.
Qed.

(** While a call is suspended, chunks written to the stream wait in its
    queue. *)
Lemma run_writes_queue slack tokens w :
  running (stream w) ≠ None →
  closeRequested (stream w) = false →
  let w' := run o slack w (WriteChunk <$> tokens) in
  vars w' = vars w ∧ rt w' = rt w
  ∧ stream w' = set_pending (pending (stream w) ++ tokens) (stream w).
Proof.
  intros Hr Hcl. cbv zeta. induction tokens as [|token tokens IH] using rev_ind.
  { simpl. repeat split. rewrite app_nil_r. by destruct (stream w). }
  destruct IH as (Hv & Hrt & Hst). rewrite fmap_app.
  change (WriteChunk <$> [token]) with [WriteChunk token]. rewrite adapter_run_snoc.
  cbn [step]. rewrite Hst. simpl. rewrite Hcl, Hst. simpl.
  destruct (running (stream w)); [|done]. simpl.
  rewrite Hv, Hrt, Hst. simpl. by rewrite app_assoc.
Qed.

(** The connecting socket opens: the begin message goes first, then the
    chunk whose [transform] started the attempt, then the chunks that were
    queued behind it. *)
Lemma open_sends_queue slack (s : SocketId) sk token w :
  sockets (rt w) !! s = Some sk →
  readyState sk = CONNECTING →
  running (stream w) = Some (AwaitNew token (attempt sk)) →
  settled (rt w) !! attempt sk = None →
  isShuttingDown (vars w) = false →
  closeRequested (stream w) = false →
  let w' := step o slack w (SockOpen s) in
  connected s w'
  ∧ sent (rt w') = sent (rt w) ++ (s, bosMessage o) :: (s, payload token)
                                  :: payloads s (pending (stream w))
  ∧ length (sockets (rt w')) = length (sockets (rt w)).
Proof.
  intros Hsk Hst Hrun Hpend Hsd Hcl. cbn [step]. rewrite Hsk.
  destruct sk as [u st p]. simpl in Hst, Hrun, Hpend. subst st.
  set (w1 := on_open o s p (set_socket_state s OPEN w)).
  assert (vars w1 = set_ws (Some s) (vars w)
          ∧ stream w1 = stream w
          ∧ sockets (rt w1) = alter (set_readyState OPEN) s (sockets (rt w))
          ∧ sent (rt w1) = sent (rt w) ++ [(s, bosMessage o)]
          ∧ settled (rt w1) !! p = Some Fulfilled) as (Hv1 & Hs1 & Hk1 & Hm1 & Hp1).
  { unfold w1, on_open, settle. simpl. unfold PromiseId in *. rewrite Hpend. simpl.
    by rewrite lookup_insert_eq. }
  assert (ws_open w1 = Some s) as Hopen1.
  { unfold ws_open. rewrite Hv1, Hk1. simpl. rewrite list_lookup_alter_eq.
    unfold SocketId in *. by rewrite Hsk. }
  unfold drive. rewrite Hs1, Hrun. cbn [resume]. unfold await_new.
  change (settled (rt (with_stream (set_running None) w1)) !! p)
    with (settled (rt w1) !! p). rewrite Hp1.
  unfold transform_send.
  change (ws_open (with_stream (set_running None) w1)) with (ws_open w1).
  rewrite Hopen1.
  set (w2 := ws_send s (payload token) (with_stream (set_running None) w1)).
  assert (running (stream w2) = None) as Hr2 by done. rewrite Hr2.
  unfold pump.
  destruct (pump_chunks_open s (pending (stream w2)) w2)
    as (w3 & He & Hv3 & Hs3 & Hrt3); try done.
  { unfold w2. simpl. by rewrite Hv1. }
  rewrite He. clear He.
  set (w4 := with_stream (set_pending []) w3).
  assert (running (stream w4) = None) as -> by (simpl; by rewrite Hs3).
  assert (closeRequested (stream w4) = false) as Hcl4.
  { simpl. rewrite Hs3. simpl. by rewrite Hs1. }
  rewrite Hcl4.
  assert (connected s w4
          ∧ sent (rt w4) = sent (rt w) ++ (s, bosMessage o) :: (s, payload token)
                                          :: payloads s (pending (stream w))
          ∧ length (sockets (rt w4)) = length (sockets (rt w))) as H.
  { unfold connected, ws_open. simpl. rewrite Hv3, Hs3, Hrt3. simpl.
    rewrite Hv1, Hs1, Hk1, Hm1. simpl. rewrite list_lookup_alter_eq.
    unfold SocketId in *. rewrite Hsk. simpl. rewrite Hsd, Hcl, length_alter.
    repeat split; try done. by rewrite <- !app_assoc. }
  by destruct (flushStarted (stream w4)).
Qed.

Lemma run_after_flush slack evs more :
  flushStarted (stream (run o slack constructed evs)) ≠ None →
  flushStarted (stream (run o slack constructed (evs ++ more))) ≠ None
  ∧ wire (run o slack constructed (evs ++ more)) = wire (run o slack constructed evs).
Proof.
  intros Hfs. induction more as [|ev more [IHf IHw]] using rev_ind.
  { by rewrite app_nil_r. }
  rewrite app_assoc, adapter_run_snoc. split.
  - by apply (step_frame slack _ ev (adapter_run_controller slack (evs ++ more))).
  - rewrite <- IHw. apply step_after_flush; [apply Link_run|apply run_flush_inv|done].
Qed.

Lemma run_ended slack evs more :
  flushEnded (stream (run o slack constructed evs)) ≠ None →
  flushEnded (stream (run o slack constructed (evs ++ more))) ≠ None.
Proof.
  intros Hfe. induction more as [|ev more IH] using rev_ind.
  { by rewrite app_nil_r. }
  rewrite app_assoc, adapter_run_snoc.
  by apply (step_frame slack _ ev (adapter_run_controller slack (evs ++ more))).
Qed.

End Framing.

(** *** Where the tokens go *)

Section Accounting.
Context (o : ElevenLabsOptions).































Lemma not_shutting w :
  Link w → flushStarted (stream w) = None → isShuttingDown (vars w) = false.
Proof.
  intros H Hf. link H. destruct (isShuttingDown (vars w)); [|done].
  by destruct (LN eq_refl).
Qed.




Lemma Quiet_of_FlushInv slack w : FlushInv slack w → Quiet w.
Proof.
  unfold FlushInv, Quiet, inflight.
  destruct (flushStarted (stream w)), (flushEnded (stream w)); try done.
  - by intros (_ & -> & -> & _).
  - by intros (_ & -> & _ & final & tp & -> & _).
  - by intros [_ ?].
Qed.

(** After a handler the suspended [transform] can go on. *)

















End Accounting.

(** *** The conversation on a socket *)

Section Protocol.
Context (o : ElevenLabsOptions).

Lemma Proto_view w w' : proto_view w' = proto_view w → Proto o w → Proto o w'.
Proof.
  unfold proto_view, Proto, on_socket, unopened, state_of.
  by intros [= -> -> -> ->].
Qed.

Lemma on_socket_send (s s' : SocketId) v w :
  on_socket s' (ws_send s v w)
  = on_socket s' w ++ (if decide (s = s') then [v] else []).
Proof. unfold on_socket. simpl. rewrite omap_app. simpl. by destruct (decide (s = s')). Qed.

Lemma ws_open_ws w (s : SocketId) :
  ws_open w = Some s → ws (vars w) = Some s ∧ state_of w s = Some OPEN.
Proof.
  unfold ws_open, state_of, SocketId in *. intros H.
  destruct (ws (vars w)) as [s0|]; [|done].
  destruct (sockets (rt w) !! (s0 : nat)) as [[u st p]|] eqn:Hs0; [|done].
  destruct st; try done. injection H as <-. by rewrite Hs0.
Qed.

Lemma conversation_snoc tokens token :
  conversation o tokens false ++ [payload token]
  = conversation o (tokens ++ [token]) false.
Proof. unfold conversation. simpl. by rewrite !app_nil_r, fmap_app. Qed.

Lemma conversation_end tokens :
  conversation o tokens false ++ [eosMessage] = conversation o tokens true.
Proof. unfold conversation. simpl. by rewrite !app_nil_r. Qed.

(** The conversation on the current socket while [flush] has not been
    called. *)
Lemma Proto_current w (s : SocketId) :
  Proto o w → isShuttingDown (vars w) = false → ws (vars w) = Some s →
  ∃ tokens, on_socket s w = conversation o tokens false.
Proof.
  intros (P1 & _ & P3) Hd Hs. destruct (P1 s) as [He|(tokens & ended & He & Hend)].
  - by destruct (P3 s Hs).
  - exists tokens. destruct ended; [|done]. by rewrite Hend in Hd.
Qed.

Lemma Proto_transform_send token w :
  isShuttingDown (vars w) = false → Proto o w → Proto o (transform_send token w).
Proof.
  intros Hd H. unfold transform_send. destruct (ws_open w) as [s|] eqn:Ho;
    [|revert H; by apply Proto_view].
  destruct (ws_open_ws w s Ho) as [Hs Hst].
  destruct (Proto_current w s H Hd Hs) as [tokens Ht].
  destruct H as (P1 & P2 & P3). split; [|split].
  - intros s'. rewrite on_socket_send. destruct (decide (s = s')) as [<-|Hne].
    + right. exists (tokens ++ [token]), false. by rewrite Ht, conversation_snoc.
    + rewrite app_nil_r. apply P1.
  - intros s' Hu. rewrite on_socket_send. destruct (decide (s = s')) as [<-|Hne].
    + destruct Hu as [Hu|Hu]; unfold ws_send, state_of in *; simpl in *; congruence.
    + rewrite app_nil_r. by apply P2.
  - intros s' Hs'. rewrite on_socket_send. simpl in Hs'.
    destruct (decide (s = s')) as [<-|Hne]; [|rewrite app_nil_r; by apply P3].
    rewrite Ht. done.
Qed.

Lemma Proto_await_new token p w :
  isShuttingDown (vars w) = false → Proto o w → Proto o (await_new token p w).
Proof.
  intros Hd H. unfold await_new. destruct (settled (rt w) !! p) as [[|err]|].
  - by apply Proto_transform_send.
  - revert H. by apply Proto_view.
  - revert H. by apply Proto_view.
Qed.

Lemma unopened_create w (s : SocketId) :
  unopened (createConnection o w).2 s → unopened w s.
Proof.
  unfold unopened, state_of, createConnection, resetFinalPromise, SocketId in *.
  simpl. destruct (sockets (rt w) !! (s : nat)) as [sk|] eqn:Hs; [|by right].
  by rewrite (lookup_app_l_Some _ _ _ _ Hs).
Qed.

Lemma Proto_create w : Proto o w → Proto o (createConnection o w).2.
Proof.
  intros (P1 & P2 & P3). split; [|split].
  - apply P1.
  - intros s Hu. apply (P2 s). by apply unopened_create.
  - apply P3.
Qed.

Lemma Proto_new token w :
  isShuttingDown (vars w) = false → Proto o w → Proto o (ensureConnection_new o token w).
Proof.
  intros Hd H. unfold ensureConnection_new.
  pose proof (Proto_create w H) as H'.
  assert (isShuttingDown (vars (createConnection o w).2) = false) as Hd' by done.
  destruct (createConnection o w) as [p w1]. apply Proto_await_new; [done|].
  revert H'. by apply Proto_view.
Qed.

Lemma Proto_await_pending token p w :
  isShuttingDown (vars w) = false → Proto o w → Proto o (await_pending o token p w).
Proof.
  intros Hd H. unfold await_pending. destruct (settled (rt w) !! p) as [[|err]|].
  - destruct (ws_open w); [by apply Proto_transform_send|by apply Proto_new].
  - revert H. by apply Proto_view.
  - revert H. by apply Proto_view.
Qed.

Lemma Proto_transform token w : Proto o w → Proto o (transform o token w).
Proof.
  intros H. unfold transform. destruct (isShuttingDown (vars w)) eqn:Hd; [done|].
  unfold ensureConnection. destruct (ws_open w); [by apply Proto_transform_send|].
  destruct (connectionPromise (vars w));
    [by apply Proto_await_pending|by apply Proto_new].
Qed.

Lemma Proto_pump_chunks chunks w : Proto o w → Proto o (pump_chunks o chunks w).
Proof.
  revert w. induction chunks as [|token rest IH]; intros w H; simpl.
  { revert H. by apply Proto_view. }
  pose proof (Proto_transform token w H) as H'.
  destruct (running (stream (transform o token w))); [|by apply IH].
  revert H'. by apply Proto_view.
Qed.

(** A socket that goes down. *)
Lemma Proto_state (s : SocketId) st w :
  st ≠ CONNECTING → Proto o w → Proto o (set_socket_state s st w).
Proof.
  intros Hst (P1 & P2 & P3). split; [|split].
  - apply P1.
  - intros s' Hu. apply (P2 s'). unfold unopened in *. rewrite state_set in Hu.
    destruct (decide (s = s')) as [<-|Hne]; [|done].
    destruct (state_of w s); [|by right]. destruct Hu as [Hu|Hu]; congruence.
  - apply P3.
Qed.

Lemma Proto_forget s w : Proto o w → Proto o (forget_if_current s w).
Proof.
  intros H. unfold forget_if_current. destruct (ws_is s w); [|done].
  destruct H as (P1 & P2 & P3). split; [|split]; [apply P1|apply P2|done].
Qed.

Lemma Proto_settle p how w : Proto o w → Proto o (settle p how w).
Proof.
  apply Proto_view. unfold proto_view.
  by destruct (settle_rt p how w) as (-> & _ & -> & _ & -> & _).
Qed.

Lemma Proto_resolve_final w : Proto o w → Proto o (resolve_final w).
Proof.
  unfold resolve_final. destruct (finalResolve (vars w)) as [p|]; [|done].
  intros H.
  assert (Proto o (settle p Fulfilled
            (with_rt (λ r, set_finalCalls (finalCalls r ++ [p]) r) w))) as H'.
  { apply Proto_settle. revert H. by apply Proto_view. }
  revert H'. by apply Proto_view.
Qed.

Lemma Proto_on_message m w : Proto o w → Proto o (on_message m w).
Proof.
  assert (∀ isFinal error w', Proto o w' → Proto o (on_message_rest isFinal error w'))
    as Hrest.
  { intros isFinal error w' H. unfold on_message_rest.
    assert (Proto o (if isFinal then resolve_final w' else w')) as H'
      by (destruct isFinal; [by apply Proto_resolve_final|done]).
    destruct error; [|done]. revert H'. by apply Proto_view. }
  intros H. destruct m as [err|[|chunk|err] isFinal error]; simpl.
  - revert H. by apply Proto_view.
  - by apply Hrest.
  - destruct (activeController (vars w)); [|by apply Hrest].
    destruct (flushEnded (stream w)).
    + revert H. by apply Proto_view.
    + apply Hrest. revert H. by apply Proto_view.
  - revert H. by apply Proto_view.
Qed.

Lemma Proto_on_error (s : SocketId) p err w :
  Proto o w → Proto o (on_error s p err (set_socket_state s CLOSING w)).
Proof.
  intros H. unfold on_error. apply Proto_settle, Proto_forget.
  assert (Proto o (set_socket_state s CLOSING w)) as H' by (by apply Proto_state).
  revert H'. by apply Proto_view.
Qed.

Lemma Proto_on_close (s : SocketId) code reason w :
  Proto o w → Proto o (on_close s code reason (set_socket_state s CLOSED w)).
Proof.
  intros H. unfold on_close. apply Proto_resolve_final, Proto_forget.
  assert (Proto o (set_socket_state s CLOSED w)) as H' by (by apply Proto_state).
  revert H'. by apply Proto_view.
Qed.

Lemma Proto_on_open (s : SocketId) p w :
  state_of w s = Some CONNECTING →
  Proto o w → Proto o (on_open o s p (set_socket_state s OPEN w)).
Proof.
  intros Hst H. unfold on_open. apply Proto_settle.
  destruct H as (P1 & P2 & P3).
  assert (on_socket s w = []) as He by (apply P2; by left).
  split; [|split].
  - intros s'. unfold with_vars. simpl.
    change (on_socket s' _) with
      (on_socket s' (ws_send s (bosMessage o) w)).
    rewrite on_socket_send. destruct (decide (s = s')) as [<-|Hne].
    + right. exists [], false. by rewrite He.
    + rewrite app_nil_r. apply P1.
  - intros s' Hu.
    change (on_socket s' _) with (on_socket s' (ws_send s (bosMessage o) w)).
    rewrite on_socket_send.
    assert (unopened (set_socket_state s OPEN w) s') as Hu' by done.
    unfold unopened in Hu'. rewrite state_set in Hu'.
    destruct (decide (s = s')) as [<-|Hne].
    + rewrite Hst in Hu'. destruct Hu'; congruence.
    + rewrite app_nil_r. by apply P2.
  - intros s' [= <-].
    change (on_socket s _) with (on_socket s (ws_send s (bosMessage o) w)).
    rewrite on_socket_send, He. by rewrite decide_True.
Qed.

Lemma Proto_timer_callback tp w : Proto o w → Proto o (timer_callback tp w).
Proof.
  intros H. unfold timer_callback. apply Proto_settle. revert H. by apply Proto_view.
Qed.

Lemma Proto_ws_close (s : SocketId) w : Proto o w → Proto o (ws_close s w).
Proof.
  intros H. unfold ws_close.
  destruct (sockets (rt w) !! s) as [sk|] eqn:Hs; [|done].
  assert (Proto o (with_rt
            (λ r, set_sockets (<[s := set_readyState CLOSING sk]> (sockets r)) r) w))
    as H'.
  { destruct H as (P1 & P2 & P3). split; [|split]; [apply P1| |apply P3].
    intros s' Hu. apply (P2 s'). unfold unopened, state_of in *. simpl in Hu.
    destruct (decide (s = s')) as [<-|Hne].
    - rewrite list_lookup_insert_eq in Hu by (by apply lookup_lt_Some in Hs).
      destruct Hu; done.
    - by rewrite list_lookup_insert_ne in Hu. }
  by destruct (readyState sk).
Qed.

Lemma Proto_flush_close w : Proto o w → Proto o (flush_close w).
Proof.
  intros H. unfold flush_close, flush_return.
  assert (Proto o (match ws (vars w) with Some s => ws_close s w | None => w end))
    as (P1 & P2 & P3)
    by (destruct (ws (vars w)); [by apply Proto_ws_close|done]).
  split; [|split]; [apply P1|apply P2|done].
Qed.

Lemma Proto_await_drain final tp w : Proto o w → Proto o (await_drain final tp w).
Proof.
  intros H. unfold await_drain. destruct (race_settled w final tp).
  - by apply Proto_flush_close.
  - revert H. by apply Proto_view.
Qed.

Lemma Proto_flush w :
  isShuttingDown (vars w) = false → Proto o w → Proto o (flush w).
Proof.
  intros Hd H. unfold flush.
  set (w2 := with_vars (set_isShuttingDown true)
               (console_log "ElevenLabs: Flushing stream..."
                  (with_stream (set_flushStarted (Some (now (rt w)))) w))).
  assert (∀ s', on_socket s' w2 = on_socket s' w) as Hsame by done.
  destruct H as (P1 & P2 & P3).
  assert (Proto o w2) as H2.
  { split; [|split]; [|apply P2|apply P3].
    intros s. destruct (P1 s) as [He|(tokens & ended & He & Hend)]; [by left|].
    right. by exists tokens, ended. }
  destruct (ws_open w2) as [s|] eqn:Ho.
  2: { unfold flush_return. destruct H2 as (Q1 & Q2 & Q3).
       split; [|split]; [apply Q1|apply Q2|apply Q3]. }
  simpl. apply Proto_await_drain.
  apply (Proto_view (ws_send s eosMessage w2)); [done|].
  destruct (ws_open_ws w2 s Ho) as [Hs Hst].
  destruct (Proto_current w s (conj P1 (conj P2 P3)) Hd Hs) as [tokens Ht].
  split; [|split].
  - intros s'. rewrite on_socket_send, Hsame. destruct (decide (s = s')) as [<-|Hne].
    + right. exists tokens, true. by rewrite Ht, conversation_end.
    + rewrite app_nil_r. destruct (P1 s') as [He|(tokens' & ended & He & Hend)];
        [by left|]. right. by exists tokens', ended.
  - intros s' Hu. rewrite on_socket_send, Hsame.
    destruct (decide (s = s')) as [<-|Hne].
    + assert (state_of w2 s = state_of w s) as Hst' by done.
      destruct Hu as [Hu|Hu]; change (state_of _ s) with (state_of w2 s) in Hu;
        congruence.
    + rewrite app_nil_r. by apply P2.
  - intros s' Hs'. rewrite on_socket_send, Hsame.
    destruct (decide (s = s')) as [<-|Hne]; [by rewrite Ht|].
    rewrite app_nil_r. by apply P3.
Qed.

Lemma Proto_pump w :
  Link w → running (stream w) = None → Proto o w → Proto o (pump o w).
Proof.
  intros HL Hr H. unfold pump.
  pose proof (Proto_pump_chunks (pending (stream w)) w H) as H'.
  pose proof (Link_pump_chunks o (pending (stream w)) w HL Hr) as HL'.
  destruct (running (stream (pump_chunks o _ w))); [done|].
  destruct (flushStarted (stream (pump_chunks o _ w))) eqn:Hf; [done|].
  destruct (closeRequested (stream (pump_chunks o _ w))); [|done].
  apply Proto_flush; [|done]. by apply not_shutting.
Qed.

Lemma Proto_drive w :
  Link w → Quiet w → Proto o w → Proto o (drive o w).
Proof.
  intros HL Hq H. unfold drive. destruct (running (stream w)) as [t|] eqn:Ht; [|done].
  pose proof (Link_resume o t w HL Ht) as HL'.
  set (w0 := with_stream (set_running None) w) in *.
  assert (Proto o w0) as H0 by (revert H; by apply Proto_view).
  assert (Proto o (resume o t w0)) as H'.
  { destruct t as [token p|token p|final tp]; simpl.
    - pose proof HL as HL0. link HL0. by destruct (L5 token p).
    - apply Proto_await_new; [|done].
      apply (not_shutting w HL). unfold Quiet, inflight in Hq. rewrite Ht in Hq.
      destruct (flushStarted (stream w)); [by destruct Hq|done].
    - by apply Proto_await_drain. }
  destruct (running (stream (resume o t w0))) eqn:Hr'; [done|].
  by apply Proto_pump.
Qed.

Lemma Proto_step slack w ev :
  Link w → FlushInv slack w → Proto o w → Proto o (step o slack w ev).
Proof.
  intros HL Hfl H. pose proof (Quiet_of_FlushInv slack w Hfl) as Hq.
  assert (∀ wh, Link wh → flush_view wh = flush_view w → Proto o wh →
                Proto o (drive o wh)) as Hdrive.
  { intros wh HLh [= Hf _ _ Hp Hr _ _] Hh. apply Proto_drive; [done| |done].
    unfold Quiet, inflight in *. by rewrite Hf, Hr, Hp. }
  destruct ev as [token| |s|s m|s err|s code reason|dt| |s]; simpl.
  - destruct (closeRequested (stream w)); [done|].
    set (w1 := with_stream (λ x, set_pending (pending x ++ [token]) x) w).
    assert (Proto o w1) as H1 by (revert H; by apply Proto_view).
    assert (Link w1) as HL1 by (revert HL; by apply Link_view).
    destruct (running (stream w)) eqn:Hr; [done|]. by apply Proto_pump.
  - destruct (closeRequested (stream w)); [done|].
    set (w1 := with_stream (set_closeRequested true) w).
    assert (Proto o w1) as H1 by (revert H; by apply Proto_view).
    assert (Link w1) as HL1 by (revert HL; by apply Link_view).
    destruct (running (stream w)) eqn:Hr; [done|]. by apply Proto_pump.
  - destruct (sockets (rt w) !! s) as [[u st p]|] eqn:Hs; [|done].
    destruct st; try done. apply Hdrive.
    + by apply (Link_on_open o s {| url := u; readyState := CONNECTING; attempt := p |}).
    + by rewrite flush_view_on_open.
    + apply Proto_on_open; [|done]. unfold state_of. by rewrite Hs.
  - destruct (sockets (rt w) !! s) as [[u [] p]|]; simpl; try done;
      (apply Hdrive;
       [by apply Link_on_message|apply flush_view_on_message|by apply Proto_on_message]).
  - destruct (sockets (rt w) !! s) as [[u st p]|] eqn:Hs; [|done]. simpl.
    destruct st; try done;
      (apply Hdrive;
       [by apply (Link_on_error_live s u _ p err w HL Hs)
       |by rewrite flush_view_on_error|by apply Proto_on_error]).
  - destruct (sockets (rt w) !! s) as [[u st p]|] eqn:Hs; [|done]. simpl.
    destruct st; try done;
      (apply Hdrive;
       [by apply Link_on_close_any|by rewrite flush_view_on_close
       |by apply Proto_on_close]).
  - destruct (flushTimer (rt w)) as [[due tp]|] eqn:Ht;
      [destruct (due + slack <? now (rt w) + dt)%N|]; try (revert H; by apply Proto_view).
    set (w1 := advance_to (N.max (now (rt w)) (due + slack)) w).
    assert (Link w1) as HL1 by (revert HL; by apply Link_view).
    assert (Proto o (drive o (timer_callback tp w1))) as H'.
    { apply Proto_drive.
      - by apply (Link_timer_callback due).
      - destruct (timer_callback_view tp w1) as (Hst & _).
        unfold Quiet, inflight in *. by rewrite Hst.
      - apply Proto_timer_callback. revert H. by apply Proto_view. }
    revert H'. by apply Proto_view.
  - destruct (flushTimer (rt w)) as [[due tp]|] eqn:Ht; [|done].
    destruct (due <=? now (rt w))%N; [|done].
    apply Proto_drive.
    + by apply (Link_timer_callback due).
    + destruct (timer_callback_view tp w) as (Hst & _).
      unfold Quiet, inflight in *. by rewrite Hst.
    + by apply Proto_timer_callback.
  - destruct (sockets (rt w) !! s) as [[u [] p]|]; simpl; try done.
    by apply Proto_state.
Qed.

Lemma Proto_run slack evs : Proto o (run o slack constructed evs).
Proof.
  induction evs as [|ev evs IH] using rev_ind.
  { split; [|split]; [by left|done|done]. }
  rewrite adapter_run_snoc. apply Proto_step; [apply Link_run|apply run_flush_inv|done].
Qed.

End Protocol.

(** *** A connection that drops *)

Section Reconnect.
Context (o : ElevenLabsOptions).

Lemma drop_disconnects slack (s : SocketId) ev w :
  connected s w → drops s ev →
  disconnected (step o slack w ev)
  ∧ sent (rt (step o slack w ev)) = sent (rt w)
  ∧ length (sockets (rt (step o slack w ev))) = length (sockets (rt w)).
Proof.
  intros (Ho & Hd & Hr & Hp & Hc) Hev.
  destruct (ws_open_ws w s Ho) as [Hs Hst].
  assert (∀ line st,
            let w1 := forget_if_current s (console_log line (set_socket_state s st w)) in
            disconnected w1 ∧ sent (rt w1) = sent (rt w)
            ∧ length (sockets (rt w1)) = length (sockets (rt w))) as Hdown.
  { intros line st. unfold forget_if_current, ws_is. simpl. rewrite Hs.
    rewrite bool_decide_eq_true_2 by done. simpl.
    by rewrite length_alter. }
  unfold state_of in Hst.
  destruct (sockets (rt w) !! s) as [[u st p]|] eqn:Hsk; [|done].
  simpl in Hst. injection Hst as ->.
  destruct Hev as [(code & reason & ->)|(err & ->)]; simpl; rewrite Hsk; simpl.
  - destruct (Hdown ("ElevenLabs: WebSocket closed (code: " +:+ code
                     +:+ ", reason: " +:+ reason +:+ ")") CLOSED)
      as ((D1 & D2 & D3 & D4 & D5 & D6) & Hse & Hle).
    rewrite drive_idle.
    + unfold on_close, resolve_final.
      destruct (finalResolve _) as [q|]; [|done].
      match goal with |- context [settle q Fulfilled ?x] =>
        destruct (settle_rt q Fulfilled x) as (Ev & Es & Eso & _ & Ese & _) end.
      unfold disconnected. simpl. rewrite Ev, Es, Eso, Ese. done.
    + unfold on_close, resolve_final.
      destruct (finalResolve _) as [q|]; [|done].
      match goal with |- context [settle q Fulfilled ?x] =>
        destruct (settle_rt q Fulfilled x) as (_ & Es & _) end.
      simpl. by rewrite Es.
  - destruct (Hdown ("ElevenLabs WS Error: " +:+ err) CLOSING)
      as ((D1 & D2 & D3 & D4 & D5 & D6) & Hse & Hle).
    unfold on_error.
    match goal with |- context [settle p (Rejected err) ?x] =>
      destruct (settle_rt p (Rejected err) x) as (Ev & Es & Eso & _ & Ese & _) end.
    rewrite drive_idle by (by rewrite Es).
    unfold disconnected. rewrite Ev, Es, Eso, Ese. done.
Qed.

Lemma first_write_connects slack token w :
  Link w → disconnected w →
  let w' := step o slack w (WriteChunk token) in
  let p := S (nextPromise (rt w)) in
  sockets (rt w')
  = sockets (rt w) ++ [{| url := getWebSocketUrl o; readyState := CONNECTING;
                          attempt := p |}]
  ∧ running (stream w') = Some (AwaitNew token p)
  ∧ settled (rt w') !! p = None
  ∧ pending (stream w') = []
  ∧ sent (rt w') = sent (rt w)
  ∧ isShuttingDown (vars w') = false
  ∧ closeRequested (stream w') = false.
Proof.
  intros HL (Hs & Hcp & Hd & Hr & Hp & Hc). simpl.
  assert (settled (rt w) !! S (nextPromise (rt w)) = None) as Hfresh.
  { link HL. destruct (settled (rt w) !! S (nextPromise (rt w))) eqn:Hl; [|done].
    assert (S (nextPromise (rt w)) < nextPromise (rt w)) by (apply Lfresh; eauto).
    lia. }
  rewrite Hc. simpl. rewrite Hr. unfold pump. simpl. rewrite Hp. simpl.
  unfold transform. simpl. rewrite Hd.
  unfold ensureConnection, ws_open. simpl. rewrite Hs, Hcp.
  unfold ensureConnection_new, createConnection, resetFinalPromise, await_new. simpl.
  unfold PromiseId in *. rewrite Hfresh. simpl. by rewrite Hfresh.
Qed.

End Reconnect.

(** *** Further properties of ElevenLabsTTSTransform *)

(** X16.  One connection at a time.  In every run the socket in [ws] is
    open, or closing because the remote end has started the closing
    handshake; an open socket is the one in [ws]; and at most one socket is
    open or connecting.  While a socket is connecting, the stream's
    [transform] is suspended at the attempt of that socket, which is
    pending. *)
Theorem one_connection_at_a_time
    (o : ElevenLabsOptions) (slack : N) (evs : list Event) :
  let w := run o slack constructed evs in
  (∀ s, ws (vars w) = Some s →
     state_of w s = Some OPEN ∨ state_of w s = Some CLOSING)
  ∧ (∀ s, state_of w s = Some OPEN → ws (vars w) = Some s)
  ∧ (∀ s s' st st', state_of w s = Some st → state_of w s' = Some st' →
       live st = true → live st' = true → s = s')
  ∧ (∀ s, state_of w s = Some CONNECTING →
       ∃ p token, attempt_of w s = Some p
                  ∧ settled (rt w) !! p = None
                  ∧ running (stream w) = Some (AwaitNew token p)).
Proof.
  intros w. pose proof (Link_run o slack evs) as H. fold w in H.
  pose proof H as (L1 & L2 & L3 & LU & _).
  split; [exact L1|]. split; [exact L2|]. split.
  - intros s s' st st' Hs Hs' Hl Hl'.
    destruct st; try done; destruct st'; try done.
    + by apply LU.
    + destruct (L3 s Hs) as (Hws & _). by destruct (no_open w s' H Hws).
    + destruct (L3 s' Hs') as (Hws & _). by destruct (no_open w s H Hws).
    + pose proof (L2 s Hs). pose proof (L2 s' Hs'). congruence.
  - intros s Hs. by destruct (L3 s Hs) as (_ & _ & H').
Qed.

(** The remote end starts the closing handshake on the current socket.
    Until ["close"] is emitted [ws] holds the closing socket; a chunk
    written meanwhile starts a second connection, the ["close"] of the first
    one then clears [ws] and [connectionPromise], and when the second socket
    opens the chunk goes out on it. *)
Example closing_socket_stays_current :
  let w := run no_options 0 constructed
             [WriteChunk "a"; SockOpen 0; SockCloseFrame 0; WriteChunk "b"] in
  let w' := run no_options 0 w [SockClose 0 "1000" ""; SockOpen 1] in
  ws (vars w) = Some 0
  ∧ state_of w 0 = Some CLOSING
  ∧ state_of w 1 = Some CONNECTING
  ∧ connectionPromise (vars (step no_options 0 w (SockClose 0 "1000" ""))) = None
  ∧ ws (vars w') = Some 1
  ∧ state_of w' 0 = Some CLOSED
  ∧ state_of w' 1 = Some OPEN
  ∧ sent (rt w') = [(0, bosMessage no_options); (0, payload "a");
                    (1, bosMessage no_options); (1, payload "b")].
Proof. cbv zeta. repeat split; by vm_compute. Qed.

(** X17.  With a socket open and the stage not shutting down, every chunk
    the stream hands to [transform] is sent in that call, as the payload of
    [transform], on that socket and in the order handed over.  The call
    does not wait, creates no socket and logs nothing, and it leaves the
    closure variables and the stream as they are. *)
Theorem tokens_handed_over_while_connected_are_sent
    (o : ElevenLabsOptions) (s : SocketId) (tokens : list string) (w : World) :
  ws_open w = Some s →
  isShuttingDown (vars w) = false →
  let w' := foldl (λ w token, transform o token w) w tokens in
  ws_open w' = Some s
  ∧ sent (rt w') = sent (rt w) ++ payloads s tokens
  ∧ sockets (rt w') = sockets (rt w)
  ∧ console (rt w') = console (rt w)
  ∧ vars w' = vars w
  ∧ stream w' = stream w.
Proof.
  intros Hopen Hsd. cbv zeta. revert w Hopen Hsd.
  induction tokens as [|token tokens IH]; intros w Hopen Hsd.
  { simpl. by rewrite app_nil_r. }
  assert (transform o token w = ws_send s (payload token) w) as Hcall.
  { unfold transform. rewrite Hsd. unfold ensureConnection. rewrite Hopen.
    unfold transform_send. by rewrite Hopen. }
  simpl. rewrite Hcall.
  destruct (IH (ws_send s (payload token) w)) as (H1 & H2 & H3 & H4 & H5 & H6);
    [done|done|].
  rewrite H1, H2, H3, H4, H5, H6. simpl. by rewrite <- app_assoc.
Qed.

Lemma tokens_handed_over_while_connected_are_sent_witness :
  let w := run no_options 0 constructed [WriteChunk "Hello"; SockOpen 0] in
  let w' := foldl (λ w token, transform no_options token w) w [" there"; "!"] in
  ws_open w = Some 0
  ∧ isShuttingDown (vars w) = false
  ∧ ws_open w' = Some 0
  ∧ sent (rt w') = sent (rt w) ++ payloads 0 [" there"; "!"]
  ∧ sockets (rt w') = sockets (rt w)
  ∧ console (rt w') = console (rt w)
  ∧ vars w' = vars w
  ∧ stream w' = stream w.
Proof.
  split; [reflexivity|]. split; [reflexivity|].
  apply (tokens_handed_over_while_connected_are_sent no_options 0 [" there"; "!"]);
    reflexivity.
Defined.

(** X18.  Chunks written while a connection attempt is in flight wait in
    the stream's queue: no second socket is created and nothing is sent.
    When the socket opens, the begin message goes first, then the chunk
    that started the attempt, then the queued chunks in the order written,
    all on the new socket. *)
Theorem queued_tokens_follow_begin_message
    (o : ElevenLabsOptions) (slack : N) (evs : list Event) (s : SocketId)
    (tokens : list string) :
  let w := run o slack constructed evs in
  state_of w s = Some CONNECTING →
  closeRequested (stream w) = false →
  let w1 := run o slack w (WriteChunk <$> tokens) in
  let w2 := step o slack w1 (SockOpen s) in
  sockets (rt w1) = sockets (rt w)
  ∧ sent (rt w1) = sent (rt w)
  ∧ pending (stream w1) = pending (stream w) ++ tokens
  ∧ ∃ token p,
      running (stream w) = Some (AwaitNew token p)
      ∧ connected s w2
      ∧ sent (rt w2)
        = sent (rt w) ++ (s, bosMessage o) :: (s, payload token)
                         :: payloads s (pending (stream w) ++ tokens)
      ∧ length (sockets (rt w2)) = length (sockets (rt w)).
Proof.
  intros w Hs Hcl w1 w2. pose proof (Link_run o slack evs) as H. fold w in H.
  destruct H as (_ & _ & L3 & _).
  destruct (L3 s Hs) as (_ & Hsd & p & token & Hp & Hpend & Hrun).
  destruct (run_writes_queue o slack tokens w) as (Hv & Hrt & Hst);
    [by rewrite Hrun|done|]. fold w1 in Hv, Hrt, Hst.
  rewrite Hrt, Hst. split; [done|]. split; [done|]. split; [done|].
  exists token, p. split; [done|].
  unfold attempt_of, state_of in *.
  destruct (sockets (rt w) !! s) as [sk|] eqn:Hsk; [|done].
  simpl in Hs, Hp. injection Hs as Hs. injection Hp as <-.
  destruct (open_sends_queue o slack s sk token w1) as (Hc & Hm & Hn).
  - by rewrite Hrt.
  - done.
  - by rewrite Hst.
  - by rewrite Hrt.
  - by rewrite Hv.
  - by rewrite Hst.
  - fold w2 in Hc, Hm, Hn. rewrite Hm, Hn, Hrt, Hst. done.
Qed.

Lemma queued_tokens_follow_begin_message_witness :
  let w := run zero_tuning 0 constructed [WriteChunk "Hello"; WriteChunk ","] in
  let w1 := run zero_tuning 0 w (WriteChunk <$> [" world"]) in
  let w2 := step zero_tuning 0 w1 (SockOpen 0) in
  sockets (rt w1) = sockets (rt w)
  ∧ sent (rt w1) = sent (rt w)
  ∧ pending (stream w1) = pending (stream w) ++ [" world"]
  ∧ ∃ token p,
      running (stream w) = Some (AwaitNew token p)
      ∧ connected 0 w2
      ∧ sent (rt w2)
        = sent (rt w) ++ (0, bosMessage zero_tuning) :: (0, payload token)
                         :: payloads 0 (pending (stream w) ++ [" world"])
      ∧ length (sockets (rt w2)) = length (sockets (rt w)).
Proof.
  apply (queued_tokens_follow_begin_message zero_tuning 0
           [WriteChunk "Hello"; WriteChunk ","] 0 [" world"]);
    by vm_compute.
Defined.

(** X19.  Once [flush] has been called the stage sends nothing more and
    creates no socket, whatever is written to the stream and whatever the
    sockets and the timer do. *)
Theorem nothing_sent_after_flush
    (o : ElevenLabsOptions) (slack : N) (evs more : list Event) :
  flushStarted (stream (run o slack constructed evs)) ≠ None →
  sent (rt (run o slack constructed (evs ++ more)))
  = sent (rt (run o slack constructed evs))
  ∧ length (sockets (rt (run o slack constructed (evs ++ more))))
    = length (sockets (rt (run o slack constructed evs))).
Proof.
  intros Hfs. destruct (run_after_flush o slack evs more Hfs) as [_ Hw].
  unfold wire in Hw. by injection Hw.
Qed.

Lemma nothing_sent_after_flush_witness :
  let evs := [WriteChunk "Hello"; SockOpen 0; CloseWritable] in
  let more := [WriteChunk "late"; SockMessage 0 final_signal; SockOpen 0;
               SockClose 0 "1000" "done"; Tick 6000; WriteChunk "later"] in
  sent (rt (run no_options 0 constructed (evs ++ more)))
  = sent (rt (run no_options 0 constructed evs))
  ∧ length (sockets (rt (run no_options 0 constructed (evs ++ more))))
    = length (sockets (rt (run no_options 0 constructed evs))).
Proof.
  apply (nothing_sent_after_flush no_options 0
           [WriteChunk "Hello"; SockOpen 0; CloseWritable]).
  by vm_compute.
Defined.

(** X20.  When [flush] has returned the connection is gone for good:
    [isShuttingDown] is set, [connectionPromise] is null, no socket is open
    or connecting, and [ws] is null or holds a socket that is closing (the
    one [flush] found closing and left alone); so it is now and after any
    further events. *)
Theorem flush_closes_the_connection
    (o : ElevenLabsOptions) (slack : N) (evs more : list Event) :
  flushEnded (stream (run o slack constructed evs)) ≠ None →
  let w := run o slack constructed (evs ++ more) in
  flushEnded (stream w) ≠ None
  ∧ isShuttingDown (vars w) = true
  ∧ connectionPromise (vars w) = None
  ∧ ws_open w = None
  ∧ (∀ s, ws (vars w) = Some s → state_of w s = Some CLOSING)
  ∧ ∀ s st, state_of w s = Some st → live st = false.
Proof.
  intros Hfe w. pose proof (run_ended o slack evs more Hfe) as Hfe'. fold w in Hfe'.
  pose proof (Link_run o slack (evs ++ more)) as H. fold w in H.
  pose proof H as (L1 & L2 & L3 & _ & _ & _ & _ & _ & _ & _ & _ & _ & _ & LE & _).
  destruct (LE Hfe') as (Hsd & Hws & Hcp).
  split; [done|]. split; [done|]. split; [done|]. split; [done|]. split.
  - intros s Hs. destruct (L1 s Hs) as [Ho|Hc]; [|done].
    by destruct (no_open w s H Hws).
  - intros s st Hs. destruct st; try done.
    + destruct (L3 s Hs) as (_ & ? & _). congruence.
    + by destruct (no_open w s H Hws).
Qed.

Lemma flush_closes_the_connection_witness :
  let evs := [WriteChunk "Hello"; SockOpen 0; SockCloseFrame 0; CloseWritable] in
  let w := run no_options 0 constructed (evs ++ [SockMessage 0 final_signal; Tick 6000]) in
  flushEnded (stream w) ≠ None
  ∧ isShuttingDown (vars w) = true
  ∧ connectionPromise (vars w) = None
  ∧ ws_open w = None
  ∧ (∀ s, ws (vars w) = Some s → state_of w s = Some CLOSING)
  ∧ ∀ s st, state_of w s = Some st → live st = false.
Proof.
  apply (flush_closes_the_connection no_options 0
           [WriteChunk "Hello"; SockOpen 0; SockCloseFrame 0; CloseWritable]).
  by vm_compute.
Defined.

(** [flush] finds the current socket closing: it sends no end message,
    does not wait and returns with [ws] still set; the ["close"] of that
    socket clears it. *)
Example flush_skips_a_closing_socket :
  let w := run no_options 0 constructed
             [WriteChunk "Hello"; SockOpen 0; SockCloseFrame 0; CloseWritable] in
  flushEnded (stream w) = Some 0%N
  ∧ ws (vars w) = Some 0
  ∧ state_of w 0 = Some CLOSING
  ∧ sent (rt w) = [(0, bosMessage no_options); (0, payload "Hello")]
  ∧ ws (vars (step no_options 0 w (SockClose 0 "1000" ""))) = None.
Proof. cbv zeta. repeat split; by vm_compute. Qed.

(** X21.  Audio is forwarded in arrival order.  An event puts on the
    readable side exactly the decoded audio of a message that arrives on a
    socket that is open or closing while the readable side is open, and
    nothing else; so in every run the readable side holds, in order, some
    of the audio chunks of the messages received. *)
Theorem audio_forwarded_in_arrival_order
    (o : ElevenLabsOptions) (slack : N) (evs : list Event) (ev : Event) :
  let w := run o slack constructed evs in
  readable (stream (step o slack w ev)) = readable (stream w) ++ delivered w ev
  ∧ readable (stream w) `sublist_of` audio_of evs.
Proof.
  intros w. split.
  - by apply (step_frame o slack w ev (adapter_run_controller o slack evs)).
  - apply run_readable.
Qed.

(** X22.  Every socket the stage creates is opened on [getWebSocketUrl],
    where a missing or empty [modelId] reads as the default model; sockets
    are never removed, and the URL and the attempt of a socket never
    change. *)
Theorem sockets_keep_url_and_attempt
    (o : ElevenLabsOptions) (slack : N) (evs more : list Event) :
  Forall (λ sk, url sk = getWebSocketUrl o) (sockets (rt (run o slack constructed evs)))
  ∧ (ident <$> sockets (rt (run o slack constructed evs)))
    `prefix_of` (ident <$> sockets (rt (run o slack constructed (evs ++ more))))
  ∧ (modelId o = None ∨ modelId o = Some EmptyString →
     getWebSocketUrl o
     = "wss://api.elevenlabs.io/v1/text-to-speech/" +:+ interpolate (voiceId o)
       +:+ "/stream-input?model_id=eleven_monolingual_v1&output_format=pcm_16000").
Proof.
  split; [|split].
  - destruct (run_sockets_grow o slack [] evs) as (new & Hn & Hu).
    simpl in Hn. rewrite Forall_forall. intros sk Hin.
    rewrite Forall_forall in Hu. apply (Hu (ident sk)).
    change (ident sk ∈ new). rewrite <- Hn. apply list_elem_of_fmap. by exists sk.
  - destruct (run_sockets_grow o slack evs more) as (new & Hn & _).
    by exists new.
  - unfold getWebSocketUrl. by intros [-> | ->].
Qed.



(** X25.  Every connection follows the protocol.  In every run, what the
    stage has sent on a socket is either nothing, or the begin message
    first, then nothing but payloads of tokens, and then at most one end
    message, which is the last message on that socket and is sent only by
    [flush]. *)
Theorem each_connection_follows_the_protocol o slack evs s :
  let w := run o slack constructed evs in
  on_socket s w = []
  ∨ ∃ tokens ended, on_socket s w = conversation o tokens ended
                    ∧ (ended = true → flushStarted (stream w) ≠ None).
Proof.
  intros w. destruct (Proto_run o slack evs) as (P1 & _). fold w in P1.
  destruct (P1 s) as [He|(tokens & ended & He & Hend)]; [by left|].
  right. exists tokens, ended. split; [done|]. intros Hen.
  pose proof (Link_run o slack evs) as HL. fold w in HL. link HL. by apply LN, Hend.
Qed.

(** X26.  An established connection that drops is replaced.  When the
    current socket closes or reports an error while the stage is connected
    and idle, nothing is sent and the stage forgets the socket.  The next
    chunk written starts a new connection attempt on a fresh socket, chunks
    written meanwhile wait, and when the new socket opens the begin message
    and the payloads of all those chunks are sent on it, in the order
    written, leaving the stage connected to the new socket. *)
Theorem dropped_connection_is_replaced
    (o : ElevenLabsOptions) (slack : N) (evs : list Event) (s : SocketId)
    (ev : Event) (token : string) (tokens : list string) :
  let w := run o slack constructed evs in
  connected s w →
  drops s ev →
  let s' := length (sockets (rt w)) in
  let w1 := step o slack w ev in
  let w2 := run o slack w1 (WriteChunk <$> token :: tokens) in
  let w3 := step o slack w2 (SockOpen s') in
  disconnected w1
  ∧ sent (rt w2) = sent (rt w)
  ∧ state_of w2 s' = Some CONNECTING
  ∧ connected s' w3
  ∧ sent (rt w3) = sent (rt w) ++ (s', bosMessage o) :: payloads s' (token :: tokens).
Proof.
  intros w Hcon Hev s' w1 w2 w3.
  destruct (drop_disconnects o slack s ev w Hcon Hev) as (Hdis & Hse1 & Hle1).
  fold w1 in Hdis, Hse1, Hle1.
  assert (Link w1) as HL1 by apply Link_step, Link_run.
  destruct (first_write_connects o slack token w1 HL1 Hdis)
    as (Hso & Hr & Hst & Hp & Hse & Hd & Hc).
  set (wa := step o slack w1 (WriteChunk token)) in *.
  set (p := S (nextPromise (rt w1))) in *.
  destruct (run_writes_queue o slack tokens wa) as (Hv & Hrt & Hs);
    [by rewrite Hr|done|].
  assert (w2 = run o slack wa (WriteChunk <$> tokens)) as Hw2 by done.
  rewrite <- Hw2 in Hv, Hrt, Hs.
  set (sk := {| url := getWebSocketUrl o; readyState := CONNECTING; attempt := p |}).
  assert (sockets (rt w2) !! (s' : nat) = Some sk) as Hsk.
  { rewrite Hrt, Hso. unfold s'. rewrite <- Hle1.
    by rewrite lookup_app_r, Nat.sub_diag. }
  split; [done|]. split; [by rewrite Hrt, Hse|].
  split; [unfold state_of, SocketId; by rewrite Hsk|].
  destruct (open_sends_queue o slack s' sk token w2) as (Hcon3 & Hse3 & _).
  - done.
  - done.
  - by rewrite Hs.
  - by rewrite Hrt.
  - by rewrite Hv.
  - by rewrite Hs.
  - fold w3 in Hcon3, Hse3. split; [done|].
    rewrite Hse3, Hrt, Hse, Hse1, Hs. simpl. by rewrite Hp.
Qed.

Lemma dropped_connection_is_replaced_witness :
  let w := run no_options 0 constructed [WriteChunk "Hello"; SockOpen 0] in
  let w1 := step no_options 0 w (SockClose 0 "1006" "") in
  let w2 := run no_options 0 w1 (WriteChunk <$> ["again"; "!"]) in
  let w3 := step no_options 0 w2 (SockOpen 1) in
  disconnected w1
  ∧ sent (rt w2) = sent (rt w)
  ∧ state_of w2 1 = Some CONNECTING
  ∧ connected 1 w3
  ∧ sent (rt w3) = sent (rt w) ++ (1, bosMessage no_options) :: payloads 1 ["again"; "!"].
Proof.
  apply (dropped_connection_is_replaced no_options 0
           [WriteChunk "Hello"; SockOpen 0] 0 (SockClose 0 "1006" "") "again" ["!"]).
  - by vm_compute.
  - left. by exists "1006", "".
Defined.

End ConnectionFacts.

Module AgentFacts.
Import Agent.

Lemma agent_run_snoc {C} env (w : World C) evs ev :
  run env w (evs ++ [ev]) = step env (run env w evs) ev.
Proof. unfold run. by rewrite foldl_app. Qed.

Lemma requested_app {C} (evs evs' : list (Event C)) :
  requested (evs ++ evs') = requested evs ++ requested evs'.
Proof. apply omap_app. Qed.

(** Creating an agent adds at most one agent and leaves the pending
    hang-up and the calls made so far alone. *)
Lemma create_frame {C} env (p : CreateVoiceAgentParams C) w :
  let w' := fst (createSandwichShopVoiceAgent env p w) in
  pendingHangUp w' = pendingHangUp w
  ∧ closed w' = closed w
  ∧ thrown w' = thrown w
  ∧ (agents w' = agents w
     ∨ ∃ a, agents w' = agents w ++ [a] ∧ params a = p).
Proof.
  unfold createSandwichShopVoiceAgent.
  destruct (createSTTProvider _ _ _) as [s|err]; simpl; [|by auto].
  destruct (createTTSProvider _ _ _) as [t|err]; simpl; [|by auto].
  repeat split; try done. right. by eexists.
Qed.

(** The agents created in a run in which every [closeConnection] returns
    all have one that returns. *)
Lemma run_close_returns {C} env (evs : list (Event C)) :
  closes_return evs → Forall close_returns (agents (run env loaded evs)).
Proof.
  induction evs as [|ev evs IH] using rev_ind; intros Hev; [by constructor|].
  apply Forall_app in Hev as [Hevs Hev]. rewrite Forall_singleton in Hev.
  rewrite agent_run_snoc. specialize (IH Hevs).
  set (w := run env loaded evs) in *.
  destruct ev as [p|i reason|i]; simpl.
  - destruct (create_frame env p w) as (_ & _ & _ & [->|(a & -> & Hp)]); [done|].
    apply Forall_app. split; [done|]. apply Forall_singleton.
    unfold close_returns. by rewrite Hp.
  - by destruct (agents w !! i).
  - destruct (agents w !! i) as [a|]; [|done]. unfold onAudioComplete.
    destruct (pendingHangUp w) as [reason|]; [|done].
    destruct (closeConnection (params a)) as [close|]; [|done].
    destruct (truthy (Some reason)); [|done]. by destruct (close reason).
Qed.

Lemma step_served_in_order {C} env (w : World C) evs ev :
  Forall close_returns (agents w) →
  served_in_order w evs →
  served_in_order (step env w ev) (evs ++ [ev]).
Proof.
  intros Hret [Hsub Hne]. unfold served_in_order. rewrite requested_app.
  destruct ev as [p|i reason|i]; simpl.
  - destruct (create_frame env p w) as (Hp & Hc & _). unfold closed_with.
    rewrite Hp, Hc, app_nil_r. done.
  - destruct (agents w !! i); simpl.
    + split; [|done]. apply sublist_app; [|done].
      etransitivity; [|exact Hsub]. by apply sublist_inserts_r.
    + split; [|done]. by apply sublist_inserts_r.
  - rewrite app_nil_r.
    destruct (agents w !! i) as [a|] eqn:Ha; [|done]. unfold onAudioComplete.
    destruct (pendingHangUp w) as [reason|] eqn:Hp; [|by rewrite Hp].
    destruct (closeConnection (params a)) as [close|] eqn:Hclose; [|by rewrite Hp].
    destruct (truthy (Some reason)) eqn:Htr; [|by rewrite Hp].
    rewrite Forall_forall in Hret.
    rewrite (Hret a (list_elem_of_lookup_2 _ _ _ Ha) close reason Hclose).
    unfold closed_with in *. simpl. rewrite fmap_app, app_nil_r. simpl. split; [done|].
    apply Forall_app. split; [done|]. apply Forall_singleton.
    intros ->. done.
Qed.

Lemma run_served_in_order {C} env (evs : list (Event C)) :
  closes_return evs → served_in_order (run env loaded evs) evs.
Proof.
  induction evs as [|ev evs IH] using rev_ind; intros Hev.
  - split; [done|by constructor].
  - pose proof Hev as Hev'. apply Forall_app in Hev' as [Hevs _].
    rewrite agent_run_snoc. apply step_served_in_order; [|by apply IH].
    by apply run_close_returns.
Qed.

(** *** Properties of the playground agent *)

(** X12.  The two provider factories agree with the list of
    [getAvailableProviders]: a listed id is accepted, the provider is built
    with the callback it was given, and it has all its credentials exactly
    when the list says the provider is available (the factories themselves
    never check the environment); any other id makes the factory throw an
    error that names it. *)
Theorem factories_agree_with_listing
    (C D : Type) (env : Env) (provider : string)
    (onSpeechStart : option C) (onAudioComplete : option D) :
  match createSTTProvider env provider onSpeechStart with
  | Returned p =>
      stt_callback p = onSpeechStart
      ∧ ∃ e, e ∈ stt (getAvailableProviders env)
             ∧ id e = provider ∧ available e = stt_credentials p
  | Threw err =>
      err = "Unknown STT provider: " +:+ provider
      ∧ ∀ e, e ∈ stt (getAvailableProviders env) → id e ≠ provider
  end
  ∧ match createTTSProvider env provider onAudioComplete with
    | Returned p =>
        tts_callback p = onAudioComplete
        ∧ ∃ e, e ∈ tts (getAvailableProviders env)
               ∧ id e = provider ∧ available e = tts_credentials p
    | Threw err =>
        err = "Unknown TTS provider: " +:+ provider
        ∧ ∀ e, e ∈ tts (getAvailableProviders env) → id e ≠ provider
    end.
Proof.
  unfold createSTTProvider, createTTSProvider. split.
  - destruct (String.eqb_spec provider "assemblyai") as [->|H1].
    { split; [done|]. eexists. split; [left|]. done. }
    destruct (String.eqb_spec provider "openai") as [->|H2].
    { split; [done|]. eexists. split; [right; left|]. done. }
    split; [done|]. intros e He. simpl in He.
    rewrite !elem_of_cons, elem_of_nil in He.
    destruct He as [->|[->|[]]]; simpl; congruence.
  - destruct (String.eqb_spec provider "elevenlabs") as [->|H1].
    { split; [done|]. eexists. split; [left|]. done. }
    destruct (String.eqb_spec provider "hume") as [->|H2].
    { split; [done|]. eexists. split; [right; left|]. done. }
    destruct (String.eqb_spec provider "openai") as [->|H3].
    { split; [done|]. eexists. split; [right; right; left|]. done. }
    split; [done|]. intros e He. simpl in He.
    rewrite !elem_of_cons, elem_of_nil in He.
    destruct He as [->|[->|[->|[]]]]; simpl; congruence.
Qed.



(** X14.  When every [closeConnection] returns, the reasons the
    connections were closed with are, in order, among the reasons of the
    hang-up requests, each request serving at most one call: a request
    overwritten by a later one before the audio completes is dropped.  A
    request whose reason is the empty string is never served. *)
Theorem closed_reasons_follow_requests
    (C : Type) (env : Env) (evs : list (Event C)) :
  closes_return evs →
  let w := run env loaded evs in
  closed_with w `sublist_of` requested evs
  ∧ (length (closed w) ≤ length (requested evs))%nat
  ∧ (∀ i reason, (i, reason) ∈ closed w → reason ≠ EmptyString).
Proof.
  intros Hev w. destruct (run_served_in_order env evs Hev) as [Hsub Hne].
  fold w in Hsub, Hne.
  assert (closed_with w `sublist_of` requested evs) as Hs.
  { etransitivity; [|exact Hsub]. by apply sublist_inserts_r. }
  split; [done|]. split.
  - apply sublist_length in Hs. unfold closed_with in Hs.
    by rewrite length_fmap in Hs.
  - intros i reason Hin. rewrite Forall_forall in Hne. apply Hne.
    unfold closed_with. apply list_elem_of_fmap. by exists (i, reason).
Qed.

Lemma closed_reasons_follow_requests_witness :
  let evs := [Create caller_with_close; HangUp 0 "first"; HangUp 0 "second";
              AudioComplete 0; HangUp 0 EmptyString; AudioComplete 0] in
  let w := run ∅ loaded evs in
  closes_return evs
  ∧ closed_with w = ["second"]
  ∧ closed_with w `sublist_of` requested evs
  ∧ (length (closed w) ≤ length (requested evs))%nat
  ∧ (∀ i reason, (i, reason) ∈ closed w → reason ≠ EmptyString).
Proof.
  assert (closes_return [Create caller_with_close; HangUp 0 "first"; HangUp 0 "second";
                         AudioComplete 0; HangUp 0 EmptyString; AudioComplete 0]) as Hev.
  { repeat constructor. intros close reason [= <-]. done. }
  split; [exact Hev|]. split; [reflexivity|].
  exact (closed_reasons_follow_requests unit ∅ _ Hev).
Defined.



End AgentFacts.
